(** * picross-solver: a shallow embedding of [picross_solver.py]

    The development follows the source file top to bottom: the Python
    built-ins it relies on, the line enumerator [get_numsposs], the line
    intersector [poss_intersection], the seeding of the grid
    ([initial_possibilities]), the two pruning passes ([ruleout_rows],
    [ruleout_cols]) and the propagation loop ([solve]).

    Modelling conventions.
    - A Python [int] is a [Z]; a Python [str] over the characters 0 and 1
      is a [list ascii]; a [set] of such strings is a [gset (list ascii)].
    - A grid cell is [None] or a one-character string: [option ascii].
    - The numpy array [self.board] is a list of rows; its shape
      [(height, width)] is carried by the record.
    - Code that may raise returns a [result]; the [while] loop of [solve]
      is driven by a bound on the number of cycles it may run.
    - Where the source iterates over a set, the embedding iterates over
      [elements] of it; what is proved of the result is stated through
      membership and holds for any order.
    - [PicrossBoard_init] is the constructor on hints that are already
      lists of integers; [PicrossBoard_new] is the constructor as the source
      has it, on the hint strings, with the built-in [int] as a parameter.
    - A string that is printed is the list of its code points. *)

From stdpp Require Import base decidable option list gmap fin_sets strings.
From Stdlib Require Import ZArith Ascii Lia Factorial.

Open Scope Z_scope.
Open Scope char_scope.
Open Scope list_scope.

(** ** Python built-ins *)

Abbreviation pattern := (list ascii).
Abbreviation cell := (option ascii).

(** [c * n] on a one-character string: the empty string when [n <= 0]. *)
Definition str_mul (c : ascii) (n : Z) : pattern := replicate (Z.to_nat n) c.

(** [range(n)]: [0, 1, ..., n-1], empty when [n <= 0]. *)
Definition py_range (n : Z) : list Z := Z.of_nat <$> seq 0 (Z.to_nat n).

Definition py_sum (l : list Z) : Z := foldr Z.add 0 l.

Definition py_len {A} (l : list A) : Z := Z.of_nat (length l).

(** Exceptions the modelled code can raise. *)
Inductive exn := IndexError | ValueError.

Inductive result (A : Type) :=
| Ok (a : A)
| Raise (e : exn).
Arguments Ok {A} a.
Arguments Raise {A} e.

(** The error monad, with stdpp's [x ← m; k] notation. *)
#[global] Instance result_ret : MRet result := λ A a, Ok a.
#[global] Instance result_bind : MBind result := λ A B k m,
  match m with
  | Ok a => k a
  | Raise e => Raise e
  end.

(** A [for] loop over [l] threading a state through a body that may raise. *)
Fixpoint for_each {A St} (l : list A) (body : St → A → result St) (s : St) : result St :=
  match l with
  | [] => Ok s
  | a :: l' => s' ← body s a; for_each l' body s'
  end.

(** The strings that are printed hold characters outside ASCII: such a
    [str] is the list of its code points. *)
Abbreviation ustr := (list N).

(** [sep.join(l)] *)
Fixpoint str_join (sep : ustr) (l : list ustr) : ustr :=
  match l with
  | [] => []
  | s :: l' =>
      match l' with
      | [] => s
      | _ :: _ => s ++ sep ++ str_join sep l'
      end
  end.

(** [s.split(sep)] for a separator of one character: the pieces between
    the occurrences of [sep], empty pieces included; never the empty
    list. *)
Fixpoint split (sep : ascii) (s : list ascii) : list (list ascii) :=
  match s with
  | [] => [[]]
  | c :: s' =>
      if decide (c = sep) then [] :: split sep s'
      else match split sep s' with
           | tok :: toks => (c :: tok) :: toks
           | [] => [[c]]
           end
  end.

(** [[f(x) for x in l]] for an [f] that may raise. *)
Fixpoint comprehension {A B} (f : A → result B) (l : list A) : result (list B) :=
  match l with
  | [] => Ok []
  | a :: l' => b ← f a; bs ← comprehension f l'; Ok (b :: bs)
  end.

(** ** Rendering of cells *)

(** [format_cell]: an asterisk (code point 42) for [None]; otherwise the
    black square U+25A0 (9632) when the cell is the string 1 and the dotted
    square U+2B1A (11034) when it is anything else. *)
Definition format_cell (cellval : cell) : ustr :=
  match cellval with
  | None => [42%N]
  | Some c => if decide (c = "1") then [9632%N] else [11034%N]
  end.

(** [format_nums]: the cells' glyphs joined by spaces (code point 32). *)
Definition format_nums (nums : list cell) : ustr :=
  str_join [32%N] (format_cell <$> nums).

(** ** Line enumerator *)

(** [get_numsposs nums remain_len]: recursion on [nums], the recursive call
    being on [nums[1:]]. *)
Fixpoint get_numsposs (nums : list Z) (remain_len : Z) : gset pattern :=
  match nums with
  | [] => {[ [] ]}
  | n :: rest =>
      if decide (n :: rest = [0]) then {[ str_mul "0" remain_len ]}
      else
        let deg_of_free := 1 + remain_len - py_sum (n :: rest) - py_len (n :: rest) in
        foldl (λ (line_poss : gset pattern) (i : Z),
                 let str := str_mul "0" i ++ str_mul "1" n in
                 if decide (1 < py_len (n :: rest)) then
                   let str := str ++ ["0"] in
                   let after_blocks := get_numsposs rest (remain_len - py_len str) in
                   line_poss ∪ set_map (λ e, str ++ e) after_blocks
                 else
                   let str := str ++ str_mul "0" (remain_len - py_len str) in
                   line_poss ∪ {[ str ]})
              ∅ (py_range (deg_of_free + 1))
  end.

(** ** Line intersector *)

(** The inner loop of [poss_intersection] at position [i]: the other
    patterns are visited in order; the first one that differs from [char]
    at [i] makes the position [None] and ends the loop. [poss[i]] raises
    when [poss] is too short. *)
Fixpoint check_char (i : nat) (char : ascii) (others : list pattern) : result cell :=
  match others with
  | [] => Ok (Some char)
  | poss :: others' =>
      match poss !! i with
      | None => Raise IndexError
      | Some c => if decide (char = c) then check_char i char others' else Ok None
      end
  end.

(** The outer loop, over [enumerate(validate)] from index [i] on. *)
Fixpoint validate_from (i : nat) (chars : list ascii) (others : list pattern)
  : result (list cell) :=
  match chars with
  | [] => Ok []
  | char :: chars' =>
      v ← check_char i char others;
      vs ← validate_from (S i) chars' others;
      Ok (v :: vs)
  end.

(** [tuple(line_poss)] is [elements line_poss]: like Python, stdpp fixes no
    meaningful order on the elements of a set. *)
Definition poss_intersection (line_poss : gset pattern) : result (list cell) :=
  match elements line_poss with
  | [] => Raise IndexError
  | [p] => Ok (Some <$> p)
  | first :: others => validate_from 0 first others
  end.

(** [A or numsB[i]] for [i, A] in [enumerate(numsA)]: a one-character
    string is truthy, [None] is not, and [numsB[i]] is only evaluated for
    the latter. *)
Fixpoint combine_from (i : nat) (numsA numsB : list cell) : result (list cell) :=
  match numsA with
  | [] => Ok []
  | A :: numsA' =>
      v ← match A with
          | Some a => Ok (Some a)
          | None => match numsB !! i with
                    | Some b => Ok b
                    | None => Raise IndexError
                    end
          end;
      vs ← combine_from (S i) numsA' numsB;
      Ok (v :: vs)
  end.

Definition combine_known_nums (numsA numsB : list cell) : result (list cell) :=
  combine_from 0 numsA numsB.

(** ** The board *)

Record PicrossBoard := mkBoard {
  verlist : list (list Z);
  horlist : list (list Z);
  height : nat;
  width : nat;
  board : list (list cell);
  verposs : list (gset pattern);
  horposs : list (gset pattern)
}.

(** [__init__] on hints that are already lists of integers. The two
    candidate lists only come into being in [initial_possibilities]; they
    are empty until then. *)
Definition PicrossBoard_init (horlist verlist : list (list Z)) : PicrossBoard :=
  let height := length verlist in
  let width := length horlist in
  {| verlist := verlist; horlist := horlist;
     height := height; width := width;
     board := replicate height (replicate width None);
     verposs := []; horposs := [] |}.

(** [[int(num) for num in string.split(" ")]]; the built-in [int] is a
    parameter: nothing is assumed of which strings it converts. *)
Definition parse_hint (int : list ascii → result Z) (string : list ascii)
  : result (list Z) :=
  comprehension int (split " " string).

(** [__init__] as the source has it, on the hint strings. *)
Definition PicrossBoard_new (int : list ascii → result Z)
    (horlist verlist : list (list ascii)) : result PicrossBoard :=
  ver ← comprehension (parse_hint int) verlist;
  hor ← comprehension (parse_hint int) horlist;
  Ok (PicrossBoard_init hor ver).

Definition set_board (b : PicrossBoard) (brd : list (list cell)) : PicrossBoard :=
  {| verlist := verlist b; horlist := horlist b; height := height b;
     width := width b; board := brd; verposs := verposs b; horposs := horposs b |}.

Definition set_verposs (b : PicrossBoard) (vp : list (gset pattern)) : PicrossBoard :=
  {| verlist := verlist b; horlist := horlist b; height := height b;
     width := width b; board := board b; verposs := vp; horposs := horposs b |}.

Definition set_horposs (b : PicrossBoard) (hp : list (gset pattern)) : PicrossBoard :=
  {| verlist := verlist b; horlist := horlist b; height := height b;
     width := width b; board := board b; verposs := verposs b; horposs := hp |}.

(** *** numpy indexing and assignment *)

(** Assigning a list to a slice of [n] cells: the list has [n] entries, or
    one entry that is repeated; anything else is a [ValueError]. *)
Definition broadcast (n : nat) (vals : list cell) : result (list cell) :=
  if decide (length vals = n) then Ok vals
  else match vals with
       | [v] => Ok (replicate n v)
       | _ => Raise ValueError
       end.

Definition index {A} (l : list A) (i : nat) : result A :=
  match l !! i with
  | Some a => Ok a
  | None => Raise IndexError
  end.

(** [self.board[y,:]] *)
Definition get_row (b : PicrossBoard) (y : nat) : result (list cell) :=
  index (board b) y.

(** [self.board[:,x]] *)
Definition get_col (b : PicrossBoard) (x : nat) : result (list cell) :=
  match mapM (λ row : list cell, row !! x) (board b) with
  | Some col => Ok col
  | None => Raise IndexError
  end.

(** [self.board[y,:] = vals] *)
Definition set_row (b : PicrossBoard) (y : nat) (vals : list cell) : result PicrossBoard :=
  if decide (y < height b)%nat then
    row ← broadcast (width b) vals;
    Ok (set_board b (<[y := row]> (board b)))
  else Raise IndexError.

(** [self.board[:,x] = vals] *)
Definition set_col (b : PicrossBoard) (x : nat) (vals : list cell) : result PicrossBoard :=
  if decide (x < width b)%nat then
    col ← broadcast (height b) vals;
    Ok (set_board b (zip_with (λ row v, <[x := v]> row) (board b) col))
  else Raise IndexError.

Definition enumerate {A} (l : list A) : list (nat * A) := imap pair l.

(** ** Seeding *)

Definition initial_possibilities (b : PicrossBoard) : result PicrossBoard :=
  b ← for_each (enumerate (verlist b))
        (λ b '(i, nums),
           let line_poss := get_numsposs nums (Z.of_nat (width b)) in
           let b := set_verposs b (verposs b ++ [line_poss]) in
           intersection ← poss_intersection line_poss;
           set_row b i intersection)
        (set_verposs b []);
  for_each (enumerate (horlist b))
    (λ b '(i, nums),
       let line_poss := get_numsposs nums (Z.of_nat (height b)) in
       let b := set_horposs b (horposs b ++ [line_poss]) in
       intersection ← poss_intersection line_poss;
       column ← get_col b i;
       merged ← combine_known_nums column intersection;
       set_col b i merged)
    (set_horposs b []).

(** ** Pruning *)

(** [for poss in frozenset(possible): if poss[i] != c: possible.remove(poss)]:
    the snapshot is [elements possible], the set being shrunk is the
    loop state. *)
Definition prune_at (i : nat) (c : ascii) (possible : gset pattern) : result (gset pattern) :=
  for_each (elements possible)
    (λ (possible : gset pattern) poss,
       match poss !! i with
       | None => Raise IndexError
       | Some ch => if decide (ch ≠ c) then Ok (possible ∖ {[ poss ]}) else Ok possible
       end)
    possible.

(** [for i, c in enumerate(nums): if c is None: continue; ...] *)
Definition prune (nums : list cell) (possible : gset pattern) : result (gset pattern) :=
  for_each (enumerate nums)
    (λ (possible : gset pattern) '(i, c),
       match c with
       | None => Ok possible
       | Some c => prune_at i c possible
       end)
    possible.

(** [[*list(possible)[0]]] when [len(possible) == 1]. *)
Definition only_candidate (possible : gset pattern) : option (list cell) :=
  match elements possible with
  | [p] => Some (Some <$> p)
  | _ => None
  end.

(** The body that [ruleout_rows] and [ruleout_cols] share, for one line:
    the candidate set after the call, and the cells to write into the line
    when exactly one candidate is left. *)
Definition ruleout_line (nums : list cell) (possible : gset pattern)
  : result (gset pattern * option (list cell)) :=
  match only_candidate possible with
  | Some line => Ok (possible, Some line)
  | None =>
      possible ← prune nums possible;
      Ok (possible, only_candidate possible)
  end.

Definition ruleout_rows (b : PicrossBoard) : result PicrossBoard :=
  for_each (seq 0 (height b))
    (λ b y,
       nums ← get_row b y;
       possible ← index (verposs b) y;
       '(possible, line) ← ruleout_line nums possible;
       let b := set_verposs b (<[y := possible]> (verposs b)) in
       match line with
       | Some vals => set_row b y vals
       | None => Ok b
       end)
    b.

Definition ruleout_cols (b : PicrossBoard) : result PicrossBoard :=
  for_each (seq 0 (width b))
    (λ b x,
       nums ← get_col b x;
       possible ← index (horposs b) x;
       '(possible, line) ← ruleout_line nums possible;
       let b := set_horposs b (<[x := possible]> (horposs b)) in
       match line with
       | Some vals => set_col b x vals
       | None => Ok b
       end)
    b.

(** ** Rendering of the board *)

(** [__str__]: the rows joined by newlines (code point 10). *)
Definition PicrossBoard_str (b : PicrossBoard) : ustr :=
  str_join [10%N] ((λ row, str_join [32%N] (format_cell <$> row)) <$> board b).

(** ** The propagation loop *)

(** [count_nonzero(self.board == None)] *)
Definition remaining_squares (b : PicrossBoard) : nat :=
  length (filter (λ c : cell, c = None) (concat (board b))).

(** What [solve] hands back: [self] or [None]. The board object is
    mutated in both cases; its final state comes with the answer. *)
Inductive solve_ret := ReturnSelf | ReturnNone.

(** The [while] loop, allowed to run at most [cycles] times through its
    body; [None] when that allowance is used up. *)
Fixpoint solve_loop (cycles : nat) (b : PicrossBoard)
  : option (result (PicrossBoard * solve_ret)) :=
  let stuckcheck := remaining_squares b in
  if decide (stuckcheck = 0%nat) then Some (Ok (b, ReturnSelf))
  else
    match cycles with
    | O => None
    | S cycles' =>
        match ruleout_rows b with
        | Raise e => Some (Raise e)
        | Ok b1 =>
            match ruleout_cols b1 with
            | Raise e => Some (Raise e)
            | Ok b2 =>
                if decide (stuckcheck = remaining_squares b2)
                then Some (Ok (b2, ReturnNone))
                else solve_loop cycles' b2
            end
        end
    end.

Definition solve_within (cycles : nat) (b : PicrossBoard)
  : option (result (PicrossBoard * solve_ret)) :=
  match initial_possibilities b with
  | Raise e => Some (Raise e)
  | Ok b0 => solve_loop cycles b0
  end.

(** [solve]: the loop is allowed one cycle per cell of the grid, which is
    always enough ([solve_loop_spec]); a larger allowance gives the same
    answer ([solve_loop_more]). *)
Definition solve (b : PicrossBoard) : option (result (PicrossBoard * solve_ret)) :=
  solve_within (height b * width b) b.

(** Writing patterns as string literals. *)
Definition pat (s : string) : pattern := String.list_ascii_of_string s.

(** * Specification vocabulary *)

(** ** Enumerated patterns *)

(** The placements of the first block after [i] leading zeros: the loop
    body of [get_numsposs] for one value of [i]. *)
Definition block_at (n : Z) (rest : list Z) (remain_len i : Z) : gset pattern :=
  let str := str_mul "0" i ++ str_mul "1" n in
  if decide (1 < py_len (n :: rest)) then
    set_map (λ e, (str ++ ["0"]) ++ e)
            (get_numsposs rest (remain_len - py_len (str ++ ["0"])))
  else {[ str ++ str_mul "0" (remain_len - py_len str) ]}.

(** The lengths of the maximal runs of ones of [p], left to right, when
    [cur] ones have just been read. *)
Fixpoint runs_from (cur : nat) (p : pattern) : list nat :=
  match p with
  | [] => if decide (cur = 0%nat) then [] else [cur]
  | c :: p' =>
      if decide (c = "1") then runs_from (S cur) p'
      else (if decide (cur = 0%nat) then [] else [cur]) ++ runs_from 0 p'
  end.

(** The lengths of the maximal runs of ones of a pattern, left to right. *)
Definition runs (p : pattern) : list nat := runs_from 0 p.

(** A string of zeros and ones. *)
Definition binary (p : pattern) : Prop := Forall (λ c, c = "0" ∨ c = "1") p.

(** A hint as the constructor can hold it and the solver can handle it:
    at least one block, none negative. *)
Definition hint_ok (nums : list Z) : Prop :=
  nums ≠ [] ∧ Forall (λ n, 0 ≤ n) nums.

(** The binomial coefficient, by Pascal's rule ([binom_fact] relates it to
    the factorials). *)
Fixpoint binom (n k : nat) : nat :=
  match n, k with
  | _, O => 1
  | O, S _ => 0
  | S n', S k' => binom n' k' + binom n' k
  end.

(** ** Intersection and pruning of one line *)

(** [poss_intersection] on the tuple that [tuple(line_poss)] yields. *)
Definition intersect_tuple (l : list pattern) : result (list cell) :=
  match l with
  | [] => Raise IndexError
  | [p] => Ok (Some <$> p)
  | first :: others => validate_from 0 first others
  end.

(** All of [others] have [char] at position [i]. *)
Definition agree_at (i : nat) (char : ascii) (others : list pattern) : Prop :=
  Forall (λ p : pattern, p !! i = Some char) others.

(** [p] has, wherever the line is known, the known value. *)
Definition agrees (p : pattern) (nums : list cell) : Prop :=
  ∀ i c, nums !! i = Some (Some c) → p !! i = Some c.

(** What one call of the shared loop body does to a line [nums] with
    candidates [X]: the candidates [Y] and the cells [nums'] of the line
    after it. *)
Record line_step (nums : list cell) (X : gset pattern)
       (nums' : list cell) (Y : gset pattern) : Prop := {
  step_subseteq : Y ⊆ X;
  step_length : length nums' = length nums;
  step_agrees : ∀ p, p ∈ Y → agrees p nums';
  step_cells : nums' = nums ∨ ∃ p, Y = {[ p ]} ∧ nums' = Some <$> p;
  step_empty : Y = ∅ → nums' = nums;
}.

(** ** The grid and its two axes *)

(** The cell in row [y], column [x]. *)
Definition cell_at (b : PicrossBoard) (y x : nat) : option cell :=
  board b !! y ≫= (λ row : list cell, row !! x).

(** The array has the shape [(height, width)]. *)
Definition shape_ok (b : PicrossBoard) : Prop :=
  length (board b) = height b ∧ Forall (λ row, length row = width b) (board b).

(** Two states of one board object: same hints, same dimensions. *)
Record same_frame (b b' : PicrossBoard) : Prop := {
  frame_verlist : verlist b' = verlist b;
  frame_horlist : horlist b' = horlist b;
  frame_height : height b' = height b;
  frame_width : width b' = width b;
}.

(** What the row pass and the column pass have in common: a number of
    lines of a common length, reading and writing line [k], that line's
    candidate set, and where position [j] of line [k] sits in the grid. *)
Record axis := {
  ax_lines : PicrossBoard → nat;
  ax_len : PicrossBoard → nat;
  ax_get : PicrossBoard → nat → result (list cell);
  ax_set : PicrossBoard → nat → list cell → result PicrossBoard;
  ax_poss : PicrossBoard → list (gset pattern);
  ax_set_poss : PicrossBoard → list (gset pattern) → PicrossBoard;
  ax_cell : PicrossBoard → nat → nat → option cell;
}.

(** Rows: line [k] is row [k], its position [j] is column [j]. *)
Definition rows : axis :=
  {| ax_lines := height; ax_len := width; ax_get := get_row; ax_set := set_row;
     ax_poss := verposs; ax_set_poss := set_verposs; ax_cell := cell_at |}.

(** Columns: line [k] is column [k], its position [j] is row [j]. *)
Definition cols : axis :=
  {| ax_lines := width; ax_len := height; ax_get := get_col; ax_set := set_col;
     ax_poss := horposs; ax_set_poss := set_horposs;
     ax_cell := λ b x y, cell_at b y x |}.

(** The pass over one axis; [ruleout_rows] and [ruleout_cols] are its two
    instances. *)
Definition ruleout (ax : axis) (b : PicrossBoard) : result PicrossBoard :=
  for_each (seq 0 (ax_lines ax b))
    (λ b k,
       nums ← ax_get ax b k;
       possible ← index (ax_poss ax b) k;
       '(possible, line) ← ruleout_line nums possible;
       let b := ax_set_poss ax b (<[k := possible]> (ax_poss ax b)) in
       match line with
       | Some vals => ax_set ax b k vals
       | None => Ok b
       end)
    b.

(** The candidate sets of an axis: one per line, holding patterns of the
    line's length. *)
Definition poss_ok (ax : axis) (b : PicrossBoard) : Prop :=
  length (ax_poss ax b) = ax_lines ax b ∧
  Forall (set_Forall (λ p : pattern, length p = ax_len ax b)) (ax_poss ax b).

(** The state the propagation loop works on. *)
Definition board_ok (b : PicrossBoard) : Prop :=
  shape_ok b ∧ poss_ok rows b ∧ poss_ok cols b.

(** What the proof of a pass uses of its axis [ax], [other] being the axis
    the pass leaves alone. *)
Record axis_laws (ax other : axis) : Prop := {
  law_get b k :
    shape_ok b → (k < ax_lines ax b)%nat →
    ∃ nums, ax_get ax b k = Ok nums ∧ length nums = ax_len ax b ∧
            ∀ j, nums !! j = ax_cell ax b k j;
  law_set b k vals :
    shape_ok b → (k < ax_lines ax b)%nat → length vals = ax_len ax b →
    ∃ b', ax_set ax b k vals = Ok b' ∧ shape_ok b' ∧ same_frame b b' ∧
          ax_poss ax b' = ax_poss ax b ∧ ax_poss other b' = ax_poss other b ∧
          ∀ k' j, ax_cell ax b' k' j =
                  if decide (k' = k) then vals !! j else ax_cell ax b k' j;
  law_set_poss b Xs :
    ax_poss ax (ax_set_poss ax b Xs) = Xs ∧
    ax_poss other (ax_set_poss ax b Xs) = ax_poss other b ∧
    board (ax_set_poss ax b Xs) = board b ∧
    same_frame b (ax_set_poss ax b Xs);
  law_dims b b' :
    same_frame b b' → ax_lines ax b' = ax_lines ax b ∧ ax_len ax b' = ax_len ax b;
  law_cell b b' k j : board b' = board b → ax_cell ax b' k j = ax_cell ax b k j;
  law_board_ok b : board_ok b ↔ shape_ok b ∧ poss_ok ax b ∧ poss_ok other b;
  law_other_dims b b' :
    same_frame b b' →
    ax_lines other b' = ax_lines other b ∧ ax_len other b' = ax_len other b;
}.

(** The board before and after a pass over [ax]. *)
Record pass_rel (ax other : axis) (b b' : PicrossBoard) : Prop := {
  pass_frame : same_frame b b';
  pass_shape : shape_ok b';
  pass_poss_ok : poss_ok ax b';
  pass_other : ax_poss other b' = ax_poss other b;
  pass_lines k :
    (k < ax_lines ax b)%nat →
    ∃ nums X nums' Y,
      ax_get ax b k = Ok nums ∧ ax_poss ax b !! k = Some X ∧
      ax_get ax b' k = Ok nums' ∧ ax_poss ax b' !! k = Some Y ∧
      line_step nums X nums' Y;
}.

(** The invariant of the loop of a pass started on [b], once the lines
    below [i] are done. *)
Definition pass_inv (ax other : axis) (b : PicrossBoard) (i : nat) (s : PicrossBoard) : Prop :=
  same_frame b s ∧ shape_ok s ∧ poss_ok ax s ∧
  ax_poss other s = ax_poss other b ∧
  (∀ k, (k < i)%nat →
        ∃ nums X nums' Y,
          ax_get ax b k = Ok nums ∧ ax_poss ax b !! k = Some X ∧
          (∀ j, nums' !! j = ax_cell ax s k j) ∧ ax_poss ax s !! k = Some Y ∧
          line_step nums X nums' Y) ∧
  (∀ k, (i ≤ k)%nat →
        (∀ j, ax_cell ax s k j = ax_cell ax b k j) ∧
        ax_poss ax s !! k = ax_poss ax b !! k).

(** ** Passes and the loop *)

(** Every cell known in [b] is known in [b']. *)
Definition known_kept (b b' : PicrossBoard) : Prop :=
  ∀ y x c, cell_at b y x = Some (Some c) → ∃ c', cell_at b' y x = Some (Some c').

(** The number of [None] cells of a list of cells. *)
Definition count_unknown (row : list cell) : nat :=
  length (filter (λ c : cell, c = None) row).

(** One run through the body of the [while] loop. *)
Definition cycle (b : PicrossBoard) : result PicrossBoard :=
  b1 ← ruleout_rows b; ruleout_cols b1.

(** How the loop ends when it is started on [b]. *)
Record loop_end (b b' : PicrossBoard) (r : solve_ret) : Prop := {
  end_board_ok : board_ok b';
  end_frame : same_frame b b';
  end_remaining : (remaining_squares b' ≤ remaining_squares b)%nat;
  end_self : r = ReturnSelf ↔ remaining_squares b' = 0%nat;
  end_none :
    r = ReturnNone →
    ∃ b0, cycle b0 = Ok b' ∧ remaining_squares b0 = remaining_squares b';
}.

(** ** Seeding *)

(** [A or B] on cells. *)
Definition merge_cell (r c : cell) : cell :=
  match r with
  | Some a => Some a
  | None => c
  end.

(** A board whose hints the enumerator handles: what [__init__] builds
    from lists of non-negative integers. *)
Record hints_ok (b : PicrossBoard) : Prop := {
  hints_height : height b = length (verlist b);
  hints_width : width b = length (horlist b);
  hints_ver : Forall hint_ok (verlist b);
  hints_hor : Forall hint_ok (horlist b);
}.

(** The candidates of a row hint, and of a column hint, of [b]. *)
Definition row_poss (b : PicrossBoard) (nums : list Z) : gset pattern :=
  get_numsposs nums (Z.of_nat (width b)).

Definition col_poss (b : PicrossBoard) (nums : list Z) : gset pattern :=
  get_numsposs nums (Z.of_nat (height b)).

(** The board [b'] that [initial_possibilities] makes of [b]. *)
Record seeded (b b' : PicrossBoard) : Prop := {
  seed_frame : same_frame b b';
  seed_shape : shape_ok b';
  seed_verposs : verposs b' = row_poss b <$> verlist b;
  seed_horposs : horposs b' = col_poss b <$> horlist b;
  seed_ver_nonempty : Forall (λ X : gset pattern, X ≠ ∅) (verposs b');
  seed_hor_nonempty : Forall (λ X : gset pattern, X ≠ ∅) (horposs b');
  seed_cells y x rnums cnums :
    verlist b !! y = Some rnums → horlist b !! x = Some cnums →
    ∃ rint cint r c,
      poss_intersection (row_poss b rnums) = Ok rint ∧
      poss_intersection (col_poss b cnums) = Ok cint ∧
      rint !! x = Some r ∧ cint !! y = Some c ∧
      cell_at b' y x = Some (merge_cell r c);
}.

(** Some hint of [b] has no placement at all on its line. *)
Definition infeasible (b : PicrossBoard) : Prop :=
  Exists (λ nums, row_poss b nums = ∅) (verlist b) ∨
  Exists (λ nums, col_poss b nums = ∅) (horlist b).

(** The invariant of the first loop of [initial_possibilities], once the
    rows below [i] are seeded. *)
Definition rows_inv (b : PicrossBoard) (i : nat) (s : PicrossBoard) : Prop :=
  same_frame b s ∧ shape_ok s ∧ horposs s = horposs b ∧
  verposs s = row_poss b <$> take i (verlist b) ∧
  Forall (λ X : gset pattern, X ≠ ∅) (verposs s) ∧
  ∀ y rnums, (y < i)%nat → verlist b !! y = Some rnums →
             ∃ rint, poss_intersection (row_poss b rnums) = Ok rint ∧
                     length rint = width b ∧ board s !! y = Some rint.

(** The invariant of its second loop, started on the state [s1] the first
    loop ends in, once the columns below [j] are merged. *)
Definition cols_inv (b s1 : PicrossBoard) (j : nat) (s : PicrossBoard) : Prop :=
  same_frame b s ∧ shape_ok s ∧ verposs s = verposs s1 ∧
  horposs s = col_poss b <$> take j (horlist b) ∧
  Forall (λ X : gset pattern, X ≠ ∅) (horposs s) ∧
  ∀ y x,
    ((j ≤ x)%nat → cell_at s y x = cell_at s1 y x) ∧
    ((x < j)%nat → ∀ cnums, horlist b !! x = Some cnums →
       ∃ cint, poss_intersection (col_poss b cnums) = Ok cint ∧
               length cint = height b ∧
               ∀ r c, cell_at s1 y x = Some r → cint !! y = Some c →
                      cell_at s y x = Some (merge_cell r c)).

(** The local [deg_of_free] of [get_numsposs]. *)
Definition deg_of_free (nums : list Z) (remain_len : Z) : Z :=
  1 + remain_len - py_sum nums - py_len nums.

(** ** Sequences of passes *)

(** [b'] is [b] after one row pass or one column pass. *)
Definition prune_pass (b b' : PicrossBoard) : Prop :=
  ruleout_rows b = Ok b' ∨ ruleout_cols b = Ok b'.

(** Line by line, the candidate sets of [b'] are included in those of [b]. *)
Definition poss_shrunk (b b' : PicrossBoard) : Prop :=
  Forall2 (⊆) (verposs b') (verposs b) ∧ Forall2 (⊆) (horposs b') (horposs b).

(** Every candidate of every row agrees with the known cells of the row;
    the same for the columns. *)
Definition rows_agree (b : PicrossBoard) : Prop :=
  ∀ y nums (X : gset pattern) p,
    board b !! y = Some nums → verposs b !! y = Some X → p ∈ X → agrees p nums.

Definition cols_agree (b : PicrossBoard) : Prop :=
  ∀ x nums (X : gset pattern) p,
    get_col b x = Ok nums → horposs b !! x = Some X → p ∈ X → agrees p nums.

(** The line made of the blocks, each after its gap of zeros. *)
Fixpoint layout (gaps : list nat) (blocks : list Z) : pattern :=
  match gaps, blocks with
  | g :: gaps', n :: blocks' => replicate g "0" ++ str_mul "1" n ++ layout gaps' blocks'
  | _, _ => []
  end.

(** ** Example boards *)

(** The board of the class docstring. *)
Definition ex_docstring : PicrossBoard :=
  PicrossBoard_init [[3]; [1; 2; 1]; [1; 3]] [[3]; [1]; [3]; [2]; [1]; [1]].

(** [board3] of the script: two diagonals fit the hints. *)
Definition ex_ambiguous : PicrossBoard := PicrossBoard_init [[1]; [1]] [[1]; [1]].

(** A row hint that does not fit its line. *)
Definition ex_infeasible : PicrossBoard := PicrossBoard_init [[1]] [[5]].

(** Rows 0 and 2 both fill the middle column, whose hint allows one cell. *)
Definition ex_contradictory : PicrossBoard :=
  PicrossBoard_init [[1]; [1]; [1]] [[2]; [1]; [2]].

(** The second column is full by its own hint and empty in row 1 by the
    hint of that row. *)
Definition ex_disagree : PicrossBoard := PicrossBoard_init [[1]; [2]] [[2]; [0]].

(** The board after [initial_possibilities], where that returns. *)
Definition seeded_of (b : PicrossBoard) : PicrossBoard :=
  match initial_possibilities b with
  | Ok b' => b'
  | Raise _ => b
  end.

#[global] Instance board_ok_dec b : Decision (board_ok b).
Proof. unfold board_ok, shape_ok, poss_ok. apply _. Defined.

#[global] Instance infeasible_dec b : Decision (infeasible b).
Proof. unfold infeasible. apply _. Defined.

(** The board [solve] leaves behind, where it returns. *)
Definition solved_of (b : PicrossBoard) : PicrossBoard :=
  match solve b with
  | Some (Ok (b', _)) => b'
  | _ => b
  end.

(** The docstring board after seeding and one row pass. *)
Definition ex_after_rows : PicrossBoard :=
  match ruleout_rows (seeded_of ex_docstring) with
  | Ok b => b
  | Raise _ => ex_docstring
  end.

(** The docstring board after seeding and one cycle. *)
Definition ex_after_cycle : PicrossBoard :=
  match cycle (seeded_of ex_docstring) with
  | Ok b => b
  | Raise _ => ex_docstring
  end.

(** ** Vocabulary of the further properties *)

(** A hint that has no placement on a line of length [n]. *)
Definition hint_misfit (n : nat) (nums : list Z) : Prop :=
  nums ≠ [0] ∧ deg_of_free nums (Z.of_nat n) < 0.

(** Line [k] of [b'] is what the loop body makes of line [k] of [b]. *)
Definition line_done (ax : axis) (b b' : PicrossBoard) (k : nat) : Prop :=
  ∃ nums X Y line,
    ax_get ax b k = Ok nums ∧ ax_poss ax b !! k = Some X ∧
    ruleout_line nums X = Ok (Y, line) ∧
    ax_poss ax b' !! k = Some Y ∧
    ∀ j, default nums line !! j = ax_cell ax b' k j.

(** Line [k] of the grid [g], [n] cells long. *)
Definition grid_line (g : nat → nat → ascii) (n k : nat) : pattern :=
  g k <$> seq 0 n.

(** The grid [g] is still possible in state [b]: its rows and columns are
    among the candidates and the known cells are cells of [g]. *)
Definition fits (g : nat → nat → ascii) (b : PicrossBoard) : Prop :=
  (∀ y X, verposs b !! y = Some X → grid_line g (width b) y ∈ X) ∧
  (∀ x X, horposs b !! x = Some X → grid_line (λ x y, g y x) (height b) x ∈ X) ∧
  (∀ y x c, cell_at b y x = Some (Some c) → g y x = c).

(** The grid [g] solves the puzzle of [b]: each of its rows and columns is
    a placement of the hint of that line. *)
Definition solution (g : nat → nat → ascii) (b : PicrossBoard) : Prop :=
  Forall (λ yn : nat * list Z, grid_line g (width b) yn.1 ∈ row_poss b yn.2)
         (enumerate (verlist b)) ∧
  Forall (λ xn : nat * list Z,
            grid_line (λ x y, g y x) (height b) xn.1 ∈ col_poss b xn.2)
         (enumerate (horlist b)).

(** Every cell of the array is [None], 0 or 1. *)
Definition cells_binary (b : PicrossBoard) : Prop :=
  Forall (Forall (λ c : cell, c = None ∨ c = Some "0" ∨ c = Some "1")) (board b).

(** The same, read cell by cell. *)
Definition known_binary (b : PicrossBoard) : Prop :=
  ∀ y x c, cell_at b y x = Some (Some c) → c = "0" ∨ c = "1".

(** Every candidate of every line is a string of zeros and ones. *)
Definition poss_binary (Xs : list (gset pattern)) : Prop :=
  Forall (set_Forall binary) Xs.

(** The invariant the passes keep. *)
Definition alphabet_ok (b : PicrossBoard) : Prop :=
  known_binary b ∧ poss_binary (verposs b) ∧ poss_binary (horposs b).

(** The list [combine_known_nums] builds when it does not raise. *)
Definition combined (numsA numsB : list cell) : list cell :=
  imap (λ i A, merge_cell A (default None (numsB !! i))) numsA.

(** Some position of [numsA] is [None] and lies beyond the end of [numsB]. *)
Definition uncovered (numsA numsB : list cell) : Prop :=
  ∃ i, numsA !! i = Some None ∧ (length numsB ≤ i)%nat.

(** Line [k] of [b] is left as it is by the loop body. *)
Definition line_settled (ax : axis) (b : PicrossBoard) (k : nat) : Prop :=
  ∀ nums X, ax_get ax b k = Ok nums → ax_poss ax b !! k = Some X →
            ∃ line, ruleout_line nums X = Ok (X, line) ∧ default nums line = nums.

(** ** Hints, placements and grids *)

(** A hint as a puzzle states it: the single block 0 for a line without
    filled cells, or one or more positive blocks. *)
Definition hint_wf (nums : list Z) : Prop :=
  nums = [0] ∨ (nums ≠ [] ∧ Forall (λ n, 0 < n) nums).

(** The runs of ones a line must show for a hint: none for the hint 0. *)
Definition blocks_of (nums : list Z) : list Z :=
  if decide (nums = [0]) then [] else nums.

(** The grid whose rows are the given strings. *)
Definition grid_of (lines : list pattern) : nat → nat → ascii :=
  λ y x, default "0" (lines !! y ≫= (λ line : pattern, line !! x)).

(** The solution the class docstring shows for its example. *)
Definition ex_docstring_grid : nat → nat → ascii :=
  grid_of [pat "111"; pat "100"; pat "111"; pat "011"; pat "001"; pat "010"].

(** One of the two solutions of [board3]. *)
Definition ex_ambiguous_grid : nat → nat → ascii := grid_of [pat "10"; pat "01"].

(** ** What a pass does to one line *)

(** The line [nums] with candidates [X] becomes [nums'] with candidates
    [Y]: a set of one candidate is kept as it is, any other set keeps the
    candidates that agree with the known cells; the line is overwritten
    with the candidate when one candidate is left, and kept otherwise. *)
Definition pruned_line (nums : list cell) (X : gset pattern)
    (nums' : list cell) (Y : gset pattern) : Prop :=
  (((∃ p, X = {[ p ]}) ∧ Y = X) ∨
   ((¬ ∃ p, X = {[ p ]}) ∧ ∀ p, p ∈ Y ↔ p ∈ X ∧ agrees p nums)) ∧
  ((∃ p, Y = {[ p ]} ∧ nums' = Some <$> p) ∨
   ((¬ ∃ p, Y = {[ p ]}) ∧ nums' = nums)).

(** Every line of [b'] is the line of [b] pruned on its own. *)
Definition pass_exact (ax : axis) (b b' : PicrossBoard) : Prop :=
  ∀ k, (k < ax_lines ax b)%nat →
       ∃ nums X nums' Y,
         ax_get ax b k = Ok nums ∧ ax_poss ax b !! k = Some X ∧
         ax_get ax b' k = Ok nums' ∧ ax_poss ax b' !! k = Some Y ∧
         pruned_line nums X nums' Y.

(** A conversion for the examples: decimal digits, [ValueError] on
    anything else and on the empty string. *)
Definition digit_of (c : ascii) : option Z :=
  let n := Z.of_nat (nat_of_ascii c) - 48 in
  if decide (0 ≤ n ≤ 9) then Some n else None.

Definition ex_int (s : list ascii) : result Z :=
  match s with
  | [] => Raise ValueError
  | _ => foldl (λ acc c, n ← acc; match digit_of c with
                                  | Some d => Ok (10 * n + d)
                                  | None => Raise ValueError
                                  end) (Ok 0) s
  end.

(** The hint strings of the class docstring. *)
Definition ex_hor_strings : list (list ascii) := pat <$> ["3"; "1 2 1"; "1 3"]%string.

Definition ex_ver_strings : list (list ascii) :=
  pat <$> ["3"; "1"; "3"; "2"; "1"; "1"]%string.

(** * Lemmas *)

(** ** The enumerator *)

Lemma py_len_str_mul c n : py_len (str_mul c n) = Z.max 0 n.
Proof. unfold py_len, str_mul. rewrite length_replicate. lia. Qed.

Lemma py_len_app {A} (l k : list A) : py_len (l ++ k) = py_len l + py_len k.
Proof. unfold py_len. rewrite length_app. lia. Qed.

Lemma elem_of_py_range i n : i ∈ py_range n ↔ 0 ≤ i < n.
Proof.
  unfold py_range. rewrite list_elem_of_fmap. split.
  - intros (m & -> & Hm). apply elem_of_seq in Hm. lia.
  - intros Hi. exists (Z.to_nat i). split; [lia|]. apply elem_of_seq. lia.
Qed.

Lemma NoDup_py_range n : NoDup (py_range n).
Proof.
  unfold py_range. apply NoDup_fmap_2; [|apply NoDup_seq].
  intros x y. lia.
Qed.

Lemma get_numsposs_cons n rest remain_len :
  n :: rest ≠ [0] →
  get_numsposs (n :: rest) remain_len =
  foldl (λ acc i, acc ∪ block_at n rest remain_len i) ∅
        (py_range (1 + remain_len - py_sum (n :: rest) - py_len (n :: rest) + 1)).
Proof.
  intros Hne. cbn [get_numsposs]. destruct (decide (n :: rest = [0])) as [|_]; [done|].
  generalize (∅ : gset pattern).
  induction (py_range _) as [|i l IH]; intros X; [done|].
  cbn [foldl]. rewrite <- IH. f_equal.
  unfold block_at. by destruct (decide (1 < py_len (n :: rest))).
Qed.

Lemma elem_of_foldl_union (F : Z → gset pattern) l X p :
  p ∈ foldl (λ acc i, acc ∪ F i) X l ↔ p ∈ X ∨ ∃ i, i ∈ l ∧ p ∈ F i.
Proof.
  revert X. induction l as [|j l IH]; intros X; cbn [foldl].
  - split; [auto|]. intros [?|(i & Hi & _)]; [done|]. by apply elem_of_nil in Hi.
  - rewrite IH, elem_of_union. split.
    + intros [[?|?]|(i & ? & ?)]; [by left|right; exists j|right; exists i];
        split; auto; by constructor.
    + intros [?|(i & Hi & ?)]; [by left; left|].
      apply elem_of_cons in Hi as [->|Hi]; [by left; right|right; eauto].
Qed.

Lemma size_foldl_union (F : Z → gset pattern) l X :
  NoDup l →
  (∀ i, i ∈ l → X ## F i) →
  (∀ i j, i ∈ l → j ∈ l → i ≠ j → F i ## F j) →
  size (foldl (λ acc i, acc ∪ F i) X l) = (size X + sum_list ((λ i, size (F i)) <$> l))%nat.
Proof.
  revert X. induction l as [|j l IH]; intros X Hnd HX HF; cbn [foldl fmap list_fmap sum_list].
  - lia.
  - apply NoDup_cons in Hnd as [Hj Hnd].
    rewrite IH; [|done| |].
    + rewrite size_union; [simpl; lia|]. apply HX. by constructor.
    + intros i Hi. apply disjoint_union_l. split.
      * apply HX. by constructor.
      * apply HF; [by constructor|by constructor|]. intros ->. done.
    + intros i i' Hi Hi'. apply HF; by constructor.
Qed.

Lemma runs_from_zeros m p : runs_from 0 (replicate m "0" ++ p) = runs_from 0 p.
Proof. induction m as [|m IH]; [done|]. cbn. by rewrite IH. Qed.

Lemma runs_from_ones cur m p :
  runs_from cur (replicate m "1" ++ p) = runs_from (cur + m) p.
Proof.
  revert cur. induction m as [|m IH]; intros cur; cbn.
  - by rewrite Nat.add_0_r.
  - rewrite IH. f_equal. lia.
Qed.

Lemma runs_block i n p :
  (0 < n)%nat →
  runs (replicate i "0" ++ replicate n "1" ++ "0" :: p) = n :: runs p.
Proof.
  intros Hn. unfold runs. rewrite runs_from_zeros, runs_from_ones. cbn.
  destruct (decide (n = 0%nat)); [lia|done].
Qed.

Lemma runs_last_block i n j :
  (0 < n)%nat →
  runs (replicate i "0" ++ replicate n "1" ++ replicate j "0") = [n].
Proof.
  intros Hn. unfold runs. rewrite runs_from_zeros, runs_from_ones. cbn.
  destruct j as [|j]; cbn.
  - destruct (decide (n = 0%nat)); [lia|done].
  - destruct (decide (n = 0%nat)); [lia|].
    replace (replicate j "0") with (replicate j "0" ++ []) by apply app_nil_r.
    by rewrite runs_from_zeros.
Qed.

Lemma binary_replicate m c : c = "0" ∨ c = "1" → binary (replicate m c).
Proof. intros Hc. unfold binary. apply Forall_replicate. done. Qed.

Lemma elem_of_block_at_last n remain_len i p :
  p ∈ block_at n [] remain_len i ↔
  p = str_mul "0" i ++ str_mul "1" n
        ++ str_mul "0" (remain_len - py_len (str_mul "0" i ++ str_mul "1" n)).
Proof.
  unfold block_at. destruct (decide _) as [H|_]; [unfold py_len in H; cbn in H; lia|].
  rewrite elem_of_singleton. by rewrite <- (assoc_L (++)).
Qed.

Lemma elem_of_block_at_more n m rest remain_len i p :
  p ∈ block_at n (m :: rest) remain_len i ↔
  ∃ e, p = str_mul "0" i ++ str_mul "1" n ++ "0" :: e ∧
       e ∈ get_numsposs (m :: rest) (remain_len - (Z.max 0 i + Z.max 0 n + 1)).
Proof.
  unfold block_at. destruct (decide _) as [_|H].
  2:{ exfalso. apply H. unfold py_len. cbn [length]. lia. }
  rewrite elem_of_map.
  rewrite !py_len_app, !py_len_str_mul. change (py_len ["0"]) with 1.
  split; intros (e & -> & He); exists e; (split; [|done]);
    by rewrite <- !(assoc_L (++)).
Qed.

Lemma py_len_cons {A} (a : A) l : py_len (a :: l) = 1 + py_len l.
Proof. unfold py_len. cbn [length]. lia. Qed.

Lemma py_len_nonneg {A} (l : list A) : 0 ≤ py_len l.
Proof. unfold py_len. lia. Qed.

Lemma py_sum_cons n l : py_sum (n :: l) = n + py_sum l.
Proof. done. Qed.

Lemma py_sum_nonneg l : Forall (λ n, 0 ≤ n) l → 0 ≤ py_sum l.
Proof. induction 1; [done|]. rewrite py_sum_cons. lia. Qed.

Lemma elem_of_get_numsposs_cons n rest remain_len p :
  n :: rest ≠ [0] →
  p ∈ get_numsposs (n :: rest) remain_len ↔
  ∃ i, 0 ≤ i ≤ 1 + remain_len - py_sum (n :: rest) - py_len (n :: rest)
       ∧ p ∈ block_at n rest remain_len i.
Proof.
  intros Hne. rewrite get_numsposs_cons, elem_of_foldl_union by done.
  split.
  - intros [H|(i & Hi & Hp)]; [by apply not_elem_of_empty in H|].
    apply elem_of_py_range in Hi. exists i. split; [lia|done].
  - intros (i & Hi & Hp). right. exists i. split; [|done].
    apply elem_of_py_range. lia.
Qed.

(** Every enumerated pattern is a string of zeros and ones. *)
Lemma get_numsposs_binary nums remain_len p :
  p ∈ get_numsposs nums remain_len → binary p.
Proof.
  revert remain_len p. induction nums as [|n rest IH]; intros L p Hp.
  - cbn in Hp. apply elem_of_singleton in Hp as ->. constructor.
  - destruct (decide (n :: rest = [0])) as [E|Hne].
    + rewrite E in Hp. cbn in Hp. apply elem_of_singleton in Hp as ->.
      apply binary_replicate. by left.
    + apply elem_of_get_numsposs_cons in Hp as (i & _ & Hp); [|done].
      destruct rest as [|m rest].
      * apply elem_of_block_at_last in Hp as ->.
        repeat apply Forall_app_2; apply binary_replicate; auto.
      * apply elem_of_block_at_more in Hp as (e & -> & He).
        repeat apply Forall_app_2; try (apply binary_replicate; auto).
        constructor; [by left|]. by eapply IH.
Qed.

(** Every enumerated pattern fills the line exactly. *)
Lemma get_numsposs_length nums remain_len p :
  hint_ok nums → (nums = [0] → 0 ≤ remain_len) →
  p ∈ get_numsposs nums remain_len → py_len p = remain_len.
Proof.
  intros [Hne Hpos]. revert remain_len p Hne.
  induction Hpos as [|n rest Hn Hrest IH]; intros L p Hne HL Hp; [done|].
  destruct (decide (n :: rest = [0])) as [E|Hne0].
  - rewrite E in Hp. cbn in Hp. apply elem_of_singleton in Hp as ->.
    rewrite py_len_str_mul. specialize (HL E). lia.
  - apply elem_of_get_numsposs_cons in Hp as (i & Hi & Hp); [|done].
    rewrite py_sum_cons, py_len_cons in Hi.
    destruct rest as [|m rest].
    + apply elem_of_block_at_last in Hp as ->.
      rewrite !py_len_app, !py_len_str_mul.
      assert (n ≠ 0) by congruence.
      change (py_sum []) with 0 in Hi. change (py_len []) with 0 in Hi. lia.
    + apply elem_of_block_at_more in Hp as (e & -> & He).
      apply IH in He; [|done|].
      * rewrite !py_len_app, py_len_cons, !py_len_str_mul. lia.
      * intros E. rewrite E in Hi. rewrite py_sum_cons, py_len_cons in Hi.
        change (py_sum []) with 0 in Hi. change (py_len []) with 0 in Hi. lia.
Qed.

Lemma size_set_map_inj (f : pattern → pattern) `{!Inj (=) (=) f} (X : gset pattern) :
  size (set_map f X : gset pattern) = size X.
Proof.
  unfold set_map. rewrite size_list_to_set.
  - by rewrite length_fmap.
  - apply NoDup_fmap_2; [done|apply NoDup_elements].
Qed.

(** C5. *)
Lemma get_numsposs_runs blocks remain_len p :
  blocks ≠ [] → Forall (λ n, 0 < n) blocks →
  p ∈ get_numsposs blocks remain_len →
  Z.of_nat <$> runs p = blocks.
Proof.
  intros Hne Hpos. revert remain_len p Hne.
  induction Hpos as [|n rest Hn Hrest IH]; intros L p Hne Hp; [done|]. clear Hne.
  assert (n :: rest ≠ [0]) as Hne0 by (intros [= -> _]; lia).
  apply elem_of_get_numsposs_cons in Hp as (i & Hi & Hp); [|done].
  destruct rest as [|m rest].
  - apply elem_of_block_at_last in Hp as ->.
    unfold str_mul. rewrite runs_last_block by lia. cbn. f_equal. lia.
  - apply elem_of_block_at_more in Hp as (e & -> & He).
    unfold str_mul. rewrite runs_block by lia. cbn. f_equal; [lia|].
    by eapply IH.
Qed.

Lemma block_at_prefix n rest remain_len i p :
  p ∈ block_at n rest remain_len i →
  ∃ tail, p = str_mul "0" i ++ str_mul "1" n ++ tail.
Proof.
  destruct rest as [|m rest].
  - intros ->%elem_of_block_at_last. eauto.
  - intros (e & -> & _)%elem_of_block_at_more. eauto.
Qed.

Lemma block_at_disjoint n rest remain_len i j :
  0 < n → 0 ≤ i → 0 ≤ j → i ≠ j →
  block_at n rest remain_len i ## block_at n rest remain_len j.
Proof.
  assert (∀ i j p, 0 < n → 0 ≤ i < j →
            p ∈ block_at n rest remain_len i → p ∈ block_at n rest remain_len j → False)
    as Hlt.
  { clear i j. intros i j p Hn Hij (t & ->)%block_at_prefix (t' & E)%block_at_prefix.
    apply (f_equal (λ l, l !! Z.to_nat i)) in E. unfold str_mul in E.
    rewrite lookup_app_r in E by (rewrite length_replicate; lia).
    rewrite length_replicate, Nat.sub_diag in E.
    rewrite lookup_app_l in E by (rewrite length_replicate; lia).
    rewrite lookup_replicate_2 in E by lia.
    rewrite lookup_app_l in E by (rewrite length_replicate; lia).
    rewrite lookup_replicate_2 in E by lia. done. }
  intros Hn Hi Hj Hij. apply elem_of_disjoint. intros p Hp Hq.
  destruct (Z.lt_trichotomy i j) as [?|[?|?]]; [|done|].
  - eapply (Hlt i j); eauto with lia.
  - eapply (Hlt j i); eauto with lia.
Qed.

Lemma binom_1 n : binom n 1 = n.
Proof. induction n as [|n IH]; [done|]. cbn. rewrite IH. destruct n; cbn; lia. Qed.

Lemma binom_lt n k : (n < k)%nat → binom n k = 0%nat.
Proof.
  revert k. induction n as [|n IH]; intros [|k] ?; cbn; try lia.
  rewrite !IH by lia. done.
Qed.

Lemma binom_diag n : binom n n = 1%nat.
Proof. induction n as [|n IH]; [done|]. cbn. rewrite IH, binom_lt by lia. done. Qed.

Lemma binom_succ n k : binom (S n) (S k) = (binom n k + binom n (S k))%nat.
Proof. done. Qed.

(** [binom n k] is the binomial coefficient. *)
Lemma binom_fact n k : (k ≤ n)%nat → (binom n k * (fact k * fact (n - k)) = fact n)%nat.
Proof.
  revert k. induction n as [|n IH]; intros k Hk.
  - replace k with 0%nat by lia. done.
  - destruct k as [|k].
    + cbn [binom]. rewrite Nat.sub_0_r. change (fact 0) with 1%nat.
      by rewrite !Nat.mul_1_l.
    + cbn [binom]. destruct (decide (k = n)) as [->|Hne].
      * rewrite (binom_lt n (S n)) by lia. specialize (IH n ltac:(lia)).
        rewrite Nat.sub_diag in *. change (fact 0) with 1%nat in *.
        change (fact (S n)) with (S n * fact n)%nat. nia.
      * pose proof (IH k ltac:(lia)) as IH1. pose proof (IH (S k) ltac:(lia)) as IH2.
        replace (S n - S k)%nat with (n - k)%nat by lia.
        replace (n - k)%nat with (S (n - S k)) in * by lia.
        change (fact (S n)) with (S n * fact n)%nat.
        change (fact (S k)) with (S k * fact k)%nat in *.
        change (fact (S (n - S k))) with (S (n - S k) * fact (n - S k))%nat in *.
        assert (S n = S k + S (n - S k))%nat as -> by lia.
        nia.
Qed.

(** Summing a diagonal of the triangle. *)
Lemma binom_diagonal_sum k f :
  sum_list ((λ i, binom (f - i + k) k) <$> seq 0 (S f)) = binom (f + S k) (S k).
Proof.
  induction f as [|f IH].
  - cbn [seq fmap list_fmap sum_list sum_list_with]. unfold id.
    rewrite Nat.add_0_r. replace (0 - 0 + k)%nat with k by lia.
    rewrite binom_diag. replace (0 + S k)%nat with (S k) by lia.
    by rewrite binom_diag.
  - change (seq 0 (S (S f))) with (0%nat :: seq 1 (S f)).
    rewrite <- fmap_S_seq, fmap_cons, <- list_fmap_compose.
    cbn [sum_list_with]. unfold compose.
    erewrite (list_fmap_ext _ (λ i, binom (f - i + k) k)); [|intros; f_equal; lia].
    rewrite IH. unfold id.
    replace (S f - 0 + k)%nat with (f + S k)%nat by lia.
    replace (S f + S k)%nat with (S (f + S k)) by lia.
    by rewrite binom_succ.
Qed.

Lemma size_block_at_last n remain_len i : size (block_at n [] remain_len i) = 1%nat.
Proof.
  unfold block_at. destruct (decide _) as [H|_]; [unfold py_len in H; cbn in H; lia|].
  apply size_singleton.
Qed.

Lemma size_block_at_more n m rest remain_len i :
  size (block_at n (m :: rest) remain_len i) =
  size (get_numsposs (m :: rest) (remain_len - (Z.max 0 i + Z.max 0 n + 1))).
Proof.
  unfold block_at. destruct (decide _) as [_|H].
  2:{ exfalso. apply H. rewrite !py_len_cons. pose proof (py_len_nonneg rest). lia. }
  rewrite size_set_map_inj by apply _.
  rewrite !py_len_app, !py_len_str_mul. done.
Qed.

Lemma sum_list_fmap_const {A} (l : list A) c :
  sum_list ((λ _, c) <$> l) = (length l * c)%nat.
Proof.
  induction l as [|a l IH]; [done|].
  rewrite fmap_cons. cbn [sum_list_with]. rewrite IH. unfold id. cbn [length]. lia.
Qed.

Lemma size_get_numsposs blocks remain_len :
  blocks ≠ [] → Forall (λ n, 0 < n) blocks →
  0 ≤ 1 + remain_len - py_sum blocks - py_len blocks →
  size (get_numsposs blocks remain_len) =
  binom (Z.to_nat (1 + remain_len - py_sum blocks - py_len blocks) + length blocks)
        (length blocks).
Proof.
  intros Hne Hpos. revert remain_len Hne.
  induction Hpos as [|n rest Hn Hrest IH]; intros L Hne Hf; [done|]. clear Hne.
  assert (n :: rest ≠ [0]) as Hne0 by (intros [= -> _]; lia).
  rewrite get_numsposs_cons by done.
  rewrite size_foldl_union.
  2:{ apply NoDup_py_range. }
  2:{ intros i _. apply disjoint_empty_l. }
  2:{ intros i j Hi%elem_of_py_range Hj%elem_of_py_range Hij.
      apply block_at_disjoint; lia. }
  rewrite size_empty, Nat.add_0_l.
  set (f := 1 + L - py_sum (n :: rest) - py_len (n :: rest)) in *.
  unfold py_range. replace (Z.to_nat (f + 1)) with (S (Z.to_nat f)) by lia.
  rewrite <- list_fmap_compose.
  destruct rest as [|m rest].
  - erewrite (list_fmap_ext _ (λ _, 1%nat)).
    2:{ intros j x Hx. unfold compose. apply size_block_at_last. }
    rewrite sum_list_fmap_const, length_seq. cbn [length]. rewrite binom_1. lia.
  - erewrite (list_fmap_ext _ (λ j, binom (Z.to_nat f - j + length (m :: rest))
                                        (length (m :: rest)))).
    2:{ intros j x Hx. unfold compose. rewrite size_block_at_more.
        apply lookup_seq in Hx as [-> Hx].
        subst f. rewrite !py_sum_cons, !py_len_cons in *.
        rewrite IH; [|done|lia]. f_equal. lia. }
    rewrite binom_diagonal_sum. done.
Qed.

(** ** The intersector *)

Lemma check_char_spec i char others :
  Forall (λ p : pattern, (i < length p)%nat) others →
  check_char i char others =
  Ok (if decide (agree_at i char others) then Some char else None).
Proof.
  induction 1 as [|p others Hp Hothers IH]; cbn [check_char].
  - destruct (decide (agree_at i char [])) as [|H]; [done|]. destruct H. constructor.
  - apply lookup_lt_is_Some_2 in Hp as [c Hc]. rewrite Hc.
    destruct (decide (char = c)) as [->|Hne].
    + rewrite IH. unfold agree_at.
      destruct (decide (Forall _ others)) as [Ha|Hna];
        destruct (decide (Forall _ (p :: others))) as [Hb|Hnb]; try done.
      * destruct Hnb. by constructor.
      * destruct Hna. by apply Forall_cons in Hb as [_ ?].
    + destruct (decide (agree_at i char (p :: others))) as [Ha|]; [|done].
      apply Forall_cons in Ha as [Ha _]. congruence.
Qed.

Lemma validate_from_spec i chars others :
  Forall (λ p : pattern, length p = (i + length chars)%nat) others →
  validate_from i chars others =
  Ok (imap (λ j char, if decide (agree_at (i + j) char others)
                      then Some char else None) chars).
Proof.
  revert i. induction chars as [|char chars IH]; intros i Hlen; [done|].
  cbn [validate_from imap]. rewrite check_char_spec.
  2:{ eapply Forall_impl; [exact Hlen|]. cbn. intros; lia. }
  cbn. rewrite IH.
  2:{ eapply Forall_impl; [exact Hlen|]. cbn. intros; lia. }
  cbn. rewrite Nat.add_0_r. do 2 f_equal.
  apply imap_ext. intros j c _. unfold compose.
  by replace (i + S j)%nat with (S i + j)%nat by lia.
Qed.

(** What the intersector computes on a non-empty tuple of patterns of one
    length [n]. *)
Lemma intersect_tuple_spec (l : list pattern) (n : nat) :
  l ≠ [] →
  Forall (λ p : pattern, length p = n) l →
  ∃ v, intersect_tuple l = Ok v ∧ length v = n ∧
       (∀ i c, (∀ p, p ∈ l → p !! i = Some c) → v !! i = Some (Some c)) ∧
       (∀ i p q, p ∈ l → q ∈ l → p !! i ≠ q !! i → v !! i = Some None).
Proof.
  intros Hne Hlen. rewrite Forall_forall in Hlen. unfold intersect_tuple.
  destruct l as [|first [|second others]]; [done| |].
  - eexists. split; [done|]. split; [|split].
    + rewrite length_fmap. apply Hlen. by constructor.
    + intros i c Hc. rewrite list_lookup_fmap, (Hc first); [done|by constructor].
    + intros i p q Hp Hq. apply list_elem_of_singleton in Hp, Hq. congruence.
  - set (others' := second :: others) in *.
    rewrite validate_from_spec.
    2:{ apply Forall_forall. intros p Hp. rewrite (Hlen first) by constructor.
        apply Hlen. by constructor. }
    eexists. split; [done|]. split; [|split].
    + rewrite length_imap. apply Hlen. constructor.
    + intros i c Hc. rewrite list_lookup_imap, (Hc first) by constructor.
      cbn. destruct (decide (agree_at _ _ _)) as [|Hn]; [done|]. destruct Hn.
      apply Forall_forall. intros p Hp. apply Hc. by constructor.
    + intros i p q Hp Hq Hpq. rewrite list_lookup_imap.
      assert (i < n)%nat as Hi.
      { destruct (decide (i < n)%nat); [done|]. destruct Hpq.
        rewrite !lookup_ge_None_2; [done| |]; [rewrite (Hlen q)|rewrite (Hlen p)]; auto with lia. }
      destruct (lookup_lt_is_Some_2 first i) as [c Hc].
      { rewrite (Hlen first); [done|constructor]. }
      rewrite Hc. cbn. destruct (decide (agree_at _ _ _)) as [Ha|]; [|done]. destruct Hpq.
      assert (∀ r, r ∈ first :: others' → r !! i = Some c) as Hall.
      { intros r [->|Hr]%elem_of_cons; [done|].
        unfold agree_at in Ha. rewrite Forall_forall in Ha. by apply Ha. }
      by rewrite !Hall.
Qed.

(** The order in which the set is turned into a tuple does not matter. *)
Lemma intersect_tuple_perm (l1 l2 : list pattern) (n : nat) :
  l1 ≡ₚ l2 → l1 ≠ [] → Forall (λ p : pattern, length p = n) l1 →
  intersect_tuple l1 = intersect_tuple l2.
Proof.
  intros Hperm Hne Hlen.
  assert (l2 ≠ []) as Hne2.
  { intros ->. by apply Permutation_nil_r in Hperm. }
  assert (Forall (λ p : pattern, length p = n) l2) as Hlen2 by (by rewrite <- Hperm).
  destruct (intersect_tuple_spec l1 n Hne Hlen) as (v1 & -> & Hl1 & Hsame1 & Hdiff1).
  destruct (intersect_tuple_spec l2 n Hne2 Hlen2) as (v2 & -> & Hl2 & Hsame2 & Hdiff2).
  f_equal. apply list_eq. intros i.
  destruct (decide (i < n)%nat) as [Hi|Hi].
  2:{ rewrite !lookup_ge_None_2; [done|lia..]. }
  destruct l1 as [|first l1]; [done|].
  destruct (lookup_lt_is_Some_2 first i) as [c Hc].
  { rewrite Forall_forall in Hlen. rewrite (Hlen first); [done|constructor]. }
  destruct (decide (Forall (λ p : pattern, p !! i = Some c) (first :: l1))) as [Hall|Hnot].
  - rewrite Forall_forall in Hall.
    rewrite (Hsame1 i c), (Hsame2 i c); [done| |done].
    intros p Hp. apply Hall. by rewrite Hperm.
  - apply not_Forall_Exists in Hnot; [|apply _].
    apply Exists_exists in Hnot as (p & Hp & Hpc).
    rewrite (Hdiff1 i first p), (Hdiff2 i first p); [done|..]; try congruence;
      try (rewrite <- Hperm); try done; constructor.
Qed.

(** What [poss_intersection] computes on a non-empty set of patterns of
    one length [n]. *)
Lemma poss_intersection_spec (line_poss : gset pattern) (n : nat) :
  line_poss ≠ ∅ →
  set_Forall (λ p, length p = n) line_poss →
  ∃ v, poss_intersection line_poss = Ok v ∧ length v = n ∧
       (∀ i c, (∀ p, p ∈ line_poss → p !! i = Some c) → v !! i = Some (Some c)) ∧
       (∀ i p q, p ∈ line_poss → q ∈ line_poss → p !! i ≠ q !! i →
                 v !! i = Some None).
Proof.
  intros Hne Hlen.
  destruct (intersect_tuple_spec (elements line_poss) n)
    as (v & Hv & Hl & Hsame & Hdiff).
  { intros E. apply Hne. apply leibniz_equiv. by apply elements_empty_inv. }
  { apply Forall_forall. intros p Hp%elem_of_elements. by apply Hlen. }
  exists v. split; [done|]. split; [done|]. split.
  - intros i c Hc. apply Hsame. intros p Hp%elem_of_elements. by apply Hc.
  - intros i p q Hp Hq. apply Hdiff; by apply elem_of_elements.
Qed.

Lemma poss_intersection_empty : poss_intersection ∅ = Raise IndexError.
Proof. unfold poss_intersection. by rewrite elements_empty. Qed.

Lemma poss_intersection_singleton p : poss_intersection {[ p ]} = Ok (Some <$> p).
Proof. unfold poss_intersection. by rewrite elements_singleton. Qed.

(** ** Loops *)

Lemma for_each_ind {A St} (P : nat → St → Prop) (l : list A) (body : St → A → result St) s :
  P 0%nat s →
  (∀ i a s, l !! i = Some a → P i s → ∃ s', body s a = Ok s' ∧ P (S i) s') →
  ∃ s', for_each l body s = Ok s' ∧ P (length l) s'.
Proof.
  revert P s. induction l as [|a l IH]; intros P s H0 Hstep; cbn [for_each].
  - by exists s.
  - destruct (Hstep 0%nat a s) as (s1 & -> & H1); [done..|]. cbn.
    apply (IH (λ i, P (S i))); [done|].
    intros i a' s' Hi. by apply (Hstep (S i)).
Qed.

Lemma for_each_ind_or {A St} (P : nat → St → Prop) (Q : Prop) e (l : list A)
      (body : St → A → result St) s :
  P 0%nat s →
  (∀ i a s, l !! i = Some a → P i s →
            (∃ s', body s a = Ok s' ∧ P (S i) s') ∨ (body s a = Raise e ∧ Q)) →
  (∃ s', for_each l body s = Ok s' ∧ P (length l) s')
  ∨ (for_each l body s = Raise e ∧ Q).
Proof.
  revert P s. induction l as [|a l IH]; intros P s H0 Hstep; cbn [for_each].
  - left. by exists s.
  - destruct (Hstep 0%nat a s) as [(s1 & -> & H1)|[-> HQ]]; [done..| |by right]. cbn.
    apply (IH (λ i, P (S i))); [done|].
    intros i a' s' Hi. by apply (Hstep (S i)).
Qed.

Lemma lookup_enumerate {A} (l : list A) i j a :
  enumerate l !! i = Some (j, a) ↔ j = i ∧ l !! i = Some a.
Proof.
  unfold enumerate. rewrite list_lookup_imap.
  destruct (l !! i) as [x|]; cbn.
  - split; [by intros [= <- <-]|by intros [-> [= ->]]].
  - split; [done|by intros [_ ?]].
Qed.

Lemma length_enumerate {A} (l : list A) : length (enumerate l) = length l.
Proof. apply length_imap. Qed.

(** ** Pruning one line *)

Lemma prune_at_spec (i : nat) (c : ascii) (X : gset pattern) :
  set_Forall (λ p, (i < length p)%nat) X →
  ∃ Y, prune_at i c X = Ok Y ∧ ∀ p, p ∈ Y ↔ p ∈ X ∧ p !! i = Some c.
Proof.
  intros Hlen. unfold prune_at.
  assert (∀ l (Y : gset pattern),
            Forall (λ p : pattern, (i < length p)%nat) l →
            ∃ Y', for_each l
                    (λ (possible : gset pattern) poss,
                       match poss !! i with
                       | None => Raise IndexError
                       | Some ch => if decide (ch ≠ c) then Ok (possible ∖ {[ poss ]})
                                    else Ok possible
                       end) Y = Ok Y'
                  ∧ ∀ p, p ∈ Y' ↔ p ∈ Y ∧ (p ∈ l → p !! i = Some c)) as Hloop.
  { induction l as [|q l IH]; intros Y Hl; cbn [for_each].
    - exists Y. split; [done|]. intros p. split; [|by intros [? _]].
      intros ?. split; [done|]. by intros ?%elem_of_nil.
    - apply Forall_cons in Hl as [Hq Hl].
      apply lookup_lt_is_Some_2 in Hq as [ch Hch]. rewrite Hch.
      destruct (decide (ch ≠ c)) as [Hne|Heq]; cbn.
      + destruct (IH (Y ∖ {[ q ]}) Hl) as (Y' & -> & HY'). exists Y'. split; [done|].
        intros p. rewrite HY', elem_of_difference, elem_of_singleton. split.
        * intros [[? ?] ?]. split; [done|]. intros [->|?]%elem_of_cons; [done|auto].
        * intros [? Hp]. split; [split; [done|]|].
          -- intros ->. specialize (Hp (list_elem_of_here _ _)). congruence.
          -- intros ?. apply Hp. by constructor.
      + apply dec_stable in Heq as ->.
        destruct (IH Y Hl) as (Y' & -> & HY'). exists Y'. split; [done|].
        intros p. rewrite HY'. split.
        * intros [? Hp]. split; [done|]. intros [->|?]%elem_of_cons; [done|auto].
        * intros [? Hp]. split; [done|]. intros ?. apply Hp. by constructor. }
  destruct (Hloop (elements X) X) as (Y & HY & Hiff).
  { apply Forall_forall. intros p Hp%elem_of_elements. by apply Hlen. }
  exists Y. split; [done|]. intros p. rewrite Hiff. split.
  - intros [? Hp]. split; [done|]. apply Hp. by apply elem_of_elements.
  - intros [? ?]. by split.
Qed.

Lemma prune_spec (nums : list cell) (X : gset pattern) :
  set_Forall (λ p, length p = length nums) X →
  ∃ Y, prune nums X = Ok Y ∧ ∀ p, p ∈ Y ↔ p ∈ X ∧ agrees p nums.
Proof.
  intros Hlen. unfold prune.
  destruct (for_each_ind
              (λ k (Y : gset pattern),
                 ∀ p, p ∈ Y ↔ p ∈ X ∧ ∀ i c, (i < k)%nat → nums !! i = Some (Some c) →
                                             p !! i = Some c)
              (enumerate nums)
              (λ (possible : gset pattern) '(i, c),
                 match c with
                 | None => Ok possible
                 | Some c => prune_at i c possible
                 end) X) as (Y & HY & Hiff).
  - intros p. split; [|by intros [? _]]. intros ?. split; [done|]. intros; lia.
  - intros k [j c] Y [-> Hk]%lookup_enumerate HY. destruct c as [c|].
    + destruct (prune_at_spec k c Y) as (Y' & HY' & Hiff).
      { intros p [Hp _]%HY. rewrite (Hlen p Hp). by eapply lookup_lt_Some. }
      exists Y'. split; [done|]. intros p. rewrite Hiff, HY. split.
      * intros [[? Hp] Hpk]. split; [done|]. intros i c' Hi Hc'.
        destruct (decide (i = k)) as [->|]; [congruence|]. apply Hp; [lia|done].
      * intros [? Hp]. split; [split; [done|]|].
        -- intros i c' ? ?. apply Hp; [lia|done].
        -- apply Hp; [lia|done].
    + exists Y. split; [done|]. intros p. rewrite HY. split.
      * intros [? Hp]. split; [done|]. intros i c' Hi Hc'.
        destruct (decide (i = k)) as [->|]; [congruence|]. apply Hp; [lia|done].
      * intros [? Hp]. split; [done|]. intros i c' ? ?. apply Hp; [lia|done].
  - exists Y. split; [done|]. intros p. rewrite Hiff, length_enumerate. split.
    + intros [? Hp]. split; [done|]. intros i c Hc. apply Hp; [|done].
      by eapply lookup_lt_Some.
    + intros [? Hp]. split; [done|]. intros i c _ Hc. by apply Hp.
Qed.

Lemma only_candidate_Some (X : gset pattern) (vals : list cell) :
  only_candidate X = Some vals ↔ ∃ p, X = {[ p ]} ∧ vals = Some <$> p.
Proof.
  unfold only_candidate. split.
  - destruct (elements X) as [|p [|q l]] eqn:E; [done| |done].
    intros [= <-]. exists p. split; [|done].
    apply set_eq. intros x.
    by rewrite <- elem_of_elements, E, list_elem_of_singleton, elem_of_singleton.
  - intros (p & -> & ->). by rewrite elements_singleton.
Qed.

Lemma ruleout_line_spec (nums : list cell) (X : gset pattern) :
  set_Forall (λ p, length p = length nums) X →
  ∃ Y line, ruleout_line nums X = Ok (Y, line) ∧
            line_step nums X (default nums line) Y ∧
            (∀ vals, line = Some vals → length vals = length nums).
Proof.
  intros Hlen. unfold ruleout_line.
  assert (∀ (Y : gset pattern) vals,
            Y ⊆ X → only_candidate Y = Some vals →
            line_step nums X vals Y ∧ length vals = length nums) as Hone.
  { intros Y vals HYX (p & -> & ->)%only_candidate_Some.
    assert (length (Some <$> p) = length nums) as Hl.
    { rewrite length_fmap. apply Hlen. set_solver. }
    split; [|done]. split; [done|done| | |].
    - intros q ->%elem_of_singleton i c. rewrite list_lookup_fmap.
      destruct (p !! i); [by intros [= ->]|done].
    - right. eauto.
    - intros E. exfalso. by apply (non_empty_singleton_L (C:=gset pattern) p). }
  destruct (only_candidate X) as [vals|] eqn:E.
  - exists X, (Some vals). split; [done|]. cbn.
    destruct (Hone X vals) as [? ?]; [done..|]. split; [done|]. by intros ? [= <-].
  - destruct (prune_spec nums X Hlen) as (Y & -> & HY). cbn.
    exists Y, (only_candidate Y). split; [done|].
    assert (Y ⊆ X) as HYX by (intros p [? _]%HY; done).
    destruct (only_candidate Y) as [vals|] eqn:EY; cbn.
    + destruct (Hone Y vals) as [? ?]; [done..|]. split; [done|]. by intros ? [= <-].
    + split; [|done]. split; [done|done| |by left|done].
      intros p [_ ?]%HY. done.
Qed.

(** ** The grid *)

Lemma same_frame_refl b : same_frame b b.
Proof. by split. Qed.

Lemma same_frame_trans b1 b2 b3 : same_frame b1 b2 → same_frame b2 b3 → same_frame b1 b3.
Proof. intros [] []. split; congruence. Qed.

Lemma broadcast_exact n vals : length vals = n → broadcast n vals = Ok vals.
Proof. intros H. unfold broadcast. by destruct (decide _). Qed.

Lemma shape_ok_init horlist verlist : shape_ok (PicrossBoard_init horlist verlist).
Proof.
  split; cbn.
  - apply length_replicate.
  - apply Forall_replicate, length_replicate.
Qed.

Lemma get_row_spec b y :
  shape_ok b → (y < height b)%nat →
  ∃ nums, get_row b y = Ok nums ∧ length nums = width b ∧
          board b !! y = Some nums ∧ ∀ x, nums !! x = cell_at b y x.
Proof.
  intros [Hh Hw] Hy. unfold get_row, index, cell_at.
  destruct (lookup_lt_is_Some_2 (board b) y) as [nums Hnums]; [lia|].
  rewrite Hnums. exists nums. split; [done|]. split; [|done].
  rewrite Forall_forall in Hw. apply Hw. by eapply list_elem_of_lookup_2.
Qed.

Lemma set_row_spec b y vals :
  shape_ok b → (y < height b)%nat → length vals = width b →
  ∃ b', set_row b y vals = Ok b' ∧ shape_ok b' ∧ same_frame b b' ∧
        verposs b' = verposs b ∧ horposs b' = horposs b ∧
        board b' = <[y := vals]> (board b) ∧
        ∀ y' x, cell_at b' y' x = if decide (y' = y) then vals !! x else cell_at b y' x.
Proof.
  intros [Hh Hw] Hy Hlen. unfold set_row.
  destruct (decide (y < height b)%nat); [|lia].
  rewrite broadcast_exact by done. cbn.
  eexists. split; [done|]. split; [|split; [by split|]]; [|do 3 (split; [done|])].
  - split; cbn; [by rewrite length_insert|]. by apply Forall_insert.
  - intros y' x. unfold cell_at. cbn. destruct (decide (y' = y)) as [->|Hne].
    + rewrite list_lookup_insert_eq by lia. done.
    + by rewrite list_lookup_insert_ne.
Qed.

Lemma mapM_column (rows : list (list cell)) (x w : nat) :
  Forall (λ row, length row = w) rows → (x < w)%nat →
  ∃ col, mapM (λ row : list cell, row !! x) rows = Some col ∧
         length col = length rows ∧
         ∀ y, col !! y = rows !! y ≫= (λ row : list cell, row !! x).
Proof.
  intros Hrows Hx. induction Hrows as [|row rows Hrow Hrows (col & Hcol & Hlen & Hlook)].
  - exists []. by split; [|split; [|intros []]].
  - destruct (lookup_lt_is_Some_2 row x) as [v Hv]; [lia|].
    exists (v :: col). cbn. rewrite Hv. cbn. rewrite Hcol. cbn.
    split; [done|]. split; [by rewrite Hlen|]. intros [|y]; cbn; [done|apply Hlook].
Qed.

Lemma get_col_spec b x :
  shape_ok b → (x < width b)%nat →
  ∃ nums, get_col b x = Ok nums ∧ length nums = height b ∧
          ∀ y, nums !! y = cell_at b y x.
Proof.
  intros [Hh Hw] Hx. unfold get_col.
  destruct (mapM_column (board b) x (width b)) as (col & -> & Hlen & Hlook); [done..|].
  exists col. split; [done|]. split; [lia|]. done.
Qed.

Lemma set_col_spec b x vals :
  shape_ok b → (x < width b)%nat → length vals = height b →
  ∃ b', set_col b x vals = Ok b' ∧ shape_ok b' ∧ same_frame b b' ∧
        verposs b' = verposs b ∧ horposs b' = horposs b ∧
        ∀ y x', cell_at b' y x' = if decide (x' = x) then vals !! y else cell_at b y x'.
Proof.
  intros [Hh Hw] Hx Hlen. unfold set_col.
  destruct (decide (x < width b)%nat); [|lia].
  rewrite broadcast_exact by done. cbn.
  eexists. split; [done|]. split; [|split; [by split|]]; [|do 2 (split; [done|])].
  - split; cbn.
    + rewrite length_zip_with. lia.
    + apply Forall_forall. intros row' (i & Hi)%list_elem_of_lookup_1.
      rewrite lookup_zip_with in Hi.
      destruct (board b !! i) as [row|] eqn:Hrow; [|done]. cbn in Hi.
      destruct (vals !! i) as [v|]; [|done]. cbn in Hi. injection Hi as <-.
      rewrite length_insert. rewrite Forall_forall in Hw. apply Hw.
      by eapply list_elem_of_lookup_2.
  - intros y x'. unfold cell_at. cbn. rewrite lookup_zip_with.
    destruct (board b !! y) as [row|] eqn:Hrow; cbn.
    + destruct (lookup_lt_is_Some_2 vals y) as [v Hv].
      { rewrite Hlen, <- Hh. by eapply lookup_lt_Some. }
      rewrite Hv. cbn. destruct (decide (x' = x)) as [->|Hne].
      * rewrite list_lookup_insert_eq; [done|].
        rewrite Forall_forall in Hw. rewrite (Hw row); [done|].
        by eapply list_elem_of_lookup_2.
      * by rewrite list_lookup_insert_ne.
    + destruct (decide (x' = x)) as [->|Hne]; [|done].
      symmetry. apply lookup_ge_None_2. apply lookup_ge_None_1 in Hrow. lia.
Qed.

Lemma ruleout_rows_eq b : ruleout_rows b = ruleout rows b.
Proof. reflexivity. Qed.

Lemma ruleout_cols_eq b : ruleout_cols b = ruleout cols b.
Proof. reflexivity. Qed.

Lemma shape_ok_frame b b' :
  board b' = board b → same_frame b b' → shape_ok b → shape_ok b'.
Proof.
  intros Hb [_ _ Hh Hw] [? ?]. unfold shape_ok. by rewrite Hb, Hh, Hw.
Qed.

Lemma rows_laws : axis_laws rows cols.
Proof.
  split; cbn.
  - intros b k Hs Hk. destruct (get_row_spec b k Hs Hk) as (nums & ? & ? & _ & ?). eauto.
  - intros b k vals Hs Hk Hl.
    destruct (set_row_spec b k vals Hs Hk Hl) as (b' & ? & ? & ? & ? & ? & _ & ?).
    exists b'. eauto 10.
  - intros b Xs. by repeat split.
  - intros b b' []. by split.
  - intros b b' k j Hb. unfold cell_at. by rewrite Hb.
  - intros b. reflexivity.
  - intros b b' []. by split.
Qed.

Lemma cols_laws : axis_laws cols rows.
Proof.
  split; cbn.
  - intros b k Hs Hk. destruct (get_col_spec b k Hs Hk) as (nums & ? & ? & ?). eauto.
  - intros b k vals Hs Hk Hl.
    destruct (set_col_spec b k vals Hs Hk Hl) as (b' & ? & ? & ? & ? & ? & ?).
    exists b'. eauto 10.
  - intros b Xs. by repeat split.
  - intros b b' []. by split.
  - intros b b' k j Hb. unfold cell_at. by rewrite Hb.
  - intros b. unfold board_ok. tauto.
  - intros b b' []. by split.
Qed.

(** ** One pass over an axis *)

Section pass.
Context (ax other : axis) (laws : axis_laws ax other).

Lemma get_unique b k nums :
  shape_ok b → (k < ax_lines ax b)%nat →
  (∀ j, nums !! j = ax_cell ax b k j) → ax_get ax b k = Ok nums.
Proof.
  intros Hs Hk Hcells.
  destruct (law_get _ _ laws b k Hs Hk) as (nums0 & -> & _ & Hcells0).
  f_equal. apply list_eq. intros j. by rewrite Hcells, Hcells0.
Qed.

Lemma ruleout_step b i s :
  shape_ok b → (i < ax_lines ax b)%nat → pass_inv ax other b i s →
  ∃ s',
    (nums ← ax_get ax s i;
     possible ← index (ax_poss ax s) i;
     '(possible, line) ← ruleout_line nums possible;
     let s := ax_set_poss ax s (<[i := possible]> (ax_poss ax s)) in
     match line with
     | Some vals => ax_set ax s i vals
     | None => Ok s
     end) = Ok s' ∧ pass_inv ax other b (S i) s'.
Proof.
  intros Hb Hi (Hfr & Hs & [Hpl Hpf] & Hoth & Hdone & Htodo).
  destruct (law_dims _ _ laws b s Hfr) as [Hlines Hlen].
  destruct (law_get _ _ laws s i Hs) as (nums & Hget & Hnl & Hcells); [lia|].
  rewrite Hget. cbn.
  destruct (lookup_lt_is_Some_2 (ax_poss ax s) i) as [X HX]; [lia|].
  unfold index. rewrite HX. cbn.
  destruct (ruleout_line_spec nums X) as (Y & line & -> & Hstep & Hvals).
  { rewrite Hnl. rewrite Forall_forall in Hpf. apply Hpf.
    by eapply list_elem_of_lookup_2. }
  cbn.
  set (s1 := ax_set_poss ax s (<[i:=Y]> (ax_poss ax s))).
  destruct (law_set_poss _ _ laws s (<[i:=Y]> (ax_poss ax s)))
    as (Hp1 & Ho1 & Hb1 & Hf1). fold s1 in Hp1, Ho1, Hb1, Hf1.
  assert (shape_ok s1) as Hs1 by (by apply (shape_ok_frame s)).
  destruct (law_dims _ _ laws s s1 Hf1) as [Hlines1 Hlen1].
  assert (ax_get ax b i = Ok nums) as Hgetb.
  { apply get_unique; [done..|]. intros j. rewrite Hcells.
    by apply (Htodo i). }
  assert (ax_poss ax b !! i = Some X) as HXb.
  { rewrite <- HX. symmetry. by apply (Htodo i). }
  assert (Forall (set_Forall (λ p : pattern, length p = ax_len ax s))
                 (<[i:=Y]> (ax_poss ax s))) as Hpf1.
  { apply Forall_insert; [done|]. intros p Hp.
    rewrite Forall_forall in Hpf. apply (Hpf X); [by eapply list_elem_of_lookup_2|].
    by apply (step_subseteq _ _ _ _ Hstep). }
  assert (∃ s',
             match line with
             | Some vals => ax_set ax s1 i vals
             | None => Ok s1
             end = Ok s' ∧ shape_ok s' ∧ same_frame s s' ∧
             ax_poss ax s' = <[i:=Y]> (ax_poss ax s) ∧
             ax_poss other s' = ax_poss other s ∧
             ∀ k j, ax_cell ax s' k j =
                    if decide (k = i) then default nums line !! j
                    else ax_cell ax s k j) as (s' & -> & Hs' & Hf' & Hp' & Ho' & Hc').
  { destruct line as [vals|]; cbn.
    - destruct (law_set _ _ laws s1 i vals) as (s' & -> & ? & ? & Hp & Ho & Hc);
        [done|lia|rewrite Hlen1, <- Hnl; by apply Hvals|].
      exists s'. split; [done|]. split; [done|].
      split; [by eapply same_frame_trans|].
      split; [by rewrite Hp|]. split; [by rewrite Ho|].
      intros k j. rewrite Hc. destruct (decide (k = i)); [done|].
      by apply (law_cell _ _ laws).
    - exists s1. split; [done|]. do 4 (split; [done|]).
      intros k j. rewrite (law_cell _ _ laws s s1) by done.
      destruct (decide (k = i)) as [->|]; [|done]. by rewrite Hcells. }
  exists s'. split; [done|].
  destruct (law_dims _ _ laws s s' Hf') as [Hlines' Hlen'].
  split; [by eapply same_frame_trans|]. split; [done|].
  split; [|split; [congruence|split]].
  - split; rewrite Hp'; [rewrite length_insert; lia|by rewrite Hlen'].
  - intros k Hk. destruct (decide (k = i)) as [->|Hne].
    + exists nums, X, (default nums line), Y.
      split; [done|]. split; [done|]. split; [|split; [|done]].
      * intros j. rewrite Hc'. by destruct (decide (i = i)).
      * rewrite Hp'. apply list_lookup_insert_eq. lia.
    + destruct (Hdone k) as (n0 & X0 & n0' & Y0 & ? & ? & Hc0 & HY0 & ?); [lia|].
      exists n0, X0, n0', Y0. split; [done|]. split; [done|].
      split; [|split; [|done]].
      * intros j. rewrite Hc'. destruct (decide (k = i)); [done|]. apply Hc0.
      * rewrite Hp'. by rewrite list_lookup_insert_ne.
  - intros k Hk. destruct (Htodo k) as [Hck Hpk]; [lia|]. split.
    + intros j. rewrite Hc'. destruct (decide (k = i)); [lia|]. apply Hck.
    + rewrite Hp', list_lookup_insert_ne by lia. done.
Qed.

Lemma ruleout_spec b :
  shape_ok b → poss_ok ax b → ∃ b', ruleout ax b = Ok b' ∧ pass_rel ax other b b'.
Proof.
  intros Hs Hp. unfold ruleout.
  destruct (for_each_ind (pass_inv ax other b) (seq 0 (ax_lines ax b))
              (λ b k,
                 nums ← ax_get ax b k;
                 possible ← index (ax_poss ax b) k;
                 '(possible, line) ← ruleout_line nums possible;
                 let b := ax_set_poss ax b (<[k := possible]> (ax_poss ax b)) in
                 match line with
                 | Some vals => ax_set ax b k vals
                 | None => Ok b
                 end) b) as (b' & Hb' & Hinv).
  - split; [apply same_frame_refl|]. do 3 (split; [done|]). split; [intros; lia|done].
  - intros i k s [-> Hi]%lookup_seq Hinv. cbn. by apply ruleout_step.
  - exists b'. split; [done|]. rewrite length_seq in Hinv.
    destruct Hinv as (Hfr & Hs' & Hp' & Hoth & Hdone & _).
    split; [done..|]. intros k Hk.
    destruct (Hdone k Hk) as (nums & X & nums' & Y & ? & ? & Hc & ? & ?).
    exists nums, X, nums', Y. split; [done|]. split; [done|].
    split; [|done]. apply get_unique; [done| |done].
    destruct (law_dims _ _ laws b b' Hfr) as [-> _]. done.
Qed.
End pass.

(** ** Known cells stay known *)

Lemma count_unknown_le (row row' : list cell) :
  length row' = length row →
  (∀ x c, row !! x = Some (Some c) → ∃ c', row' !! x = Some (Some c')) →
  (count_unknown row' ≤ count_unknown row)%nat.
Proof.
  unfold count_unknown. revert row'.
  induction row as [|v row IH]; intros [|v' row'] Hlen Hk; try done.
  rewrite !filter_cons. cbn in Hlen.
  specialize (IH row' ltac:(lia) (λ x c, Hk (S x) c)).
  destruct (decide (v' = None)) as [->|Hv'], (decide (v = None)) as [->|Hv];
    cbn [length]; try lia.
  destruct v as [c|]; [|done]. destruct (Hk 0%nat c) as [c' Hc']; [done|]. done.
Qed.

Lemma remaining_le (l l' : list (list cell)) :
  Forall2 (λ row row' : list cell, length row' = length row) l l' →
  (∀ y x c, l !! y ≫= (λ row : list cell, row !! x) = Some (Some c) →
            ∃ c', l' !! y ≫= (λ row : list cell, row !! x) = Some (Some c')) →
  (count_unknown (concat l') ≤ count_unknown (concat l))%nat.
Proof.
  unfold count_unknown. induction 1 as [|row row' l l' Hrow Hl IH]; intros Hk; [done|].
  cbn [concat]. rewrite !filter_app, !length_app.
  pose proof (count_unknown_le row row' Hrow (λ x c, Hk 0%nat x c)) as Hr.
  specialize (IH (λ y x c, Hk (S y) x c)). unfold count_unknown in Hr. lia.
Qed.

Lemma remaining_squares_le b b' :
  shape_ok b → shape_ok b' → same_frame b b' → known_kept b b' →
  (remaining_squares b' ≤ remaining_squares b)%nat.
Proof.
  intros [Hh Hw] [Hh' Hw'] [_ _ Eh Ew] Hk. apply remaining_le; [|apply Hk].
  apply Forall2_same_length_lookup_2; [lia|].
  intros y row row' Hrow Hrow'. rewrite Forall_forall in Hw, Hw'.
  rewrite (Hw row), (Hw' row'); [done|by eapply list_elem_of_lookup_2..].
Qed.

Lemma length_concat_rows (l : list (list cell)) w :
  Forall (λ row, length row = w) l → length (concat l) = (length l * w)%nat.
Proof. induction 1 as [|row l Hrow _ IH]; [done|]. cbn. rewrite length_app. lia. Qed.

(** There are never more unknown cells than cells. *)
Lemma remaining_squares_bound b :
  shape_ok b → (remaining_squares b ≤ height b * width b)%nat.
Proof.
  intros [Hh Hw]. unfold remaining_squares.
  etrans; [apply length_filter|]. by rewrite (length_concat_rows _ (width b)), Hh.
Qed.

Section pass_facts.
Context (ax other : axis) (laws : axis_laws ax other).
Context (cell_range : ∀ b k j v, shape_ok b → ax_cell ax b k j = Some v →
                                 (k < ax_lines ax b)%nat).

Lemma pass_rel_known b b' k j c :
  shape_ok b → pass_rel ax other b b' →
  ax_cell ax b k j = Some (Some c) → ∃ c', ax_cell ax b' k j = Some (Some c').
Proof.
  intros Hs Hpass Hc.
  assert (k < ax_lines ax b)%nat as Hk by (by eapply cell_range).
  destruct (pass_lines _ _ _ _ Hpass k Hk) as (nums & X & nums' & Y & Hg & _ & Hg' & _ & Hstep).
  destruct (law_get _ _ laws b k Hs Hk) as (n0 & Hn0 & _ & Hcells).
  rewrite Hg in Hn0. injection Hn0 as <-.
  destruct (law_dims _ _ laws b b' (pass_frame _ _ _ _ Hpass)) as [Hl _].
  destruct (law_get _ _ laws b' k (pass_shape _ _ _ _ Hpass)) as (n1 & Hn1 & _ & Hcells');
    [lia|].
  rewrite Hg' in Hn1. injection Hn1 as <-.
  rewrite <- Hcells in Hc. rewrite <- Hcells'.
  assert (j < length nums')%nat as Hj.
  { rewrite (step_length _ _ _ _ Hstep). by eapply lookup_lt_Some. }
  pose proof (step_cells _ _ _ _ Hstep) as [E|(p & _ & E)]; [rewrite E; eauto|].
  rewrite E in Hj |- *. rewrite length_fmap in Hj. rewrite list_lookup_fmap.
  destruct (lookup_lt_is_Some_2 p j Hj) as [c' ->]. eauto.
Qed.

Lemma pass_rel_board_ok b b' : board_ok b → pass_rel ax other b b' → board_ok b'.
Proof.
  intros (Hs & Hp & [Hol Hof])%(law_board_ok _ _ laws) Hpass.
  apply (law_board_ok _ _ laws).
  split; [apply (pass_shape _ _ _ _ Hpass)|]. split; [apply (pass_poss_ok _ _ _ _ Hpass)|].
  destruct (law_other_dims _ _ laws b b' (pass_frame _ _ _ _ Hpass)) as [El En].
  split; rewrite (pass_other _ _ _ _ Hpass); [lia|by rewrite En].
Qed.

Lemma pass_rel_shrinks b b' :
  poss_ok ax b → pass_rel ax other b b' →
  Forall2 (⊆) (ax_poss ax b') (ax_poss ax b).
Proof.
  intros [Hl _] Hpass. destruct (pass_poss_ok _ _ _ _ Hpass) as [Hl' _].
  destruct (law_dims _ _ laws b b' (pass_frame _ _ _ _ Hpass)) as [El _].
  apply Forall2_same_length_lookup_2; [lia|].
  intros k Y X HY HX.
  destruct (pass_lines _ _ _ _ Hpass k) as (n0 & X0 & n1 & Y0 & _ & HX0 & _ & HY0 & Hstep).
  { rewrite <- Hl. by eapply lookup_lt_Some. }
  rewrite HX in HX0. rewrite HY in HY0. injection HX0 as <-. injection HY0 as <-.
  apply (step_subseteq _ _ _ _ Hstep).
Qed.
End pass_facts.

(** ** The row pass and the column pass *)

Lemma rows_cell_range b k j v :
  shape_ok b → ax_cell rows b k j = Some v → (k < ax_lines rows b)%nat.
Proof.
  intros [Hh _]. cbn. unfold cell_at. intros Hc.
  destruct (board b !! k) as [row|] eqn:E; [|done].
  rewrite <- Hh. by eapply lookup_lt_Some.
Qed.

Lemma cols_cell_range b k j v :
  shape_ok b → ax_cell cols b k j = Some v → (k < ax_lines cols b)%nat.
Proof.
  intros [_ Hw]. cbn. unfold cell_at. intros Hc.
  destruct (board b !! j) as [row|] eqn:E; [|done]. cbn in Hc.
  rewrite Forall_forall in Hw. rewrite <- (Hw row) by (by eapply list_elem_of_lookup_2).
  by eapply lookup_lt_Some.
Qed.

Lemma ruleout_rows_spec b :
  board_ok b →
  ∃ b', ruleout_rows b = Ok b' ∧ pass_rel rows cols b b' ∧ board_ok b' ∧
        (remaining_squares b' ≤ remaining_squares b)%nat.
Proof.
  intros Hok. pose proof Hok as (Hs & Hr & Hc).
  destruct (ruleout_spec rows cols rows_laws b Hs Hr) as (b' & Hb' & Hpass).
  exists b'. split; [done|]. split; [done|].
  split; [by eapply (pass_rel_board_ok rows cols rows_laws)|].
  apply remaining_squares_le; [done|apply Hpass..|].
  intros y x c. by apply (pass_rel_known rows cols rows_laws rows_cell_range).
Qed.

Lemma ruleout_cols_spec b :
  board_ok b →
  ∃ b', ruleout_cols b = Ok b' ∧ pass_rel cols rows b b' ∧ board_ok b' ∧
        (remaining_squares b' ≤ remaining_squares b)%nat.
Proof.
  intros Hok. pose proof Hok as (Hs & Hr & Hc).
  destruct (ruleout_spec cols rows cols_laws b Hs Hc) as (b' & Hb' & Hpass).
  exists b'. split; [done|]. split; [done|].
  split; [by eapply (pass_rel_board_ok cols rows cols_laws)|].
  apply remaining_squares_le; [done|apply Hpass..|].
  intros y x c. by apply (pass_rel_known cols rows cols_laws cols_cell_range b b' x y).
Qed.

(** ** The loop *)

Lemma cycle_spec b :
  board_ok b →
  ∃ b', cycle b = Ok b' ∧ board_ok b' ∧ same_frame b b' ∧
        (remaining_squares b' ≤ remaining_squares b)%nat.
Proof.
  intros Hok. unfold cycle.
  destruct (ruleout_rows_spec b Hok) as (b1 & -> & Hp1 & Hok1 & Hle1). cbn.
  destruct (ruleout_cols_spec b1 Hok1) as (b2 & -> & Hp2 & Hok2 & Hle2).
  exists b2. split; [done|]. split; [done|]. split; [|lia].
  eapply same_frame_trans; [apply Hp1|apply Hp2].
Qed.

Lemma solve_loop_unfold cycles b :
  solve_loop cycles b =
  if decide (remaining_squares b = 0%nat) then Some (Ok (b, ReturnSelf))
  else match cycles with
       | O => None
       | S cycles' =>
           match cycle b with
           | Raise e => Some (Raise e)
           | Ok b2 =>
               if decide (remaining_squares b = remaining_squares b2)
               then Some (Ok (b2, ReturnNone))
               else solve_loop cycles' b2
           end
       end.
Proof.
  destruct cycles as [|cycles]; [done|]. cbn [solve_loop]. unfold cycle.
  destruct (decide _); [done|]. by destruct (ruleout_rows b).
Qed.

Lemma solve_loop_spec cycles b :
  board_ok b → (remaining_squares b ≤ cycles)%nat →
  ∃ b' r, solve_loop cycles b = Some (Ok (b', r)) ∧ loop_end b b' r.
Proof.
  revert b. induction cycles as [|cycles IH]; intros b Hok Hfuel;
    rewrite solve_loop_unfold.
  - destruct (decide _) as [E|]; [|lia].
    exists b, ReturnSelf. split; [done|].
    split; [done|apply same_frame_refl|done|done|done].
  - destruct (decide _) as [E|Hne].
    { exists b, ReturnSelf. split; [done|].
      split; [done|apply same_frame_refl|done|done|done]. }
    destruct (cycle_spec b Hok) as (b2 & Hcyc & Hok2 & Hfr & Hle). rewrite Hcyc.
    destruct (decide _) as [E|Hlt].
    + exists b2, ReturnNone. split; [done|].
      split; [done|done|done| |].
      * split; [done|]. intros; lia.
      * intros _. exists b. by split.
    + destruct (IH b2 Hok2) as (b' & r & -> & Hend); [lia|].
      exists b', r. split; [done|]. destruct Hend.
      split; [done| |lia|done|done]. by eapply same_frame_trans.
Qed.

(** A larger allowance of cycles does not change the answer. *)
Lemma solve_loop_more cycles cycles' b r :
  (cycles ≤ cycles')%nat →
  solve_loop cycles b = Some r → solve_loop cycles' b = Some r.
Proof.
  revert cycles' b. induction cycles as [|cycles IH]; intros cycles' b Hle;
    rewrite !solve_loop_unfold.
  - destruct (decide _); [done|]. done.
  - destruct (decide _); [done|].
    destruct cycles' as [|cycles']; [lia|].
    destruct (cycle b) as [b2|e]; [|done].
    destruct (decide _); [done|]. apply IH. lia.
Qed.

(** ** Seeding *)

Lemma combine_from_spec i (numsA numsB : list cell) :
  (i + length numsA ≤ length numsB)%nat →
  combine_from i numsA numsB = Ok (zip_with merge_cell numsA (drop i numsB)).
Proof.
  revert i. induction numsA as [|A numsA IH]; intros i Hlen; [done|].
  cbn [combine_from]. cbn in Hlen.
  destruct (lookup_lt_is_Some_2 numsB i) as [v Hv]; [lia|].
  rewrite Hv, (drop_S _ _ _ Hv), IH by lia.
  by destruct A.
Qed.

Lemma combine_known_nums_spec (numsA numsB : list cell) :
  length numsA = length numsB →
  combine_known_nums numsA numsB = Ok (zip_with merge_cell numsA numsB).
Proof. intros H. unfold combine_known_nums. rewrite combine_from_spec; [done|lia]. Qed.

Lemma poss_intersection_line (nums : list Z) (n : nat) :
  hint_ok nums →
  (poss_intersection (get_numsposs nums (Z.of_nat n)) = Raise IndexError ∧
   get_numsposs nums (Z.of_nat n) = ∅) ∨
  ∃ v, poss_intersection (get_numsposs nums (Z.of_nat n)) = Ok v ∧ length v = n ∧
       get_numsposs nums (Z.of_nat n) ≠ ∅.
Proof.
  intros Hok. destruct (decide (get_numsposs nums (Z.of_nat n) = ∅)) as [E|Hne].
  - left. rewrite E. split; [apply poss_intersection_empty|done].
  - right. destruct (poss_intersection_spec _ n Hne) as (v & ? & ? & _); [|eauto].
    intros p Hp. apply get_numsposs_length in Hp; [|done|lia].
    unfold py_len in Hp. lia.
Qed.

Section seeding.
Context (b : PicrossBoard) (Hshape : shape_ok b) (Hhints : hints_ok b).

Lemma seed_rows_step i nums s :
  verlist b !! i = Some nums → rows_inv b i s →
  (∃ s', (let line_poss := get_numsposs nums (Z.of_nat (width s)) in
          let s := set_verposs s (verposs s ++ [line_poss]) in
          intersection ← poss_intersection line_poss;
          set_row s i intersection) = Ok s' ∧ rows_inv b (S i) s')
  ∨ ((let line_poss := get_numsposs nums (Z.of_nat (width s)) in
      let s := set_verposs s (verposs s ++ [line_poss]) in
      intersection ← poss_intersection line_poss;
      set_row s i intersection) = Raise IndexError ∧ infeasible b).
Proof.
  destruct Hhints as [Hh Hw Hver Hhor].
  intros Hnums (Hfr & Hs & Hhp & Hvp & Hne & Hrows).
  cbn zeta. pose proof Hfr as [_ _ Eh Ew]. rewrite Ew.
  assert (hint_ok nums) as Hok.
  { rewrite Forall_forall in Hver. apply Hver. by eapply list_elem_of_lookup_2. }
  assert (i < height b)%nat as Hi by (rewrite Hh; by eapply lookup_lt_Some).
  destruct (poss_intersection_line nums (width b) Hok)
    as [[E Hempty]|(rint & E & Hlen & Hnonempty)]; rewrite E.
  { right. split; [done|]. left. apply Exists_exists. exists nums.
    split; [by eapply list_elem_of_lookup_2|done]. }
  left. cbn.
  set (s1 := set_verposs s (verposs s ++ [get_numsposs nums (Z.of_nat (width b))])).
  destruct (set_row_spec s1 i rint) as (s2 & -> & Hs2 & Hf2 & Hv2 & Hh2 & Hb2 & _);
    [done|cbn; lia|cbn; lia|].
  exists s2. split; [done|].
  split; [eapply same_frame_trans; [exact Hfr|]; destruct Hf2; by split|].
  split; [done|]. split; [by rewrite Hh2|]. split; [|split].
  - rewrite Hv2. cbn. rewrite Hvp. by erewrite take_S_r, fmap_app.
  - rewrite Hv2. cbn. apply Forall_app. split; [done|]. by repeat constructor.
  - intros y rnums Hy Hr. rewrite Hb2. cbn.
    destruct (decide (y = i)) as [->|Hyi].
    + rewrite Hnums in Hr. injection Hr as <-. exists rint.
      rewrite list_lookup_insert_eq; [done|]. destruct Hs as [-> _]. lia.
    + rewrite list_lookup_insert_ne by done. apply Hrows; [lia|done].
Qed.

Lemma seed_cols_step s1 j nums s :
  horlist b !! j = Some nums → cols_inv b s1 j s →
  (∃ s', (let line_poss := get_numsposs nums (Z.of_nat (height s)) in
          let s := set_horposs s (horposs s ++ [line_poss]) in
          intersection ← poss_intersection line_poss;
          column ← get_col s j;
          merged ← combine_known_nums column intersection;
          set_col s j merged) = Ok s' ∧ cols_inv b s1 (S j) s')
  ∨ ((let line_poss := get_numsposs nums (Z.of_nat (height s)) in
      let s := set_horposs s (horposs s ++ [line_poss]) in
      intersection ← poss_intersection line_poss;
      column ← get_col s j;
      merged ← combine_known_nums column intersection;
      set_col s j merged) = Raise IndexError ∧ infeasible b).
Proof.
  destruct Hhints as [Hh Hw Hver Hhor].
  intros Hnums (Hfr & Hs & Hvp & Hhp & Hne & Hcells).
  cbn zeta. pose proof Hfr as [_ _ Eh Ew]. rewrite Eh.
  assert (hint_ok nums) as Hok.
  { rewrite Forall_forall in Hhor. apply Hhor. by eapply list_elem_of_lookup_2. }
  assert (j < width b)%nat as Hj by (rewrite Hw; by eapply lookup_lt_Some).
  destruct (poss_intersection_line nums (height b) Hok)
    as [[E Hempty]|(cint & E & Hlen & Hnonempty)]; rewrite E.
  { right. split; [done|]. right. apply Exists_exists. exists nums.
    split; [by eapply list_elem_of_lookup_2|done]. }
  left. cbn.
  set (s2 := set_horposs s (horposs s ++ [get_numsposs nums (Z.of_nat (height b))])).
  assert (shape_ok s2) as Hs2 by done.
  destruct (get_col_spec s2 j Hs2) as (column & -> & Hcl & Hcol); [cbn; lia|]. cbn.
  rewrite combine_known_nums_spec by (cbn in Hcl; lia). cbn.
  destruct (set_col_spec s2 j (zip_with merge_cell column cint) Hs2)
    as (s3 & -> & Hs3 & Hf3 & Hv3 & Hh3 & Hc3); [cbn; lia| |].
  { rewrite length_zip_with. cbn in *. lia. }
  exists s3. split; [done|].
  split; [eapply same_frame_trans; [exact Hfr|]; destruct Hf3; by split|].
  split; [done|]. split; [by rewrite Hv3|]. split; [|split].
  - rewrite Hh3. cbn. rewrite Hhp. by erewrite take_S_r, fmap_app.
  - rewrite Hh3. cbn. apply Forall_app. split; [done|]. by repeat constructor.
  - intros y x. rewrite Hc3. change (cell_at s2 y x) with (cell_at s y x).
    destruct (Hcells y x) as [Hge Hlt]. split.
    + intros Hx. destruct (decide (x = j)); [lia|]. apply Hge. lia.
    + intros Hx cnums Hcn. destruct (decide (x = j)) as [->|Hxj].
      * rewrite Hnums in Hcn. injection Hcn as <-. exists cint.
        split; [done|]. split; [done|]. intros r c Hr Hc.
        rewrite lookup_zip_with, Hcol. change (cell_at s2 y j) with (cell_at s y j).
        rewrite (proj1 (Hcells y j)) by lia. rewrite Hr, Hc. done.
      * apply Hlt; [lia|done].
Qed.

Lemma initial_possibilities_spec :
  (∃ b', initial_possibilities b = Ok b' ∧ seeded b b')
  ∨ (initial_possibilities b = Raise IndexError ∧ infeasible b).
Proof.
  unfold initial_possibilities.
  lazymatch goal with
  | |- context [for_each ?l ?body ?s ≫= _] =>
      destruct (for_each_ind_or (rows_inv b) (infeasible b) IndexError l body s)
        as [(s1 & -> & Hinv1)|[-> ?]]
  end; [| | |by right].
  { split; [by split|]. do 3 (split; [done|]). split; [constructor|]. intros; lia. }
  { intros i [k nums] s [-> Hnums]%lookup_enumerate Hinv.
    by apply seed_rows_step. }
  cbn. rewrite length_enumerate in Hinv1.
  destruct Hinv1 as (Hfr1 & Hs1 & Hhp1 & Hvp1 & Hne1 & Hrows).
  pose proof Hfr1 as [Ev Eh _ _]. rewrite Eh.
  lazymatch goal with
  | |- context [for_each ?l ?body ?s] =>
      destruct (for_each_ind_or (cols_inv b s1) (infeasible b) IndexError l body s)
        as [(s2 & -> & Hinv2)|[-> ?]]
  end; [| | |by right].
  { split; [by destruct Hfr1; split|]. do 3 (split; [done|]). split; [constructor|].
    intros y x. split; [done|]. intros; lia. }
  { intros j [k nums] s [-> Hnums]%lookup_enumerate Hinv.
    by apply seed_cols_step. }
  left. exists s2. split; [done|]. rewrite length_enumerate in Hinv2.
  destruct Hinv2 as (Hfr2 & Hs2 & Hvp2 & Hhp2 & Hne2 & Hcells).
  split; [done|done| | | | |].
  - by rewrite Hvp2, Hvp1, firstn_all.
  - by rewrite Hhp2, firstn_all.
  - by rewrite Hvp2.
  - done.
  - intros y x rnums cnums Hr Hc.
    destruct (Hrows y rnums) as (rint & Hrint & Hrl & Hrow); [by eapply lookup_lt_Some|done|].
    destruct (proj2 (Hcells y x)) with (cnums := cnums) as (cint & Hcint & Hcl & Hcell);
      [by eapply lookup_lt_Some|done|].
    destruct Hhints as [Hh Hw _ _].
    destruct (lookup_lt_is_Some_2 rint x) as [r Hrx].
    { rewrite Hrl, Hw. by eapply lookup_lt_Some. }
    destruct (lookup_lt_is_Some_2 cint y) as [c Hcy].
    { rewrite Hcl, Hh. by eapply lookup_lt_Some. }
    exists rint, cint, r, c. do 4 (split; [done|]).
    apply Hcell; [|done]. unfold cell_at. rewrite Hrow. done.
Qed.
End seeding.

Lemma seeded_board_ok b b' : hints_ok b → seeded b b' → board_ok b'.
Proof.
  intros [Hh Hw Hver Hhor] Hseed. pose proof (seed_frame _ _ Hseed) as [_ _ Eh Ew].
  split; [apply Hseed|]. split; split; cbn.
  - rewrite (seed_verposs _ _ Hseed), length_fmap. lia.
  - rewrite (seed_verposs _ _ Hseed). apply Forall_fmap, Forall_forall.
    intros nums Hnums p Hp. rewrite Forall_forall in Hver.
    apply get_numsposs_length in Hp; [|by apply Hver|lia]. unfold py_len in Hp. lia.
  - rewrite (seed_horposs _ _ Hseed), length_fmap. lia.
  - rewrite (seed_horposs _ _ Hseed). apply Forall_fmap, Forall_forall.
    intros nums Hnums p Hp. rewrite Forall_forall in Hhor.
    apply get_numsposs_length in Hp; [|by apply Hhor|lia]. unfold py_len in Hp. lia.
Qed.

(** ** Infeasible hints *)

Lemma get_numsposs_infeasible nums remain_len :
  nums ≠ [] → nums ≠ [0] → deg_of_free nums remain_len < 0 →
  get_numsposs nums remain_len = ∅.
Proof.
  destruct nums as [|n rest]; [done|]. intros _ Hne Hdeg.
  rewrite get_numsposs_cons by done. unfold py_range.
  replace (Z.to_nat _) with 0%nat by (unfold deg_of_free in Hdeg; lia). done.
Qed.

Lemma hints_ok_init horlist verlist :
  Forall hint_ok horlist → Forall hint_ok verlist →
  hints_ok (PicrossBoard_init horlist verlist).
Proof. intros. by split. Qed.

Lemma seeded_feasible b b' : seeded b b' → ¬ infeasible b.
Proof.
  intros Hseed [H|H]; apply Exists_exists in H as (nums & Hin & Hempty).
  - pose proof (seed_ver_nonempty _ _ Hseed) as Hne.
    rewrite (seed_verposs _ _ Hseed), Forall_fmap, Forall_forall in Hne.
    by apply (Hne nums).
  - pose proof (seed_hor_nonempty _ _ Hseed) as Hne.
    rewrite (seed_horposs _ _ Hseed), Forall_fmap, Forall_forall in Hne.
    by apply (Hne nums).
Qed.

(** ** [solve] as a whole *)

Lemma solve_spec b b0 :
  shape_ok b → hints_ok b → initial_possibilities b = Ok b0 →
  seeded b b0 ∧ ∃ b' r, solve b = Some (Ok (b', r)) ∧ loop_end b0 b' r.
Proof.
  intros Hs Hh Hinit.
  destruct (initial_possibilities_spec b Hs Hh) as [(b1 & E & Hseed)|[E _]];
    [|congruence].
  rewrite Hinit in E. injection E as <-. split; [done|].
  pose proof (seeded_board_ok _ _ Hh Hseed) as Hok.
  pose proof (seed_frame _ _ Hseed) as [_ _ Eh Ew].
  unfold solve, solve_within. rewrite Hinit.
  apply solve_loop_spec; [done|].
  rewrite <- Eh, <- Ew. apply remaining_squares_bound, Hseed.
Qed.

(** ** Sequences of passes *)

Lemma Forall2_subseteq_refl (l : list (gset pattern)) : Forall2 (⊆) l l.
Proof. induction l; by constructor. Qed.

Lemma poss_shrunk_refl b : poss_shrunk b b.
Proof. split; apply Forall2_subseteq_refl. Qed.

Lemma poss_shrunk_trans b1 b2 b3 :
  poss_shrunk b1 b2 → poss_shrunk b2 b3 → poss_shrunk b1 b3.
Proof.
  intros [Hv Hh] [Hv' Hh'].
  split; (eapply Forall2_trans; [|eassumption|eassumption]);
    intros X Y Z ? ?; by etrans.
Qed.

Lemma prune_pass_spec b b' :
  board_ok b → prune_pass b b' → board_ok b' ∧ poss_shrunk b b'.
Proof.
  intros Hok [Hr|Hc].
  - destruct (ruleout_rows_spec b Hok) as (b1 & E & Hpass & Hok1 & _).
    rewrite Hr in E. injection E as <-. split; [done|]. split.
    + apply (pass_rel_shrinks rows cols rows_laws b b'); [apply Hok|done].
    + change (horposs b') with (ax_poss cols b'). rewrite (pass_other _ _ _ _ Hpass).
      apply Forall2_subseteq_refl.
  - destruct (ruleout_cols_spec b Hok) as (b1 & E & Hpass & Hok1 & _).
    rewrite Hc in E. injection E as <-. split; [done|]. split.
    + change (verposs b') with (ax_poss rows b'). rewrite (pass_other _ _ _ _ Hpass).
      apply Forall2_subseteq_refl.
    + apply (pass_rel_shrinks cols rows cols_laws b b'); [apply Hok|done].
Qed.

Lemma rtc_prune_pass_spec b b' :
  board_ok b → rtc prune_pass b b' → board_ok b' ∧ poss_shrunk b b'.
Proof.
  intros Hok Hrtc. induction Hrtc as [b|b b1 b' Hstep _ IH].
  - split; [done|apply poss_shrunk_refl].
  - destruct (prune_pass_spec b b1 Hok Hstep) as [Hok1 Hsh1].
    destruct (IH Hok1) as [Hok' Hsh']. split; [done|]. by eapply poss_shrunk_trans.
Qed.

Lemma ruleout_rows_agree b b' : board_ok b → ruleout_rows b = Ok b' → rows_agree b'.
Proof.
  intros Hok Hr y nums X p Hrow HX Hp.
  destruct (ruleout_rows_spec b Hok) as (b1 & E & Hpass & Hok1 & _).
  rewrite Hr in E. injection E as <-.
  destruct (pass_lines _ _ _ _ Hpass y) as (n0 & X0 & n1 & Y & _ & _ & Hg & HY & Hstep).
  { destruct Hok1 as (_ & [Hl _] & _). cbn in Hl |- *.
    destruct (pass_frame _ _ _ _ Hpass) as [_ _ <- _]. rewrite <- Hl.
    by eapply lookup_lt_Some. }
  cbn in Hg, HY. unfold get_row, index in Hg. rewrite Hrow in Hg. injection Hg as <-.
  rewrite HX in HY. injection HY as <-. by apply (step_agrees _ _ _ _ Hstep).
Qed.

Lemma ruleout_cols_agree b b' : board_ok b → ruleout_cols b = Ok b' → cols_agree b'.
Proof.
  intros Hok Hc x nums X p Hcol HX Hp.
  destruct (ruleout_cols_spec b Hok) as (b1 & E & Hpass & Hok1 & _).
  rewrite Hc in E. injection E as <-.
  destruct (pass_lines _ _ _ _ Hpass x) as (n0 & X0 & n1 & Y & _ & _ & Hg & HY & Hstep).
  { destruct Hok1 as (_ & _ & [Hl _]). cbn in Hl |- *.
    destruct (pass_frame _ _ _ _ Hpass) as [_ _ _ <-]. rewrite <- Hl.
    by eapply lookup_lt_Some. }
  cbn in Hg, HY. rewrite Hcol in Hg. injection Hg as <-.
  rewrite HX in HY. injection HY as <-. by apply (step_agrees _ _ _ _ Hstep).
Qed.

(** The states the loop of [solve] goes through are reached by passes. *)
Lemma solve_loop_passes cycles b b' r :
  solve_loop cycles b = Some (Ok (b', r)) → rtc prune_pass b b'.
Proof.
  revert b. induction cycles as [|cycles IH]; intros b; cbn [solve_loop].
  - destruct (decide _); [|done]. by intros [= <- _].
  - destruct (decide _); [by intros [= <- _]|].
    destruct (ruleout_rows b) as [b1|] eqn:E1; [|done].
    destruct (ruleout_cols b1) as [b2|] eqn:E2; [|done].
    assert (rtc prune_pass b b2) as H2.
    { eapply rtc_l; [by left|]. apply rtc_once. by right. }
    destruct (decide _); [by intros [= <- _]|].
    intros Hloop. etrans; [exact H2|]. by apply IH.
Qed.

Lemma get_numsposs_layout blocks remain_len p :
  blocks ≠ [] → Forall (λ n, 0 < n) blocks →
  p ∈ get_numsposs blocks remain_len →
  ∃ gaps trail,
    length gaps = length blocks ∧
    (∀ i g, gaps !! S i = Some g → (1 ≤ g)%nat) ∧
    p = layout gaps blocks ++ replicate trail "0".
Proof.
  intros Hne Hpos. revert remain_len p Hne.
  induction Hpos as [|n rest Hn Hrest IH]; intros L p Hne Hp; [done|]. clear Hne.
  assert (n :: rest ≠ [0]) as Hne0 by (intros [= -> _]; lia).
  apply elem_of_get_numsposs_cons in Hp as (i & Hi & Hp); [|done].
  destruct rest as [|m rest].
  - apply elem_of_block_at_last in Hp as ->.
    exists [Z.to_nat i], (Z.to_nat (L - py_len (str_mul "0" i ++ str_mul "1" n))).
    split; [done|]. split; [by intros []|].
    cbn. by rewrite app_nil_r, <- !(assoc_L (++)).
  - apply elem_of_block_at_more in Hp as (e & -> & He).
    apply IH in He as (gaps & trail & Hlen & Hgaps & ->); [|done].
    destruct gaps as [|g gaps]; [done|].
    exists (Z.to_nat i :: S g :: gaps), trail.
    split; [cbn in *; lia|]. split.
    + intros [|j] g'; cbn; [intros [= <-]; lia|]. apply Hgaps.
    + cbn. unfold str_mul. rewrite <- !(assoc_L (++)). do 2 f_equal.
      cbn. by rewrite <- !(assoc_L (++)).
Qed.

(** ** The examples of the source *)

(** The two examples in the docstring of [get_numsposs]. *)
Example get_numsposs_docstring_one_block :
  get_numsposs [3] 5 = {[ pat "11100"; pat "01110"; pat "00111" ]}.
Proof. vm_compute. reflexivity. Qed.

Example get_numsposs_docstring_two_blocks :
  get_numsposs [2; 1] 5 = {[ pat "11010"; pat "11001"; pat "01101" ]}.
Proof. vm_compute. reflexivity. Qed.

(** Maximal runs of ones on a line. *)
Example runs_example : runs (pat "0110100111") = [2; 1; 3]%nat.
Proof. reflexivity. Qed.

(** The board of the class docstring is solved to the grid shown there. *)
Example solve_docstring_board :
  solve ex_docstring = Some (Ok (ex_after_cycle, ReturnSelf)) ∧
  board ex_after_cycle
  = (λ row, Some <$> pat row) <$> ["111"; "100"; "111"; "011"; "001"; "010"]%string.
Proof. split; vm_compute; reflexivity. Qed.

(** ** Lemmas for the further properties *)

(** ** The enumerator is complete *)

Lemma runs_from_split cur (p : pattern) :
  binary p →
  ∃ m tail,
    p = replicate m "1" ++ tail ∧
    (tail = [] ∨ ∃ q, tail = "0" :: q) ∧
    runs_from cur p =
    (if decide (cur + m = 0)%nat then [] else [(cur + m)%nat])
      ++ match tail with [] => [] | _ :: q => runs q end.
Proof.
  intros Hp. revert cur. induction Hp as [|c p Hc Hp IH]; intros cur.
  - exists 0%nat, []. split; [done|]. split; [by left|].
    cbn. rewrite Nat.add_0_r, app_nil_r. done.
  - destruct Hc as [->| ->].
    + exists 0%nat, ("0" :: p). split; [done|]. split; [right; eauto|].
      cbn. rewrite Nat.add_0_r. done.
    + destruct (IH (S cur)) as (m & tail & -> & Htail & Hruns).
      exists (S m), tail. split; [done|]. split; [done|].
      cbn. rewrite Hruns. replace (cur + S m)%nat with (S cur + m)%nat by lia. done.
Qed.

Lemma runs_decompose (p : pattern) n rs :
  binary p → runs p = n :: rs →
  (0 < n)%nat ∧
  ∃ i tail,
    p = replicate i "0" ++ replicate n "1" ++ tail ∧
    ((tail = [] ∧ rs = []) ∨ ∃ q, tail = "0" :: q ∧ runs q = rs).
Proof.
  intros Hp. induction Hp as [|c p Hc Hp IH]; [done|].
  destruct Hc as [->| ->].
  - unfold runs. cbn. intros Hr. destruct (IH Hr) as (Hn & i & tail & -> & Htail).
    split; [done|]. exists (S i), tail. done.
  - unfold runs. cbn.
    destruct (runs_from_split 1 p Hp) as (m & tail & -> & Htail & ->).
    cbn. intros [= <- <-]. split; [lia|].
    exists 0%nat, tail. split; [done|].
    destruct Htail as [->|(q & ->)]; [by left|right; eauto].
Qed.

Lemma runs_nil_zeros (q : pattern) :
  binary q → runs q = [] → q = replicate (length q) "0".
Proof.
  induction 1 as [|c q Hc Hq IH]; [done|].
  destruct Hc as [->| ->].
  - unfold runs. cbn. intros Hr. f_equal. by apply IH.
  - unfold runs. cbn. destruct (runs_from_split 1 q Hq) as (m & tail & _ & _ & ->). done.
Qed.

Lemma binary_app_inv (p q : pattern) : binary (p ++ q) → binary p ∧ binary q.
Proof. apply Forall_app. Qed.

(** Every line of zeros and ones of the right length whose runs are the
    blocks is among the enumerated patterns. *)
Lemma get_numsposs_complete blocks remain_len (p : pattern) :
  blocks ≠ [] → Forall (λ n, 0 < n) blocks →
  binary p → py_len p = remain_len → Z.of_nat <$> runs p = blocks →
  p ∈ get_numsposs blocks remain_len.
Proof.
  intros Hne Hpos. revert remain_len p Hne.
  induction Hpos as [|n rest Hn Hrest IH]; intros L p Hne Hbin Hlen Hruns; [done|].
  clear Hne.
  assert (n :: rest ≠ [0]) as Hne0 by (intros [= -> _]; lia).
  destruct (runs p) as [|r rs] eqn:Er; [done|]. cbn in Hruns.
  injection Hruns as Hr Hrs.
  destruct (runs_decompose p r rs Hbin Er) as (Hrpos & i & tail & -> & Htail).
  apply binary_app_inv in Hbin as [_ [_ Hbt]%binary_app_inv].
  rewrite !py_len_app in Hlen. unfold py_len in Hlen. rewrite !length_replicate in Hlen.
  apply elem_of_get_numsposs_cons; [done|]. exists (Z.of_nat i).
  rewrite py_sum_cons, py_len_cons.
  destruct Htail as [[-> ->]|(q & -> & Hq)].
  - destruct rest; [|done]. cbn in Hlen.
    change (py_sum []) with 0. change (py_len []) with 0.
    split; [lia|]. apply elem_of_block_at_last.
    unfold str_mul. rewrite !py_len_app. unfold py_len. rewrite !length_replicate.
    rewrite Nat2Z.id. replace (Z.to_nat n) with r by lia.
    replace (Z.to_nat _) with 0%nat by lia. done.
  - destruct rest as [|m rest].
    { destruct rs; [|done]. apply runs_nil_zeros in Hq; [|by inv Hbt].
      cbn in Hlen. change (py_sum []) with 0. change (py_len []) with 0.
      split; [lia|]. apply elem_of_block_at_last.
      unfold str_mul. rewrite !py_len_app. unfold py_len. rewrite !length_replicate.
      rewrite Nat2Z.id. replace (Z.to_nat n) with r by lia.
      do 2 f_equal. rewrite Hq.
      replace (Z.to_nat _) with (S (length q)) by lia. done. }
    assert (q ∈ get_numsposs (m :: rest) (L - (Z.of_nat i + n + 1))) as Hqin.
    { apply IH; [done|by inv Hbt| |by rewrite Hq].
      unfold py_len. cbn in Hlen. lia. }
    assert (0 ≤ deg_of_free (m :: rest) (L - (Z.of_nat i + n + 1))) as Hdeg.
    { destruct (decide (0 ≤ deg_of_free (m :: rest) (L - (Z.of_nat i + n + 1))));
        [done|].
      rewrite get_numsposs_infeasible in Hqin; [by apply not_elem_of_empty in Hqin|done| |lia].
      intros [= -> _]. apply Forall_cons in Hrest as [? _]. lia. }
    unfold deg_of_free in Hdeg.
    split; [lia|]. apply elem_of_block_at_more. exists q. split.
    + unfold str_mul. rewrite Nat2Z.id. by replace (Z.to_nat n) with r by lia.
    + by replace (Z.max 0 (Z.of_nat i) + Z.max 0 n + 1) with (Z.of_nat i + n + 1) by lia.
Qed.

(** ** When the enumerator returns no pattern *)

Lemma get_numsposs_feasible nums remain_len :
  hint_ok nums → nums = [0] ∨ 0 ≤ deg_of_free nums remain_len →
  ∃ p, p ∈ get_numsposs nums remain_len.
Proof.
  intros [Hne Hpos]. revert remain_len Hne.
  induction Hpos as [|n rest Hn Hrest IH]; intros L Hne Hdeg; [done|]. clear Hne.
  destruct (decide (n :: rest = [0])) as [E|Hne0].
  { rewrite E. cbn. eexists. by apply elem_of_singleton. }
  destruct Hdeg as [?|Hdeg]; [done|]. unfold deg_of_free in Hdeg.
  rewrite py_sum_cons, py_len_cons in Hdeg.
  destruct rest as [|m rest].
  - eexists. apply elem_of_get_numsposs_cons; [done|]. exists 0.
    rewrite py_sum_cons, py_len_cons. split; [lia|]. by apply elem_of_block_at_last.
  - destruct (IH (L - (Z.max 0 0 + Z.max 0 n + 1))) as [q Hq]; [done| |].
    { right. unfold deg_of_free. lia. }
    eexists. apply elem_of_get_numsposs_cons; [done|]. exists 0.
    rewrite py_sum_cons, py_len_cons. split; [lia|].
    apply elem_of_block_at_more. eauto.
Qed.

Lemma get_numsposs_empty_iff nums remain_len :
  hint_ok nums →
  get_numsposs nums remain_len = ∅ ↔ nums ≠ [0] ∧ deg_of_free nums remain_len < 0.
Proof.
  intros Hok. split.
  - intros Hempty.
    destruct (decide (nums = [0])) as [E|Hne0].
    { destruct (get_numsposs_feasible nums remain_len Hok) as [p Hp]; [by left|].
      rewrite Hempty in Hp. by apply not_elem_of_empty in Hp. }
    split; [done|].
    destruct (decide (deg_of_free nums remain_len < 0)) as [|Hge]; [done|].
    destruct (get_numsposs_feasible nums remain_len Hok) as [p Hp]; [right; lia|].
    rewrite Hempty in Hp. by apply not_elem_of_empty in Hp.
  - intros [Hne0 Hdeg]. apply get_numsposs_infeasible; [apply Hok|done..].
Qed.

Lemma infeasible_iff b :
  hints_ok b →
  infeasible b ↔
  Exists (hint_misfit (width b)) (verlist b) ∨ Exists (hint_misfit (height b)) (horlist b).
Proof.
  intros [_ _ Hver Hhor]. unfold infeasible, row_poss, col_poss, hint_misfit.
  rewrite !Exists_exists. rewrite Forall_forall in Hver, Hhor.
  split; (intros [(nums & Hin & H)|(nums & Hin & H)]; [left|right]; exists nums;
          (split; [done|])); apply get_numsposs_empty_iff in H; auto.
Qed.

(** [solve] on a board of non-negative hints: it raises exactly when some
    hint has no placement, and then it is an [IndexError]. *)
Lemma solve_raises_iff b :
  shape_ok b → hints_ok b →
  (infeasible b → solve b = Some (Raise IndexError)) ∧
  (¬ infeasible b → ∃ b' r, solve b = Some (Ok (b', r))).
Proof.
  intros Hs Hh.
  destruct (initial_possibilities_spec b Hs Hh) as [(b0 & Hinit & Hseed)|[Hinit Hinf]].
  - split.
    + intros Hinf. by apply (seeded_feasible _ _ Hseed) in Hinf.
    + intros _. destruct (solve_spec b b0 Hs Hh Hinit) as (_ & b' & r & ? & _). eauto.
  - split; [|done]. intros _. unfold solve, solve_within. by rewrite Hinit.
Qed.

(** ** A pass treats its lines one by one *)

Section pass_linewise.
Context (ax other : axis) (laws : axis_laws ax other).

Lemma ruleout_step_exact b i s :
  shape_ok b → (i < ax_lines ax b)%nat → pass_inv ax other b i s →
  (∀ k, (k < i)%nat → line_done ax b s k) →
  ∃ s',
    (nums ← ax_get ax s i;
     possible ← index (ax_poss ax s) i;
     '(possible, line) ← ruleout_line nums possible;
     let s := ax_set_poss ax s (<[i := possible]> (ax_poss ax s)) in
     match line with
     | Some vals => ax_set ax s i vals
     | None => Ok s
     end) = Ok s' ∧ pass_inv ax other b (S i) s' ∧
    ∀ k, (k < S i)%nat → line_done ax b s' k.
Proof.
  intros Hb Hi Hinv Hdone.
  destruct (ruleout_step ax other laws b i s Hb Hi Hinv) as (s' & Hs' & Hinv').
  exists s'. split; [done|]. split; [done|].
  destruct Hinv as (Hfr & Hs & [Hpl Hpf] & Hoth & _ & Htodo).
  destruct (law_dims _ _ laws b s Hfr) as [Hlines Hlen].
  destruct (law_get _ _ laws s i Hs) as (nums & Hget & Hnl & Hcells); [lia|].
  rewrite Hget in Hs'. cbn in Hs'.
  destruct (lookup_lt_is_Some_2 (ax_poss ax s) i) as [X HX]; [lia|].
  unfold index in Hs'. rewrite HX in Hs'. cbn in Hs'.
  destruct (ruleout_line_spec nums X) as (Y & line & Hline & Hstep & Hvals).
  { rewrite Hnl. rewrite Forall_forall in Hpf. apply Hpf.
    by eapply list_elem_of_lookup_2. }
  rewrite Hline in Hs'. cbn in Hs'.
  set (s1 := ax_set_poss ax s (<[i:=Y]> (ax_poss ax s))) in *.
  destruct (law_set_poss _ _ laws s (<[i:=Y]> (ax_poss ax s)))
    as (Hp1 & Ho1 & Hb1 & Hf1). fold s1 in Hp1, Ho1, Hb1, Hf1.
  assert (shape_ok s1) as Hs1 by (by apply (shape_ok_frame s)).
  destruct (law_dims _ _ laws s s1 Hf1) as [Hlines1 Hlen1].
  assert (ax_poss ax s' = <[i:=Y]> (ax_poss ax s) ∧
          ∀ k j, ax_cell ax s' k j =
                 if decide (k = i) then default nums line !! j
                 else ax_cell ax s k j) as [Hp' Hc'].
  { destruct line as [vals|]; cbn in *.
    - destruct (law_set _ _ laws s1 i vals) as (s2 & E & ? & ? & Hp & Ho & Hc);
        [done|lia|rewrite Hlen1, <- Hnl; by apply Hvals|].
      rewrite Hs' in E. injection E as <-.
      split; [by rewrite Hp|].
      intros k j. rewrite Hc. destruct (decide (k = i)); [done|].
      by apply (law_cell _ _ laws).
    - injection Hs' as <-. split; [done|].
      intros k j. rewrite (law_cell _ _ laws s s1) by done.
      destruct (decide (k = i)) as [->|]; [|done]. by rewrite Hcells. }
  intros k Hk. destruct (decide (k = i)) as [->|Hne].
  - exists nums, X, Y, line. split; [|split; [|split; [done|split]]].
    + apply (get_unique ax other laws); [done..|]. intros j. rewrite Hcells.
      by apply (Htodo i).
    + rewrite <- HX. symmetry. by apply (Htodo i).
    + rewrite Hp'. apply list_lookup_insert_eq. lia.
    + intros j. rewrite Hc'. by destruct (decide (i = i)).
  - destruct (Hdone k) as (n0 & X0 & Y0 & l0 & ? & ? & ? & HY0 & Hc0); [lia|].
    exists n0, X0, Y0, l0. do 3 (split; [done|]). split.
    + rewrite Hp'. by rewrite list_lookup_insert_ne.
    + intros j. rewrite Hc'. destruct (decide (k = i)); [done|]. apply Hc0.
Qed.

Lemma ruleout_linewise b b' :
  shape_ok b → poss_ok ax b → ruleout ax b = Ok b' →
  ∀ k, (k < ax_lines ax b)%nat → line_done ax b b' k.
Proof.
  intros Hs Hp Hb'. unfold ruleout in Hb'.
  destruct (for_each_ind
              (λ i s, pass_inv ax other b i s ∧ ∀ k, (k < i)%nat → line_done ax b s k)
              (seq 0 (ax_lines ax b))
              (λ b k,
                 nums ← ax_get ax b k;
                 possible ← index (ax_poss ax b) k;
                 '(possible, line) ← ruleout_line nums possible;
                 let b := ax_set_poss ax b (<[k := possible]> (ax_poss ax b)) in
                 match line with
                 | Some vals => ax_set ax b k vals
                 | None => Ok b
                 end) b) as (b1 & Hb1 & _ & Hdone).
  - split; [|intros; lia].
    split; [apply same_frame_refl|]. do 3 (split; [done|]). split; [intros; lia|done].
  - intros i k s [-> Hi]%lookup_seq [Hinv Hdone]. cbn.
    destruct (ruleout_step_exact b i s Hs Hi Hinv Hdone) as (s' & ? & ? & ?). eauto.
  - pose proof (eq_trans (eq_sym Hb1) Hb') as E. injection E as <-.
    by rewrite length_seq in Hdone.
Qed.
End pass_linewise.

(** ** Pruning keeps every solution *)

Lemma ruleout_line_exact (nums : list cell) (X Y : gset pattern) line :
  set_Forall (λ p, length p = length nums) X →
  ruleout_line nums X = Ok (Y, line) →
  line = only_candidate Y ∧
  (((∃ p, X = {[ p ]}) ∧ Y = X) ∨
   ((¬ ∃ p, X = {[ p ]}) ∧ ∀ p, p ∈ Y ↔ p ∈ X ∧ agrees p nums)).
Proof.
  intros Hlen. unfold ruleout_line.
  destruct (only_candidate X) as [vals|] eqn:E.
  - intros [= <- <-]. split; [done|]. left.
    apply only_candidate_Some in E as (p & ? & _). eauto.
  - destruct (prune_spec nums X Hlen) as (Y' & -> & HY'). cbn.
    intros [= <- <-]. split; [done|]. right. split; [|done].
    intros (p & ->). unfold only_candidate in E. by rewrite elements_singleton in E.
Qed.

(** Where the intersection is known, every pattern of the set has that
    value. *)
Lemma poss_intersection_known (X : gset pattern) (n : nat) v i c :
  set_Forall (λ p, length p = n) X →
  poss_intersection X = Ok v → v !! i = Some (Some c) →
  ∀ p, p ∈ X → p !! i = Some c.
Proof.
  intros Hlen Hv Hi.
  assert (X ≠ ∅) as Hne.
  { intros ->. by rewrite poss_intersection_empty in Hv. }
  destruct (poss_intersection_spec X n Hne Hlen) as (v' & Hv' & Hl & Hsame & Hdiff).
  rewrite Hv in Hv'. injection Hv' as <-.
  intros p Hp. destruct (p !! i) as [c'|] eqn:Hpi.
  2:{ apply lookup_ge_None_1 in Hpi. rewrite (Hlen p Hp), <- Hl in Hpi.
      apply lookup_ge_None_2 in Hpi. congruence. }
  destruct (decide (set_Forall (λ q : pattern, q !! i = Some c') X)) as [Hall|Hnot].
  - rewrite (Hsame i c' Hall) in Hi. congruence.
  - apply not_set_Forall_Exists in Hnot; [|apply _].
    destruct Hnot as (q & Hq & Hqi). cbn in Hqi.
    rewrite (Hdiff i p q Hp Hq) in Hi; [done|congruence].
Qed.

Lemma lookup_grid_line g n k j :
  grid_line g n k !! j = if decide (j < n)%nat then Some (g k j) else None.
Proof.
  unfold grid_line. rewrite list_lookup_fmap.
  destruct (decide (j < n)%nat).
  - by rewrite lookup_seq_lt.
  - by rewrite lookup_seq_ge by lia.
Qed.

Section pass_solution.
Context (ax other : axis) (laws : axis_laws ax other).
Context (cell_range : ∀ b k j v, shape_ok b → ax_cell ax b k j = Some v →
                                 (k < ax_lines ax b)%nat).
Context (g : nat → nat → ascii).

Lemma ruleout_keeps_solution b b' :
  shape_ok b → poss_ok ax b → ruleout ax b = Ok b' →
  (∀ k X, ax_poss ax b !! k = Some X → grid_line g (ax_len ax b) k ∈ X) →
  (∀ k j c, ax_cell ax b k j = Some (Some c) → g k j = c) →
  (∀ k X, ax_poss ax b' !! k = Some X → grid_line g (ax_len ax b) k ∈ X) ∧
  (∀ k j c, ax_cell ax b' k j = Some (Some c) → g k j = c).
Proof.
  intros Hs Hp Hb' Hin Hcell.
  destruct (ruleout_spec ax other laws b Hs Hp) as (b1 & Hb1 & Hpass).
  rewrite Hb' in Hb1. injection Hb1 as <-.
  destruct (law_dims _ _ laws b b' (pass_frame _ _ _ _ Hpass)) as [Hlines Hlen].
  assert (∀ k, (k < ax_lines ax b)%nat →
               ∃ nums' Y, ax_poss ax b' !! k = Some Y ∧
                          (∀ j, nums' !! j = ax_cell ax b' k j) ∧
                          grid_line g (ax_len ax b) k ∈ Y ∧
                          agrees (grid_line g (ax_len ax b) k) nums') as Hline.
  { intros k Hk.
    destruct (ruleout_linewise ax other laws b b' Hs Hp Hb' k Hk)
      as (nums & X & Y & line & Hget & HX & Hrl & HY & Hc').
    destruct (law_get _ _ laws b k Hs Hk) as (n0 & Hn0 & Hnl & Hcells).
    rewrite Hget in Hn0. injection Hn0 as <-.
    assert (agrees (grid_line g (ax_len ax b) k) nums) as Hag.
    { intros j c Hj. rewrite lookup_grid_line.
      destruct (decide (j < ax_len ax b)%nat) as [|Hge].
      - f_equal. apply Hcell. by rewrite <- Hcells.
      - apply lookup_lt_Some in Hj. lia. }
    destruct (ruleout_line_exact nums X Y line) as [-> HYX]; [|done|].
    { destruct Hp as [_ Hpf]. rewrite Forall_forall in Hpf. rewrite Hnl.
      apply Hpf. by eapply list_elem_of_lookup_2. }
    assert (grid_line g (ax_len ax b) k ∈ Y) as HgY.
    { destruct HYX as [[_ ->]|[_ HY']]; [by eapply Hin|].
      apply HY'. split; [by eapply Hin|done]. }
    exists (default nums (only_candidate Y)), Y. do 3 (split; [done|]).
    destruct (only_candidate Y) as [vals|] eqn:E; [|done]. cbn.
    apply only_candidate_Some in E as (p & -> & ->).
    apply elem_of_singleton in HgY as <-.
    intros j c. rewrite list_lookup_fmap.
    destruct (grid_line g (ax_len ax b) k !! j); by intros [= ->]. }
  split.
  - intros k X HX.
    assert (k < ax_lines ax b)%nat as Hk.
    { destruct (pass_poss_ok _ _ _ _ Hpass) as [Hl _]. rewrite <- Hlines, <- Hl.
      by eapply lookup_lt_Some. }
    destruct (Hline k Hk) as (nums' & Y & HY & _ & ? & _). congruence.
  - intros k j c Hc.
    assert (k < ax_lines ax b)%nat as Hk.
    { rewrite <- Hlines. eapply cell_range; [apply Hpass|done]. }
    destruct (Hline k Hk) as (nums' & Y & _ & Hc' & _ & Hag).
    rewrite <- Hc' in Hc. apply Hag in Hc. rewrite lookup_grid_line in Hc.
    destruct (decide (j < ax_len ax b)%nat); congruence.
Qed.
End pass_solution.

Lemma solution_lookup g b :
  solution g b →
  (∀ y nums, verlist b !! y = Some nums → grid_line g (width b) y ∈ row_poss b nums) ∧
  (∀ x nums, horlist b !! x = Some nums →
             grid_line (λ x y, g y x) (height b) x ∈ col_poss b nums).
Proof.
  intros [Hr Hc]. rewrite Forall_forall in Hr, Hc. split.
  - intros y nums Hy. apply (Hr (y, nums)). apply list_elem_of_lookup. exists y.
    unfold enumerate. by rewrite list_lookup_imap, Hy.
  - intros x nums Hx. apply (Hc (x, nums)). apply list_elem_of_lookup. exists x.
    unfold enumerate. by rewrite list_lookup_imap, Hx.
Qed.

Lemma cell_at_range b y x v :
  shape_ok b → cell_at b y x = Some v → (y < height b)%nat ∧ (x < width b)%nat.
Proof.
  intros Hs Hc. split.
  - by apply (rows_cell_range b y x v).
  - by apply (cols_cell_range b x y v).
Qed.

Lemma prune_pass_fits g b b' :
  board_ok b → prune_pass b b' → fits g b → fits g b'.
Proof.
  intros (Hs & Hr & Hc) Hpass (Hrow & Hcol & Hcell).
  destruct Hpass as [Hb'|Hb'].
  - destruct (ruleout_keeps_solution rows cols rows_laws rows_cell_range g b b'
                Hs Hr Hb' Hrow Hcell) as [Hrow' Hcell'].
    destruct (ruleout_spec rows cols rows_laws b Hs Hr) as (b1 & Hb1 & Hpass).
    rewrite ruleout_rows_eq in Hb'. rewrite Hb' in Hb1. injection Hb1 as <-.
    destruct (pass_frame _ _ _ _ Hpass) as [_ _ Eh Ew].
    split; [|split; [|done]].
    + rewrite Ew. apply Hrow'.
    + rewrite Eh. change (horposs b') with (ax_poss cols b').
      rewrite (pass_other _ _ _ _ Hpass). apply Hcol.
  - destruct (ruleout_keeps_solution cols rows cols_laws cols_cell_range
                (λ x y, g y x) b b' Hs Hc Hb' Hcol (λ k j c, Hcell j k c))
      as [Hcol' Hcell'].
    destruct (ruleout_spec cols rows cols_laws b Hs Hc) as (b1 & Hb1 & Hpass).
    rewrite ruleout_cols_eq in Hb'. rewrite Hb' in Hb1. injection Hb1 as <-.
    destruct (pass_frame _ _ _ _ Hpass) as [_ _ Eh Ew].
    split; [|split].
    + rewrite Ew. change (verposs b') with (ax_poss rows b').
      rewrite (pass_other _ _ _ _ Hpass). apply Hrow.
    + rewrite Eh. apply Hcol'.
    + intros y x c. apply (Hcell' x y c).
Qed.

Lemma rtc_prune_pass_fits g b b' :
  board_ok b → rtc prune_pass b b' → fits g b → fits g b'.
Proof.
  intros Hok Hrtc. induction Hrtc as [b|b b1 b' Hstep _ IH]; [done|].
  intros Hfit. apply IH.
  - by apply (prune_pass_spec b b1).
  - by eapply prune_pass_fits.
Qed.

Lemma numsposs_lengths nums (n : nat) :
  hint_ok nums → set_Forall (λ p : pattern, length p = n) (get_numsposs nums (Z.of_nat n)).
Proof.
  intros Hok p Hp. apply get_numsposs_length in Hp; [|done|lia].
  unfold py_len in Hp. lia.
Qed.

Lemma seeded_fits g b b' :
  hints_ok b → seeded b b' → solution g b → fits g b'.
Proof.
  intros Hh Hseed [Hrow Hcol]%solution_lookup.
  pose proof Hh as [Hhe Hwi Hver Hhor].
  pose proof (seed_frame _ _ Hseed) as [_ _ Eh Ew].
  split; [|split].
  - intros y X. rewrite (seed_verposs _ _ Hseed), list_lookup_fmap, Ew.
    destruct (verlist b !! y) as [nums|] eqn:E; [|done]. intros [= <-]. by apply Hrow.
  - intros x X. rewrite (seed_horposs _ _ Hseed), list_lookup_fmap, Eh.
    destruct (horlist b !! x) as [nums|] eqn:E; [|done]. intros [= <-]. by apply Hcol.
  - intros y x c Hc.
    destruct (cell_at_range b' y x _ (seed_shape _ _ Hseed) Hc) as [Hy Hx].
    rewrite Eh in Hy. rewrite Ew in Hx.
    destruct (lookup_lt_is_Some_2 (verlist b) y) as [rnums Hrn]; [lia|].
    destruct (lookup_lt_is_Some_2 (horlist b) x) as [cnums Hcn]; [lia|].
    destruct (seed_cells _ _ Hseed y x rnums cnums Hrn Hcn)
      as (rint & cint & r & c' & Hri & Hci & Hrx & Hcy & Hcell).
    rewrite Hcell in Hc. injection Hc as Hc.
    assert (hint_ok rnums) as Hokr.
    { rewrite Forall_forall in Hver. apply Hver. by eapply list_elem_of_lookup_2. }
    assert (hint_ok cnums) as Hokc.
    { rewrite Forall_forall in Hhor. apply Hhor. by eapply list_elem_of_lookup_2. }
    destruct r as [a|]; cbn in Hc.
    + injection Hc as ->.
      pose proof (poss_intersection_known (row_poss b rnums) (width b) rint x c
                    (numsposs_lengths rnums (width b) Hokr) Hri Hrx
                    (grid_line g (width b) y) (Hrow y rnums Hrn)) as Hk.
      rewrite lookup_grid_line in Hk. destruct (decide (x < width b)%nat); congruence.
    + subst c'.
      pose proof (poss_intersection_known (col_poss b cnums) (height b) cint y c
                    (numsposs_lengths cnums (height b) Hokc) Hci Hcy
                    (grid_line (λ x y, g y x) (height b) x) (Hcol x cnums Hcn)) as Hk.
      rewrite lookup_grid_line in Hk. destruct (decide (y < height b)%nat); congruence.
Qed.

Lemma remaining_zero_known b y x :
  shape_ok b → remaining_squares b = 0%nat →
  (y < height b)%nat → (x < width b)%nat →
  ∃ c, cell_at b y x = Some (Some c).
Proof.
  intros [Hh Hw] Hrem Hy Hx. unfold cell_at.
  destruct (lookup_lt_is_Some_2 (board b) y) as [row Hrow]; [lia|].
  rewrite Hrow. cbn.
  assert (length row = width b) as Hl.
  { rewrite Forall_forall in Hw. apply Hw. by eapply list_elem_of_lookup_2. }
  destruct (lookup_lt_is_Some_2 row x) as [[c|] Hc]; [lia|eauto|].
  exfalso. unfold remaining_squares in Hrem.
  assert (None ∈ filter (λ c : cell, c = None) (concat (board b))) as Hin.
  { apply list_elem_of_filter. split; [done|].
    apply list_elem_of_In, in_concat. exists row.
    split; apply list_elem_of_In; by eapply list_elem_of_lookup_2. }
  destruct (filter _ _); [by apply elem_of_nil in Hin|done].
Qed.

(** What [solve] does on a puzzle that has a solution [g]. *)
Lemma solve_sound g b :
  shape_ok b → hints_ok b → solution g b →
  ∃ b' r,
    solve b = Some (Ok (b', r)) ∧ board_ok b' ∧ same_frame b b' ∧ fits g b' ∧
    (r = ReturnSelf ↔ remaining_squares b' = 0%nat).
Proof.
  intros Hs Hh Hsol.
  destruct (initial_possibilities_spec b Hs Hh) as [(b0 & Hinit & Hseed)|[_ Hinf]].
  2:{ exfalso. destruct (solution_lookup g b Hsol) as [Hrow Hcol].
      destruct Hinf as [H|H]; apply Exists_exists in H as (nums & Hin & Hempty);
        apply list_elem_of_lookup_1 in Hin as [k Hk].
      - specialize (Hrow k nums Hk). rewrite Hempty in Hrow.
        by apply not_elem_of_empty in Hrow.
      - specialize (Hcol k nums Hk). rewrite Hempty in Hcol.
        by apply not_elem_of_empty in Hcol. }
  destruct (solve_spec b b0 Hs Hh Hinit) as (_ & b' & r & Hsolve & Hend).
  exists b', r. split; [done|]. split; [apply Hend|].
  split; [eapply same_frame_trans; [apply Hseed|apply Hend]|].
  split; [|apply Hend].
  unfold solve, solve_within in Hsolve. rewrite Hinit in Hsolve.
  apply (rtc_prune_pass_fits g b0 b').
  - by eapply seeded_board_ok.
  - by eapply solve_loop_passes.
  - by eapply seeded_fits.
Qed.

(** ** The grid holds nothing but [None], 0 and 1 *)

Lemma cells_binary_known b : cells_binary b ↔ known_binary b.
Proof.
  unfold cells_binary, known_binary, cell_at. split.
  - intros H y x c Hc. rewrite Forall_forall in H.
    destruct (board b !! y) as [row|] eqn:Hrow; [|done]. cbn in Hc.
    specialize (H row (list_elem_of_lookup_2 _ _ _ Hrow)). rewrite Forall_forall in H.
    destruct (H (Some c) (list_elem_of_lookup_2 _ _ _ Hc)) as [?|[[= ->]|[= ->]]]; auto.
    done.
  - intros H. apply Forall_forall. intros row [y Hy]%list_elem_of_lookup_1.
    apply Forall_forall. intros [c|] [x Hx]%list_elem_of_lookup_1; [|by left].
    right. specialize (H y x c). rewrite Hy in H. destruct (H Hx) as [-> | ->]; auto.
Qed.

Section pass_alphabet.
Context (ax other : axis) (laws : axis_laws ax other).
Context (cell_range : ∀ b k j v, shape_ok b → ax_cell ax b k j = Some v →
                                 (k < ax_lines ax b)%nat).

Lemma pass_rel_binary b b' :
  shape_ok b → poss_ok ax b → pass_rel ax other b b' →
  poss_binary (ax_poss ax b) →
  (∀ k j c, ax_cell ax b k j = Some (Some c) → c = "0" ∨ c = "1") →
  poss_binary (ax_poss ax b') ∧
  (∀ k j c, ax_cell ax b' k j = Some (Some c) → c = "0" ∨ c = "1").
Proof.
  intros Hs Hp Hpass Hbin Hcell.
  destruct (law_dims _ _ laws b b' (pass_frame _ _ _ _ Hpass)) as [Hlines Hlen].
  split.
  - unfold poss_binary in *.
    pose proof (pass_rel_shrinks ax other laws b b' Hp Hpass) as Hsh.
    rewrite Forall_forall in Hbin. apply Forall_forall. intros Y HY.
    apply list_elem_of_lookup_1 in HY as [k Hk].
    destruct (Forall2_lookup_l _ _ _ _ _ Hsh Hk) as (X & HX & HYX).
    intros p Hp'. apply (Hbin X); [by eapply list_elem_of_lookup_2|by apply HYX].
  - intros k j c Hc.
    assert (k < ax_lines ax b)%nat as Hk.
    { rewrite <- Hlines. eapply cell_range; [apply Hpass|done]. }
    destruct (pass_lines _ _ _ _ Hpass k Hk)
      as (nums & X & nums' & Y & Hg & HX & Hg' & HY & Hstep).
    destruct (law_get _ _ laws b k Hs Hk) as (n0 & Hn0 & _ & Hcells).
    rewrite Hg in Hn0. injection Hn0 as <-.
    destruct (law_get _ _ laws b' k (pass_shape _ _ _ _ Hpass)) as (n1 & Hn1 & _ & Hcells');
      [lia|].
    rewrite Hg' in Hn1. injection Hn1 as <-.
    rewrite <- Hcells' in Hc.
    pose proof (step_cells _ _ _ _ Hstep) as [E|(p & EY & E)].
    + rewrite E in Hc. rewrite Hcells in Hc. by eapply Hcell.
    + rewrite E, list_lookup_fmap in Hc.
      destruct (p !! j) as [c'|] eqn:Hpj; [|done]. injection Hc as ->.
      unfold poss_binary in Hbin. rewrite Forall_forall in Hbin.
      assert (binary p) as Hbp.
      { apply (Hbin X); [by eapply list_elem_of_lookup_2|].
        apply (step_subseteq _ _ _ _ Hstep). rewrite EY. by apply elem_of_singleton. }
      unfold binary in Hbp. rewrite Forall_forall in Hbp. apply Hbp.
      by eapply list_elem_of_lookup_2.
Qed.
End pass_alphabet.

Lemma prune_pass_alphabet b b' :
  board_ok b → prune_pass b b' → alphabet_ok b → alphabet_ok b'.
Proof.
  intros Hok Hpass (Hcell & Hv & Hh). pose proof Hok as (Hs & Hr & Hc).
  destruct Hpass as [Hb'|Hb'].
  - destruct (ruleout_rows_spec b Hok) as (b1 & Hb1 & Hpass & _).
    rewrite Hb' in Hb1. injection Hb1 as <-.
    destruct (pass_rel_binary rows cols rows_laws rows_cell_range b b' Hs Hr Hpass Hv Hcell)
      as [Hv' Hcell'].
    split; [done|]. split; [done|].
    change (horposs b') with (ax_poss cols b'). by rewrite (pass_other _ _ _ _ Hpass).
  - destruct (ruleout_cols_spec b Hok) as (b1 & Hb1 & Hpass & _).
    rewrite Hb' in Hb1. injection Hb1 as <-.
    destruct (pass_rel_binary cols rows cols_laws cols_cell_range b b' Hs Hc Hpass Hh
                (λ k j c, Hcell j k c)) as [Hh' Hcell'].
    split; [intros y x c; apply (Hcell' x y c)|]. split; [|done].
    change (verposs b') with (ax_poss rows b'). by rewrite (pass_other _ _ _ _ Hpass).
Qed.

Lemma rtc_prune_pass_alphabet b b' :
  board_ok b → rtc prune_pass b b' → alphabet_ok b → alphabet_ok b'.
Proof.
  intros Hok Hrtc. induction Hrtc as [b|b b1 b' Hstep _ IH]; [done|].
  intros Ha. apply IH.
  - by apply (prune_pass_spec b b1).
  - by eapply prune_pass_alphabet.
Qed.

Lemma poss_intersection_from_pattern (X : gset pattern) (n : nat) v i c :
  set_Forall (λ p, length p = n) X →
  poss_intersection X = Ok v → v !! i = Some (Some c) →
  ∃ p, p ∈ X ∧ p !! i = Some c.
Proof.
  intros Hlen Hv Hi.
  assert (X ≠ ∅) as Hne.
  { intros ->. by rewrite poss_intersection_empty in Hv. }
  apply set_choose_L in Hne as [p Hp]. exists p. split; [done|].
  by eapply poss_intersection_known.
Qed.

Lemma seeded_alphabet b b' : hints_ok b → seeded b b' → alphabet_ok b'.
Proof.
  intros Hh Hseed. pose proof Hh as [Hhe Hwi Hver Hhor].
  pose proof (seed_frame _ _ Hseed) as [_ _ Eh Ew].
  assert (∀ nums (n : nat) v i c,
            hint_ok nums → poss_intersection (get_numsposs nums (Z.of_nat n)) = Ok v →
            v !! i = Some (Some c) → c = "0" ∨ c = "1") as Hint.
  { intros nums n v i c Hok Hv Hi.
    destruct (poss_intersection_from_pattern _ n v i c (numsposs_lengths nums n Hok) Hv Hi)
      as (p & Hp & Hpi).
    apply get_numsposs_binary in Hp. unfold binary in Hp. rewrite Forall_forall in Hp.
    apply Hp. by eapply list_elem_of_lookup_2. }
  split; [|split].
  - intros y x c Hc.
    destruct (cell_at_range b' y x _ (seed_shape _ _ Hseed) Hc) as [Hy Hx].
    rewrite Eh in Hy. rewrite Ew in Hx.
    destruct (lookup_lt_is_Some_2 (verlist b) y) as [rnums Hrn]; [lia|].
    destruct (lookup_lt_is_Some_2 (horlist b) x) as [cnums Hcn]; [lia|].
    destruct (seed_cells _ _ Hseed y x rnums cnums Hrn Hcn)
      as (rint & cint & r & c' & Hri & Hci & Hrx & Hcy & Hcell).
    rewrite Hcell in Hc. injection Hc as Hc.
    rewrite Forall_forall in Hver, Hhor.
    destruct r as [a|]; cbn in Hc.
    + injection Hc as ->. eapply (Hint rnums); [|exact Hri|exact Hrx].
      apply Hver. by eapply list_elem_of_lookup_2.
    + subst c'. eapply (Hint cnums); [|exact Hci|exact Hcy].
      apply Hhor. by eapply list_elem_of_lookup_2.
  - unfold poss_binary. rewrite (seed_verposs _ _ Hseed). apply Forall_fmap, Forall_forall.
    intros nums _ p Hp. by eapply get_numsposs_binary.
  - unfold poss_binary. rewrite (seed_horposs _ _ Hseed). apply Forall_fmap, Forall_forall.
    intros nums _ p Hp. by eapply get_numsposs_binary.
Qed.

(** ** Known cells stay known *)

Lemma prune_pass_known_kept b b' : board_ok b → prune_pass b b' → known_kept b b'.
Proof.
  intros Hok [Hb'|Hb'] y x c Hc.
  - destruct (ruleout_rows_spec b Hok) as (b1 & Hb1 & Hpass & _).
    rewrite Hb' in Hb1. injection Hb1 as <-.
    by apply (pass_rel_known rows cols rows_laws rows_cell_range b b' y x c (proj1 Hok)).
  - destruct (ruleout_cols_spec b Hok) as (b1 & Hb1 & Hpass & _).
    rewrite Hb' in Hb1. injection Hb1 as <-.
    by apply (pass_rel_known cols rows cols_laws cols_cell_range b b' x y c (proj1 Hok)).
Qed.

Lemma rtc_prune_pass_known_kept b b' :
  board_ok b → rtc prune_pass b b' → known_kept b b'.
Proof.
  intros Hok Hrtc. induction Hrtc as [b|b b1 b' Hstep _ IH]; [by intros y x c; eauto|].
  intros y x c Hc.
  destruct (prune_pass_known_kept b b1 Hok Hstep y x c Hc) as [c1 Hc1].
  eapply IH; [|exact Hc1]. by apply (prune_pass_spec b b1).
Qed.

(** ** [combine_known_nums] on lists of any two lengths *)

Lemma combine_from_ok i (numsA numsB : list cell) :
  (∀ j, numsA !! j = Some None → (i + j < length numsB)%nat) →
  combine_from i numsA numsB =
  Ok (imap (λ j A, merge_cell A (default None (numsB !! (i + j)%nat))) numsA).
Proof.
  revert i. induction numsA as [|A numsA IH]; intros i Hcov; [done|].
  cbn [combine_from imap].
  rewrite (IH (S i)).
  2:{ intros j Hj. specialize (Hcov (S j) Hj). lia. }
  assert (∀ f g : nat → cell → cell, (∀ j a, f j a = g j a) → imap f numsA = imap g numsA)
    as Hext by (intros f g Hfg; by apply imap_ext).
  rewrite (Hext (λ j A0, merge_cell A0 (default None (numsB !! (S i + j)%nat)))
             ((λ j A0, merge_cell A0 (default None (numsB !! (i + j)%nat))) ∘ S)).
  2:{ intros j a. cbn. by replace (i + S j)%nat with (S (i + j)) by lia. }
  destruct A as [a|]; cbn; [done|].
  rewrite Nat.add_0_r.
  destruct (numsB !! i) as [b|] eqn:Hb; [done|].
  apply lookup_ge_None_1 in Hb. specialize (Hcov 0%nat eq_refl). lia.
Qed.

Lemma combine_from_raise i (numsA numsB : list cell) :
  (∃ j, numsA !! j = Some None ∧ (length numsB ≤ i + j)%nat) →
  combine_from i numsA numsB = Raise IndexError.
Proof.
  revert i. induction numsA as [|A numsA IH]; intros i (j & Hj & Hlen); [done|].
  cbn [combine_from].
  destruct A as [a|].
  - destruct j as [|j]; [done|]. cbn in Hj.
    rewrite (IH (S i)); [done|]. exists j. split; [done|lia].
  - destruct (numsB !! i) as [b|] eqn:Hb; cbn.
    + destruct j as [|j].
      * apply lookup_lt_Some in Hb. lia.
      * cbn in Hj. rewrite (IH (S i)); [done|]. exists j. split; [done|lia].
    + done.
Qed.

Lemma uncovered_dec (numsA numsB : list cell) :
  uncovered numsA numsB ∨ ∀ j, numsA !! j = Some None → (j < length numsB)%nat.
Proof.
  destruct (decide (Exists (λ '(j, A), A = None ∧ (length numsB ≤ j)%nat)
                      (imap pair numsA))) as [H|H].
  - left. apply Exists_exists in H as ([j A] & Hin & HA' & Hlen). cbn in HA', Hlen. subst A.
    apply list_elem_of_lookup_1 in Hin as [k Hk].
    rewrite list_lookup_imap in Hk.
    destruct (numsA !! k) as [A|] eqn:HA; [|done]. cbn in Hk. injection Hk as -> ->.
    by exists j.
  - right. intros j Hj. destruct (decide (j < length numsB)%nat) as [|Hge]; [done|].
    exfalso. apply H, Exists_exists. exists (j, None). split; [|split; [done|lia]].
    apply list_elem_of_lookup. exists j. by rewrite list_lookup_imap, Hj.
Qed.

(** ** A pass repeated changes nothing *)

Lemma ruleout_line_again (nums : list cell) (X Y : gset pattern) line :
  set_Forall (λ p, length p = length nums) X →
  ruleout_line nums X = Ok (Y, line) →
  ruleout_line (default nums line) Y = Ok (Y, line).
Proof.
  intros Hlen Hline.
  destruct (ruleout_line_exact nums X Y line Hlen Hline) as [-> Hcase].
  unfold ruleout_line. destruct (only_candidate Y) as [vals|] eqn:E; [done|].
  change (default nums None) with nums.
  destruct Hcase as [[[p ->] ->]|[_ HY]].
  { assert (only_candidate ({[ p ]} : gset pattern) = Some (Some <$> p)) as E'
      by (apply only_candidate_Some; eauto).
    by rewrite E in E'. }
  destruct (prune_spec nums Y) as (Y' & HY' & Hiff).
  { intros p Hp. apply Hlen. by apply HY. }
  assert (Y' = Y) as ->.
  { apply set_eq. intros p. rewrite Hiff. split; [by intros []|].
    intros Hp. split; [done|]. by apply HY. }
  rewrite HY'. change (Ok (Y, only_candidate Y) = Ok (Y, None)). by rewrite E.
Qed.

Lemma board_ext b b' :
  shape_ok b → shape_ok b' → height b' = height b → width b' = width b →
  (∀ y x, cell_at b' y x = cell_at b y x) → board b' = board b.
Proof.
  intros [Hh Hw] [Hh' Hw'] Eh Ew Hcell. apply list_eq. intros y.
  destruct (board b' !! y) as [r'|] eqn:Hr', (board b !! y) as [r|] eqn:Hr.
  - f_equal. apply list_eq. intros x. specialize (Hcell y x).
    unfold cell_at in Hcell. by rewrite Hr', Hr in Hcell.
  - apply lookup_lt_Some in Hr'. apply lookup_ge_None_1 in Hr. lia.
  - apply lookup_ge_None_1 in Hr'. apply lookup_lt_Some in Hr. lia.
  - done.
Qed.

Lemma state_ext b b' :
  same_frame b b' → board b' = board b →
  verposs b' = verposs b → horposs b' = horposs b → b' = b.
Proof.
  intros [Hv Hh Hhe Hwi] Hb Hvp Hhp. destruct b, b'; cbn in *. by subst.
Qed.

Lemma rows_ext b b' :
  same_frame b b' → shape_ok b → shape_ok b' →
  (∀ k j, ax_cell rows b' k j = ax_cell rows b k j) →
  ax_poss rows b' = ax_poss rows b → ax_poss cols b' = ax_poss cols b → b' = b.
Proof.
  intros Hfr Hs Hs' Hcell Hp Ho. apply state_ext; [done| |done..].
  apply board_ext; [done|done|apply Hfr|apply Hfr|]. intros y x. apply (Hcell y x).
Qed.

Lemma cols_ext b b' :
  same_frame b b' → shape_ok b → shape_ok b' →
  (∀ k j, ax_cell cols b' k j = ax_cell cols b k j) →
  ax_poss cols b' = ax_poss cols b → ax_poss rows b' = ax_poss rows b → b' = b.
Proof.
  intros Hfr Hs Hs' Hcell Hp Ho. apply state_ext; [done| |done..].
  apply board_ext; [done|done|apply Hfr|apply Hfr|]. intros y x. apply (Hcell x y).
Qed.

Section pass_again.
Context (ax other : axis) (laws : axis_laws ax other).
Context (cell_range : ∀ b k j v, shape_ok b → ax_cell ax b k j = Some v →
                                 (k < ax_lines ax b)%nat).
Context (ext : ∀ b b', same_frame b b' → shape_ok b → shape_ok b' →
                       (∀ k j, ax_cell ax b' k j = ax_cell ax b k j) →
                       ax_poss ax b' = ax_poss ax b → ax_poss other b' = ax_poss other b →
                       b' = b).

Lemma ruleout_fixed b :
  shape_ok b → poss_ok ax b →
  (∀ k, (k < ax_lines ax b)%nat → line_settled ax b k) →
  ruleout ax b = Ok b.
Proof.
  intros Hs Hp Hset.
  destruct (ruleout_spec ax other laws b Hs Hp) as (b' & Hb' & Hpass).
  rewrite Hb'. f_equal.
  pose proof (ruleout_linewise ax other laws b b' Hs Hp Hb') as Hdone.
  destruct (law_dims _ _ laws b b' (pass_frame _ _ _ _ Hpass)) as [Hlines Hlen].
  apply ext; [apply Hpass|done|apply Hpass| | |apply Hpass].
  - intros k j. destruct (decide (k < ax_lines ax b)%nat) as [Hk|Hk].
    + destruct (Hdone k Hk) as (nums & X & Y & line & Hg & HX & Hline & HY & Hc).
      destruct (Hset k Hk nums X Hg HX) as (line' & Hline' & Hdef).
      rewrite Hline in Hline'. injection Hline' as -> <-.
      rewrite <- Hc, Hdef.
      destruct (law_get _ _ laws b k Hs Hk) as (n0 & Hn0 & _ & Hcells).
      rewrite Hg in Hn0. injection Hn0 as <-. apply Hcells.
    + destruct (ax_cell ax b' k j) as [v'|] eqn:Hv'.
      { apply cell_range in Hv'; [lia|apply Hpass]. }
      destruct (ax_cell ax b k j) as [v|] eqn:Hv; [|done].
      apply cell_range in Hv; [lia|done].
  - apply list_eq. intros k. destruct (decide (k < ax_lines ax b)%nat) as [Hk|Hk].
    + destruct (Hdone k Hk) as (nums & X & Y & line & Hg & HX & Hline & HY & Hc).
      destruct (Hset k Hk nums X Hg HX) as (line' & Hline' & Hdef).
      rewrite Hline in Hline'. injection Hline' as -> <-.
      by rewrite HX, HY.
    + destruct Hp as [Hpl _]. destruct (pass_poss_ok _ _ _ _ Hpass) as [Hpl' _].
      rewrite !lookup_ge_None_2; [done|lia|lia].
Qed.

Lemma settled_after_pass b b' b2 :
  shape_ok b → poss_ok ax b → ruleout ax b = Ok b' →
  shape_ok b2 → same_frame b' b2 →
  (∀ k j, ax_cell ax b2 k j = ax_cell ax b' k j) →
  ax_poss ax b2 = ax_poss ax b' →
  ∀ k, (k < ax_lines ax b)%nat → line_settled ax b2 k.
Proof.
  intros Hs Hp Hb' Hs2 Hfr2 Hcell2 Hposs2 k Hk nums2 X2 Hg2 HX2.
  destruct (ruleout_linewise ax other laws b b' Hs Hp Hb' k Hk)
    as (nums & X & Y & line & Hg & HX & Hline & HY & Hc).
  destruct (ruleout_spec ax other laws b Hs Hp) as (b1 & Hb1 & Hpass).
  rewrite Hb' in Hb1. injection Hb1 as <-.
  destruct (law_dims _ _ laws b b' (pass_frame _ _ _ _ Hpass)) as [Hlines Hlen].
  destruct (law_dims _ _ laws b' b2 Hfr2) as [Hlines2 Hlen2].
  destruct (law_get _ _ laws b k Hs Hk) as (n0 & Hn0 & Hn0l & _).
  rewrite Hg in Hn0. injection Hn0 as <-.
  destruct (law_get _ _ laws b2 k Hs2) as (n2 & Hn2 & _ & Hcells2); [lia|].
  rewrite Hg2 in Hn2. injection Hn2 as <-.
  rewrite Hposs2, HY in HX2. injection HX2 as <-.
  assert (nums2 = default nums line) as ->.
  { apply list_eq. intros j. by rewrite Hcells2, Hcell2, Hc. }
  exists line. split.
  - apply (ruleout_line_again nums X); [|done].
    rewrite Hn0l. destruct Hp as [_ Hpf]. rewrite Forall_forall in Hpf.
    apply Hpf. by eapply list_elem_of_lookup_2.
  - by destruct line.
Qed.

Lemma ruleout_again b b' :
  shape_ok b → poss_ok ax b → ruleout ax b = Ok b' → ruleout ax b' = Ok b'.
Proof.
  intros Hs Hp Hb'.
  destruct (ruleout_spec ax other laws b Hs Hp) as (b1 & Hb1 & Hpass).
  rewrite Hb' in Hb1. injection Hb1 as <-.
  destruct (law_dims _ _ laws b b' (pass_frame _ _ _ _ Hpass)) as [Hlines Hlen].
  apply ruleout_fixed; [apply Hpass|apply Hpass|].
  rewrite Hlines.
  apply (settled_after_pass b b' b'); [done..|apply Hpass|apply same_frame_refl|done|done].
Qed.
End pass_again.

(** ** Giving up happens at a fixed point *)

Lemma count_unknown_same (r r' : list cell) :
  length r' = length r →
  (∀ x c, r !! x = Some (Some c) → r' !! x = Some (Some c)) →
  (count_unknown r' ≤ count_unknown r)%nat ∧
  (count_unknown r' = count_unknown r → r' = r).
Proof.
  unfold count_unknown. revert r'.
  induction r as [|c r IH]; intros [|c' r'] Hlen Hkeep; try done.
  cbn in Hlen. destruct (IH r') as [Hle Heq]; [lia|intros x; apply (Hkeep (S x))|].
  rewrite !filter_cons.
  destruct c as [a|].
  - specialize (Hkeep 0%nat a eq_refl). cbn in Hkeep. injection Hkeep as ->.
    rewrite !decide_False by done. split; [done|]. intros E. f_equal. by apply Heq.
  - rewrite (decide_True (P := None = None)) by done. cbn [length].
    destruct c' as [a'|].
    + rewrite decide_False by done. split; [lia|lia].
    + rewrite decide_True by done. cbn [length]. split; [lia|].
      intros E. f_equal. apply Heq. lia.
Qed.

Lemma remaining_same_rows (B B' : list (list cell)) :
  Forall2 (λ r r', length r' = length r ∧
                   ∀ x c, r !! x = Some (Some c) → r' !! x = Some (Some c)) B B' →
  length (filter (λ c : cell, c = None) (concat B')) =
  length (filter (λ c : cell, c = None) (concat B)) →
  B' = B.
Proof.
  intros HF.
  assert ((length (filter (λ c : cell, c = None) (concat B')) ≤
           length (filter (λ c : cell, c = None) (concat B)))%nat ∧
          (length (filter (λ c : cell, c = None) (concat B')) =
           length (filter (λ c : cell, c = None) (concat B)) → B' = B)) as [_ H]; [|done].
  induction HF as [|r r' B B' [Hlen Hkeep] _ [IHle IHeq]]; [done|].
  cbn [concat]. rewrite !filter_app, !length_app.
  destruct (count_unknown_same r r' Hlen Hkeep) as [Hle Heq].
  unfold count_unknown in Hle, Heq. split; [lia|].
  intros E. f_equal; [apply Heq|apply IHeq]; lia.
Qed.

Lemma board_same_of_remaining b b' :
  shape_ok b → shape_ok b' → same_frame b b' →
  (∀ y x c, cell_at b y x = Some (Some c) → cell_at b' y x = Some (Some c)) →
  remaining_squares b' = remaining_squares b → board b' = board b.
Proof.
  intros [Hh Hw] [Hh' Hw'] [_ _ Eh Ew] Hkeep Hrem.
  apply remaining_same_rows; [|done].
  apply Forall2_same_length_lookup. split; [lia|].
  intros y r r' Hr Hr'. rewrite Forall_forall in Hw, Hw'. split.
  - rewrite (Hw r), (Hw' r'); [done|by eapply list_elem_of_lookup_2..].
  - intros x c Hx. specialize (Hkeep y x c). unfold cell_at in Hkeep.
    rewrite Hr, Hr' in Hkeep. by apply Hkeep.
Qed.

Lemma fits_keeps_values g b b' :
  fits g b' → known_kept b b' →
  ∀ y x c, cell_at b y x = Some (Some c) → fits g b → cell_at b' y x = Some (Some c).
Proof.
  intros (_ & _ & Hc') Hkept y x c Hc (_ & _ & Hcb).
  destruct (Hkept y x c Hc) as [c' Hc'']. rewrite Hc''.
  by rewrite <- (Hcb y x c Hc), (Hc' y x c' Hc'').
Qed.

Lemma cycle_fixed_of_stall g b b2 :
  board_ok b → fits g b → cycle b = Ok b2 →
  remaining_squares b2 = remaining_squares b → cycle b2 = Ok b2.
Proof.
  intros Hok Hfit Hcyc Hrem. unfold cycle in Hcyc.
  destruct (ruleout_rows_spec b Hok) as (b1 & Hb1 & Hpass1 & Hok1 & Hle1).
  rewrite Hb1 in Hcyc. cbn in Hcyc.
  destruct (ruleout_cols_spec b1 Hok1) as (b2' & Hb2 & Hpass2 & Hok2 & Hle2).
  rewrite Hcyc in Hb2. injection Hb2 as <-.
  assert (fits g b1) as Hfit1 by (apply (prune_pass_fits g b b1); [done|by left|done]).
  assert (fits g b2) as Hfit2 by (apply (prune_pass_fits g b1 b2); [done|by right|done]).
  assert (board b2 = board b1) as Hbrd2.
  { apply board_same_of_remaining; [apply Hok1|apply Hok2|apply Hpass2| |lia].
    intros y x c Hc. eapply (fits_keeps_values g b1 b2); [done| |done|done].
    apply prune_pass_known_kept; [done|by right]. }
  assert (ruleout_rows b2 = Ok b2) as Hr.
  { change (ruleout rows b2 = Ok b2).
    apply (ruleout_fixed rows cols rows_laws rows_cell_range rows_ext);
      [apply Hok2|apply Hok2|].
    intros k Hk.
    apply (settled_after_pass rows cols rows_laws b b1 b2);
      [apply Hok|apply Hok|done|apply Hok2|apply Hpass2| | |].
    - intros y x. cbn. unfold cell_at. by rewrite Hbrd2.
    - apply (pass_other _ _ _ _ Hpass2).
    - destruct (pass_frame _ _ _ _ Hpass1) as [_ _ E1 _].
      destruct (pass_frame _ _ _ _ Hpass2) as [_ _ E2 _]. cbn in *. lia. }
  unfold cycle. rewrite Hr. cbn.
  change (ruleout cols b2 = Ok b2).
  apply (ruleout_again cols rows cols_laws cols_cell_range cols_ext b1 b2);
    [apply Hok1|apply Hok1|done].
Qed.

Lemma solve_loop_stall cycles b b' :
  board_ok b → solve_loop cycles b = Some (Ok (b', ReturnNone)) →
  ∃ b0, rtc prune_pass b b0 ∧ cycle b0 = Ok b' ∧
        remaining_squares b' = remaining_squares b0 ∧ remaining_squares b0 ≠ 0%nat.
Proof.
  revert b. induction cycles as [|cycles IH]; intros b Hok Hloop;
    rewrite solve_loop_unfold in Hloop;
    destruct (decide (remaining_squares b = 0%nat)) as [|Hne]; try done.
  destruct (cycle_spec b Hok) as (b2 & Hb2 & Hok2 & _).
  rewrite Hb2 in Hloop.
  assert (rtc prune_pass b b2) as Hrtc.
  { unfold cycle in Hb2. destruct (ruleout_rows b) as [b1|] eqn:Hb1; [|done]. cbn in Hb2.
    eapply rtc_l; [by left|]. eapply rtc_l; [by right|]. apply rtc_refl. }
  destruct (decide (remaining_squares b = remaining_squares b2)) as [E|E].
  - injection Hloop as <-. exists b. split; [apply rtc_refl|]. done.
  - destruct (IH b2 Hok2 Hloop) as (b0 & Hb0 & ?). exists b0. split; [|done].
    by etrans.
Qed.

(** ** Seeding starts from the hints alone *)

Lemma seeded_unique b1 b2 b1' b2' :
  hints_ok b1 → same_frame b1 b2 → seeded b1 b1' → seeded b2 b2' → b1' = b2'.
Proof.
  intros Hh [Ev Eho Ehe Ewi] S1 S2.
  pose proof (seed_frame _ _ S1) as [Ev1 Eh1 Ehe1 Ewi1].
  pose proof (seed_frame _ _ S2) as [Ev2 Eh2 Ehe2 Ewi2].
  destruct Hh as [Hhe Hwi _ _].
  apply state_ext.
  - split; congruence.
  - apply board_ext; [apply S2|apply S1|congruence..|].
    intros y x.
    destruct (decide (y < height b1 ∧ x < width b1)%nat) as [[Hy Hx]|Hout].
    + destruct (lookup_lt_is_Some_2 (verlist b1) y) as [rnums Hrn]; [lia|].
      destruct (lookup_lt_is_Some_2 (horlist b1) x) as [cnums Hcn]; [lia|].
      destruct (seed_cells _ _ S1 y x rnums cnums Hrn Hcn)
        as (rint & cint & r & c & Hri & Hci & Hr & Hc & ->).
      destruct (seed_cells _ _ S2 y x rnums cnums) as
        (rint' & cint' & r' & c' & Hri' & Hci' & Hr' & Hc' & ->); [congruence..|].
      unfold row_poss, col_poss in *. rewrite Ewi, Hri in Hri'. rewrite Ehe, Hci in Hci'.
      injection Hri' as <-. injection Hci' as <-. congruence.
    + destruct (cell_at b1' y x) as [v|] eqn:Hv.
      { apply cell_at_range in Hv as [? ?]; [|apply S1]. lia. }
      destruct (cell_at b2' y x) as [v|] eqn:Hv'; [|done].
      apply cell_at_range in Hv' as [? ?]; [|apply S2]. lia.
  - rewrite (seed_verposs _ _ S1), (seed_verposs _ _ S2). unfold row_poss.
    by rewrite Ev, Ewi.
  - rewrite (seed_horposs _ _ S1), (seed_horposs _ _ S2). unfold col_poss.
    by rewrite Eho, Ehe.
Qed.

Lemma hints_ok_frame b b' : same_frame b b' → hints_ok b → hints_ok b'.
Proof.
  intros [Ev Eh Ehe Ewi] [Hhe Hwi Hv Hh]. split; congruence.
Qed.

Lemma infeasible_frame b b' : same_frame b b' → infeasible b → infeasible b'.
Proof.
  intros [Ev Eh Ehe Ewi]. unfold infeasible, row_poss, col_poss.
  by rewrite Ev, Eh, Ehe, Ewi.
Qed.

Lemma initial_possibilities_frame b1 b2 :
  shape_ok b1 → shape_ok b2 → hints_ok b1 → same_frame b1 b2 →
  initial_possibilities b2 = initial_possibilities b1.
Proof.
  intros Hs1 Hs2 Hh Hfr.
  pose proof (hints_ok_frame b1 b2 Hfr Hh) as Hh2.
  destruct (initial_possibilities_spec b1 Hs1 Hh) as [(b1' & E1 & S1)|[E1 I1]],
           (initial_possibilities_spec b2 Hs2 Hh2) as [(b2' & E2 & S2)|[E2 I2]].
  - rewrite E1, E2. f_equal. symmetry. by apply (seeded_unique b1 b2).
  - exfalso. apply (seeded_feasible b1 b1' S1). apply (infeasible_frame b2 b1); [|done].
    destruct Hfr. split; congruence.
  - exfalso. apply (seeded_feasible b2 b2' S2). by apply (infeasible_frame b1 b2).
  - by rewrite E1, E2.
Qed.

Lemma solve_frame b1 b2 :
  shape_ok b1 → shape_ok b2 → hints_ok b1 → same_frame b1 b2 → solve b2 = solve b1.
Proof.
  intros Hs1 Hs2 Hh Hfr. unfold solve, solve_within.
  rewrite (initial_possibilities_frame b1 b2) by done.
  destruct Hfr as [_ _ -> ->]. done.
Qed.

(** ** Rendering *)

Lemma str_join_cons sep s l :
  str_join sep (s :: l) = s ++ (if decide (l = []) then [] else sep ++ str_join sep l).
Proof. destruct l; cbn; [by rewrite app_nil_r|done]. Qed.

Lemma elem_of_str_join (c : N) sep l :
  c ∈ str_join sep l ↔ (∃ s, s ∈ l ∧ c ∈ s) ∨ (c ∈ sep ∧ (2 ≤ length l)%nat).
Proof.
  induction l as [|s l IH].
  - cbn. split; [by intros ?%elem_of_nil|].
    intros [(s & Hs & _)|[_ ?]]; [by apply elem_of_nil in Hs|lia].
  - rewrite str_join_cons. destruct (decide (l = [])) as [->|Hne].
    + rewrite app_nil_r. split.
      * intros Hc. left. exists s. split; [apply list_elem_of_here|done].
      * intros [(s' & Hs' & Hc)|[_ Hl]]; [|cbn in Hl; lia].
        apply list_elem_of_singleton in Hs'. by subst.
    + rewrite !elem_of_app, IH. split.
      * intros [Hc|[Hc|[(s' & Hs' & Hc)|[Hc Hl]]]].
        -- left. exists s. split; [apply list_elem_of_here|done].
        -- right. split; [done|]. destruct l; [done|cbn; lia].
        -- left. exists s'. split; [by apply list_elem_of_further|done].
        -- right. split; [done|cbn; lia].
      * intros [(s' & Hs' & Hc)|[Hc Hl]].
        -- apply elem_of_cons in Hs' as [->|Hs']; [by left|].
           right. right. left. eauto.
        -- right. by left.
Qed.

Lemma app_sep_inj (c : N) (s1 s2 t1 t2 : ustr) :
  c ∉ s1 → c ∉ s2 →
  (t1 = [] ∨ ∃ u, t1 = c :: u) → (t2 = [] ∨ ∃ u, t2 = c :: u) →
  s1 ++ t1 = s2 ++ t2 → s1 = s2 ∧ t1 = t2.
Proof.
  revert s2. induction s1 as [|a s1 IH]; intros [|a' s2] H1 H2 Ht1 Ht2 E; cbn in E.
  - done.
  - exfalso. destruct Ht1 as [->|[u ->]]; [done|]. injection E as <- _.
    apply H2, list_elem_of_here.
  - exfalso. destruct Ht2 as [->|[u ->]]; [done|]. injection E as -> _.
    apply H1, list_elem_of_here.
  - injection E as <- E.
    destruct (IH s2) as [-> ->]; try done.
    + intros ?. apply H1. by apply list_elem_of_further.
    + intros ?. apply H2. by apply list_elem_of_further.
Qed.

Lemma str_join_inj (c : N) (l1 l2 : list ustr) :
  l1 ≠ [] → l2 ≠ [] →
  Forall (λ s, c ∉ s) l1 → Forall (λ s, c ∉ s) l2 →
  str_join [c] l1 = str_join [c] l2 → l1 = l2.
Proof.
  revert l2. induction l1 as [|s1 l1 IH]; intros [|s2 l2] Hn1 Hn2 H1 H2 E; try done.
  rewrite !str_join_cons in E.
  apply Forall_cons in H1 as [Hs1 H1]. apply Forall_cons in H2 as [Hs2 H2].
  apply (app_sep_inj c) in E as [-> E]; try done.
  - f_equal. destruct (decide (l1 = [])) as [->|Hne1], (decide (l2 = [])) as [->|Hne2];
      try done.
    apply IH; try done. by injection E.
  - destruct (decide (l1 = [])); [by left|right; cbn; eauto].
  - destruct (decide (l2 = [])); [by left|right; cbn; eauto].
Qed.

Lemma format_cell_inj (c1 c2 : cell) :
  (∀ a, c1 = Some a → a = "0" ∨ a = "1") →
  (∀ a, c2 = Some a → a = "0" ∨ a = "1") →
  format_cell c1 = format_cell c2 → c1 = c2.
Proof.
  intros H1 H2. unfold format_cell.
  destruct c1 as [a1|], c2 as [a2|]; try done.
  - destruct (H1 a1 eq_refl) as [-> | ->], (H2 a2 eq_refl) as [-> | ->]; by cbn.
  - destruct (decide (a1 = "1")); done.
  - destruct (decide (a2 = "1")); done.
Qed.

Lemma format_cell_plain (c : cell) :
  (32%N ∉ format_cell c) ∧ (10%N ∉ format_cell c).
Proof.
  unfold format_cell. destruct c as [a|]; [destruct (decide (a = "1"))|];
    split; intros H; apply list_elem_of_singleton in H; done.
Qed.

Lemma format_nums_inj (r1 r2 : list cell) :
  length r1 = length r2 →
  Forall (λ c, ∀ a, c = Some a → a = "0" ∨ a = "1") r1 →
  Forall (λ c, ∀ a, c = Some a → a = "0" ∨ a = "1") r2 →
  format_nums r1 = format_nums r2 → r1 = r2.
Proof.
  intros Hlen H1 H2 E. unfold format_nums in E.
  destruct r1 as [|c1 r1], r2 as [|c2 r2]; try done.
  apply str_join_inj in E; try done.
  - revert E H1 H2. generalize (c1 :: r1) (c2 :: r2). clear.
    induction l as [|a l IH]; intros [|a' l'] E H1 H2; try done.
    cbn in E. injection E as E E'.
    apply Forall_cons in H1 as [Ha H1]. apply Forall_cons in H2 as [Ha' H2].
    f_equal; [by apply format_cell_inj|by apply IH].
  - apply Forall_fmap, Forall_forall. intros c _. apply format_cell_plain.
  - apply Forall_fmap, Forall_forall. intros c _. apply format_cell_plain.
Qed.

Lemma format_nums_no_newline (r : list cell) : 10%N ∉ format_nums r.
Proof.
  unfold format_nums. rewrite elem_of_str_join.
  intros [(s & Hs & Hc)|[Hc _]].
  - apply list_elem_of_fmap in Hs as (c & -> & _). by apply (format_cell_plain c).
  - by apply list_elem_of_singleton in Hc.
Qed.

Lemma cells_binary_rows b :
  cells_binary b →
  Forall (Forall (λ c : cell, ∀ a, c = Some a → a = "0" ∨ a = "1")) (board b).
Proof.
  unfold cells_binary. intros H. eapply Forall_impl; [exact H|]. cbn.
  intros row Hrow. eapply Forall_impl; [exact Hrow|]. cbn.
  intros c [->|[-> | ->]] a [= <-]; auto.
Qed.

Lemma PicrossBoard_str_inj b1 b2 :
  shape_ok b1 → shape_ok b2 → height b2 = height b1 → width b2 = width b1 →
  cells_binary b1 → cells_binary b2 →
  PicrossBoard_str b1 = PicrossBoard_str b2 → board b1 = board b2.
Proof.
  intros [Hh1 Hw1] [Hh2 Hw2] Eh Ew Hb1%cells_binary_rows Hb2%cells_binary_rows E.
  unfold PicrossBoard_str in E. fold format_nums in E.
  assert (format_nums <$> board b1 = format_nums <$> board b2) as E'.
  { destruct (board b1) as [|r1 B1] eqn:EB1, (board b2) as [|r2 B2] eqn:EB2;
      [done|cbn in *; lia|cbn in *; lia|].
    apply (str_join_inj 10%N); try done;
      apply Forall_fmap, Forall_forall; intros r _; apply format_nums_no_newline. }
  clear E. revert E' Hh1 Hw1 Hh2 Hw2 Hb1 Hb2 Eh Ew.
  generalize (height b1) (height b2) (board b1) (board b2). intros h1 h2 B1.
  revert h1 h2. induction B1 as [|r1 B1 IH]; intros h1 h2 [|r2 B2] E Hh1 Hw1 Hh2 Hw2 Hb1 Hb2 Eh Ew;
    try done.
  cbn in E. injection E as E E'.
  apply Forall_cons in Hw1 as [Hr1 Hw1]. apply Forall_cons in Hw2 as [Hr2 Hw2].
  apply Forall_cons in Hb1 as [Hc1 Hb1]. apply Forall_cons in Hb2 as [Hc2 Hb2].
  f_equal.
  - apply format_nums_inj; [lia|done..].
  - cbn in Hh1, Hh2. apply (IH (pred h1) (pred h2)); try done; lia.
Qed.

(** ** Construction from hint strings *)

Lemma split_nonempty sep s : split sep s ≠ [].
Proof.
  destruct s as [|c s]; [done|]. cbn.
  destruct (decide (c = sep)); [done|]. by destruct (split sep s).
Qed.

Lemma comprehension_ok {A B} (f : A → result B) (l : list A) (bs : list B) :
  comprehension f l = Ok bs ↔ Forall2 (λ a b, f a = Ok b) l bs.
Proof.
  revert bs. induction l as [|a l IH]; intros bs; cbn.
  - split; [by intros [= <-]|by intros ->%Forall2_nil_inv_l].
  - destruct (f a) as [b|e] eqn:Hf; cbn.
    + destruct (comprehension f l) as [bs'|e] eqn:Hc; cbn.
      * split.
        -- intros [= <-]. constructor; [done|by apply IH].
        -- intros (b' & bs'' & Hb & Hbs & ->)%Forall2_cons_inv_l.
           apply IH in Hbs. congruence.
      * split; [done|].
        intros (b' & bs'' & Hb & Hbs & ->)%Forall2_cons_inv_l. by apply IH in Hbs.
    + split; [done|].
      intros (b' & bs'' & Hb & Hbs & ->)%Forall2_cons_inv_l. congruence.
Qed.

Lemma parse_hint_nonempty int string nums :
  parse_hint int string = Ok nums → nums ≠ [].
Proof.
  unfold parse_hint. intros H%comprehension_ok ->.
  apply Forall2_nil_inv_r in H. by apply (split_nonempty " " string).
Qed.

Lemma remaining_squares_init horlist verlist :
  remaining_squares (PicrossBoard_init horlist verlist) =
  (length verlist * length horlist)%nat.
Proof.
  unfold remaining_squares, PicrossBoard_init. cbn.
  generalize (length horlist) as w. intros w.
  assert (length (filter (λ c : cell, c = None) (replicate w None)) = w) as Hrow.
  { induction w as [|w IH]; [done|].
    cbn [replicate]. rewrite filter_cons, decide_True by done. cbn. by rewrite IH. }
  induction (length verlist) as [|h IH]; [done|].
  cbn [replicate concat]. rewrite filter_app, length_app, IH, Hrow. lia.
Qed.

(** ** Lemmas for the exact description of the enumerator and of a pass *)

Lemma runs_from_all_zeros n : runs_from 0 (replicate n "0") = [].
Proof. induction n as [|n IH]; [done|]. cbn. by rewrite IH. Qed.

Lemma binary_replicate_zero n : binary (replicate n "0").
Proof. apply Forall_replicate. by left. Qed.

Lemma blocks_of_positive nums :
  nums ≠ [] → Forall (λ n, 0 < n) nums → blocks_of nums = nums ∧ hint_ok nums.
Proof.
  intros Hne Hpos. split.
  - unfold blocks_of. destruct (decide (nums = [0])) as [->|]; [|done].
    apply Forall_cons in Hpos as [? _]. lia.
  - split; [done|]. eapply Forall_impl; [exact Hpos|]. cbn. intros; lia.
Qed.

Section pass_exactly.
Context (ax other : axis) (laws : axis_laws ax other).

Lemma ruleout_pass_exact b b' :
  shape_ok b → poss_ok ax b → ruleout ax b = Ok b' → pass_exact ax b b'.
Proof.
  intros Hs Hp Hb' k Hk.
  destruct (ruleout_linewise ax other laws b b' Hs Hp Hb' k Hk)
    as (nums & X & Y & line & Hg & HX & Hline & HY & Hc).
  destruct (ruleout_spec ax other laws b Hs Hp) as (b1 & Hb1 & Hpass).
  rewrite Hb' in Hb1. injection Hb1 as <-.
  destruct (law_dims _ _ laws b b' (pass_frame _ _ _ _ Hpass)) as [Hlines Hlen].
  destruct (law_get _ _ laws b k Hs Hk) as (n0 & Hn0 & Hn0l & _).
  rewrite Hg in Hn0. injection Hn0 as <-.
  exists nums, X, (default nums line), Y. split; [done|]. split; [done|]. split.
  { apply (get_unique ax other laws); [apply Hpass|lia|]. intros j. apply Hc. }
  split; [done|].
  destruct (ruleout_line_exact nums X Y line) as [-> Hcase]; [|done|].
  { rewrite Hn0l. destruct Hp as [_ Hpf]. rewrite Forall_forall in Hpf.
    apply Hpf. by eapply list_elem_of_lookup_2. }
  split; [done|].
  destruct (only_candidate Y) as [vals|] eqn:E.
  - left. apply only_candidate_Some in E as (p & -> & ->). eauto.
  - right. split; [|done]. intros [p ->].
    assert (only_candidate ({[ p ]} : gset pattern) = Some (Some <$> p)) as E'
      by (apply only_candidate_Some; eauto).
    by rewrite E in E'.
Qed.
End pass_exactly.

Lemma remaining_zero_all_known b :
  remaining_squares b = 0%nat → Forall (Forall (λ c : cell, c ≠ None)) (board b).
Proof.
  unfold remaining_squares. intros Hz. apply length_zero_iff_nil in Hz.
  apply Forall_forall. intros row Hrow. apply Forall_forall. intros c Hc ->.
  assert (None ∈ filter (λ c : cell, c = None) (concat (board b))) as Hin.
  { apply list_elem_of_filter. split; [done|].
    apply list_elem_of_In, in_concat. exists row. by split; apply list_elem_of_In. }
  rewrite Hz in Hin. by apply elem_of_nil in Hin.
Qed.

Lemma solve_alphabet b b' r :
  shape_ok b → hints_ok b → solve b = Some (Ok (b', r)) →
  alphabet_ok b' ∧ (r = ReturnSelf → remaining_squares b' = 0%nat).
Proof.
  intros Hs Hh Hsolve.
  destruct (initial_possibilities_spec b Hs Hh) as [(b0 & Hinit & Hseed)|[Hinit _]].
  2:{ unfold solve, solve_within in Hsolve. by rewrite Hinit in Hsolve. }
  destruct (solve_spec b b0 Hs Hh Hinit) as (_ & b1 & r1 & Hsolve1 & Hend).
  rewrite Hsolve in Hsolve1. injection Hsolve1 as <- <-.
  split; [|apply Hend].
  unfold solve, solve_within in Hsolve. rewrite Hinit in Hsolve.
  apply (rtc_prune_pass_alphabet b0 b').
  - by eapply seeded_board_ok.
  - by eapply solve_loop_passes.
  - by eapply seeded_alphabet.
Qed.

Lemma solve_loop_known_kept cycles b b' r :
  board_ok b → solve_loop cycles b = Some (Ok (b', r)) → known_kept b b'.
Proof.
  intros Hok Hloop. apply rtc_prune_pass_known_kept; [done|]. by eapply solve_loop_passes.
Qed.

Lemma solved_cells g b b' :
  shape_ok b → hints_ok b → solution g b → solve b = Some (Ok (b', ReturnSelf)) →
  ∀ y x, (y < height b)%nat → (x < width b)%nat → cell_at b' y x = Some (Some (g y x)).
Proof.
  intros Hs Hh Hsol Hsolve y x Hy Hx.
  destruct (solve_sound g b Hs Hh Hsol) as (b1 & r1 & Hsolve1 & Hok & Hfr & Hfit & Hself).
  rewrite Hsolve in Hsolve1. injection Hsolve1 as <- <-.
  destruct Hfr as [_ _ Eh Ew].
  destruct (remaining_zero_known b' y x) as [c Hc];
    [apply Hok|by apply Hself|lia|lia|].
  rewrite Hc. destruct Hfit as (_ & _ & Hcells). by rewrite (Hcells y x c Hc).
Qed.

(** * The claims *)

(** ** C1 *)

(** C1, as stated, fails on [board3]: propagation stalls with all four
    cells unknown and [solve] returns [None], not the board. *)
Lemma solve_stalled_returns_None :
  solve ex_ambiguous = Some (Ok (solved_of ex_ambiguous, ReturnNone)) ∧
  remaining_squares (solved_of ex_ambiguous) = 4%nat ∧
  board (solved_of ex_ambiguous) = [[None; None]; [None; None]].
Proof. split_and!; vm_compute; reflexivity. Qed.

(** C1, amended. On a board built from hints of non-negative blocks whose
    seeding does not raise, [solve] ends, the board object keeps its hints
    and dimensions, and the answer is the board itself exactly when no
    unknown cell is left (Solved). Otherwise a full cycle has left the
    number of unknown cells unchanged above zero (Stalled) and the answer
    is [None]; the partial grid is on the mutated board object only. *)
Theorem solve_returns_self_or_None horlist verlist b0 :
  Forall hint_ok horlist → Forall hint_ok verlist →
  initial_possibilities (PicrossBoard_init horlist verlist) = Ok b0 →
  ∃ b' r,
    solve (PicrossBoard_init horlist verlist) = Some (Ok (b', r)) ∧
    same_frame (PicrossBoard_init horlist verlist) b' ∧
    ((r = ReturnSelf ∧ remaining_squares b' = 0%nat) ∨
     (r = ReturnNone ∧ (0 < remaining_squares b')%nat ∧
      ∃ b1, cycle b1 = Ok b' ∧ remaining_squares b1 = remaining_squares b')).
Proof.
  intros Hhor Hver Hinit.
  destruct (solve_spec _ b0 (shape_ok_init horlist verlist)
              (hints_ok_init horlist verlist Hhor Hver) Hinit)
    as (Hseed & b' & r & Hsolve & Hend).
  exists b', r. split; [done|].
  split; [eapply same_frame_trans; [apply Hseed|apply Hend]|].
  destruct r.
  - left. split; [done|]. by apply (end_self _ _ _ Hend).
  - right. split; [done|]. split; [|by apply (end_none _ _ _ Hend)].
    destruct (remaining_squares b') eqn:E; [|lia].
    by apply (end_self _ _ _ Hend) in E.
Qed.

Lemma solve_returns_self_or_None_witness :
  ∃ b' r,
    solve ex_ambiguous = Some (Ok (b', r)) ∧ same_frame ex_ambiguous b' ∧
    ((r = ReturnSelf ∧ remaining_squares b' = 0%nat) ∨
     (r = ReturnNone ∧ (0 < remaining_squares b')%nat ∧
      ∃ b1, cycle b1 = Ok b' ∧ remaining_squares b1 = remaining_squares b')).
Proof.
  apply (solve_returns_self_or_None [[1]; [1]] [[1]; [1]] (seeded_of ex_ambiguous)).
  - repeat constructor; (done || lia).
  - repeat constructor; (done || lia).
  - vm_compute. reflexivity.
Defined.

(** ** C2 *)

(** C2, as stated, fails on [ex_contradictory]: seeding leaves three
    candidates for the middle column, pruning removes all three, and
    [solve] returns [None] as for any stalled board. *)
Lemma emptied_set_reported_as_stalled :
  initial_possibilities ex_contradictory = Ok (seeded_of ex_contradictory) ∧
  horposs (seeded_of ex_contradictory) !! 1%nat
  = Some {[ pat "001"; pat "010"; pat "100" ]} ∧
  solve ex_contradictory = Some (Ok (solved_of ex_contradictory, ReturnNone)) ∧
  horposs (solved_of ex_contradictory) !! 1%nat = Some ∅ ∧
  remaining_squares (solved_of ex_contradictory) = 7%nat.
Proof. split_and!; vm_compute; reflexivity. Qed.

(** C2, amended. When pruning removes the last pattern of a line nothing
    is raised or recorded: on every well-formed state both passes return,
    a line whose candidate set has become empty keeps the cells it had,
    and the loop ends with one of its two ordinary answers. *)
Theorem emptied_set_is_not_reported b :
  board_ok b →
  (∃ b', ruleout_rows b = Ok b' ∧
         ∀ y nums, board b !! y = Some nums → verposs b' !! y = Some ∅ →
                   board b' !! y = Some nums) ∧
  (∃ b', ruleout_cols b = Ok b' ∧
         ∀ x nums, get_col b x = Ok nums → horposs b' !! x = Some ∅ →
                   get_col b' x = Ok nums) ∧
  (∃ b' r, solve_loop (height b * width b) b = Some (Ok (b', r))).
Proof.
  intros Hok. split; [|split].
  - destruct (ruleout_rows_spec b Hok) as (b' & Hb' & Hpass & _).
    exists b'. split; [done|]. intros y nums Hrow HY.
    destruct (pass_lines _ _ _ _ Hpass y) as (n0 & X0 & n1 & Y & Hg & _ & Hg' & HY' & Hstep).
    { cbn. destruct Hok as ([Hl _] & _). rewrite <- Hl. by eapply lookup_lt_Some. }
    cbn in Hg, Hg', HY'. unfold get_row, index in Hg, Hg'.
    rewrite Hrow in Hg. injection Hg as <-.
    rewrite HY in HY'. injection HY' as <-.
    destruct (board b' !! y) as [row'|]; [|done]. injection Hg' as ->.
    by rewrite (step_empty _ _ _ _ Hstep).
  - destruct (ruleout_cols_spec b Hok) as (b' & Hb' & Hpass & Hok' & _).
    exists b'. split; [done|]. intros x nums Hcol HY.
    destruct (pass_lines _ _ _ _ Hpass x) as (n0 & X0 & n1 & Y & Hg & _ & Hg' & HY' & Hstep).
    { destruct Hok' as (_ & _ & [Hl _]). cbn in Hl |- *.
      destruct (pass_frame _ _ _ _ Hpass) as [_ _ _ <-]. rewrite <- Hl.
      by eapply lookup_lt_Some. }
    cbn in Hg, Hg', HY'. rewrite Hcol in Hg. injection Hg as <-.
    rewrite HY in HY'. injection HY' as <-.
    by rewrite Hg', (step_empty _ _ _ _ Hstep).
  - destruct (solve_loop_spec (height b * width b) b Hok) as (b' & r & ? & _); [|eauto].
    apply remaining_squares_bound, Hok.
Qed.

Lemma emptied_set_is_not_reported_witness :
  board_ok (seeded_of ex_contradictory) ∧
  (∃ b', ruleout_rows (seeded_of ex_contradictory) = Ok b' ∧
         ∀ y nums, board (seeded_of ex_contradictory) !! y = Some nums →
                   verposs b' !! y = Some ∅ → board b' !! y = Some nums) ∧
  (∃ b', ruleout_cols (seeded_of ex_contradictory) = Ok b' ∧
         ∀ x nums, get_col (seeded_of ex_contradictory) x = Ok nums →
                   horposs b' !! x = Some ∅ → get_col b' x = Ok nums) ∧
  (∃ b' r, solve_loop (height (seeded_of ex_contradictory)
                       * width (seeded_of ex_contradictory))
                      (seeded_of ex_contradictory) = Some (Ok (b', r))).
Proof.
  assert (board_ok (seeded_of ex_contradictory)) as Hok.
  { apply (bool_decide_unpack _). vm_compute. exact I. }
  split; [exact Hok|]. apply (emptied_set_is_not_reported _ Hok).
Defined.

(** ** C3 *)

(** C3, as stated, fails on row hint 5 and column hint 1: the enumerator
    returns the empty set, the constructor builds the board, and what
    reaches the caller of [solve] is the [IndexError] of the intersector.
    The code has no error of its own for hints. *)
Lemma infeasible_hint_no_error_of_its_own :
  get_numsposs [5] 1 = ∅ ∧
  board ex_infeasible = [[None]] ∧
  solve ex_infeasible = Some (Raise IndexError).
Proof. split_and!; vm_compute; reflexivity. Qed.

(** C3, amended. For a hint of a line of the board whose blocks and gaps
    do not fit ([deg_of_free] negative), the enumerator returns the empty
    set without raising, the intersector raises [IndexError] on it, and
    [solve] on the board ends with that [IndexError]. *)
Theorem infeasible_hint_surfaces_as_IndexError horlist verlist nums remain_len :
  Forall hint_ok horlist → Forall hint_ok verlist →
  (nums ∈ verlist ∧ remain_len = py_len horlist) ∨
  (nums ∈ horlist ∧ remain_len = py_len verlist) →
  deg_of_free nums remain_len < 0 →
  get_numsposs nums remain_len = ∅ ∧
  poss_intersection (get_numsposs nums remain_len) = Raise IndexError ∧
  solve (PicrossBoard_init horlist verlist) = Some (Raise IndexError).
Proof.
  intros Hhor Hver Hin Hdeg.
  assert (hint_ok nums) as [Hne _].
  { destruct Hin as [[Hin _]|[Hin _]];
      [rewrite Forall_forall in Hver; by apply Hver
      |rewrite Forall_forall in Hhor; by apply Hhor]. }
  assert (nums ≠ [0]) as Hne0.
  { intros ->. unfold deg_of_free, py_len in Hdeg. cbn in Hdeg.
    assert (0 ≤ remain_len) by (destruct Hin as [[_ ->]|[_ ->]]; apply py_len_nonneg).
    lia. }
  assert (get_numsposs nums remain_len = ∅) as Hempty
      by (by apply get_numsposs_infeasible).
  split; [done|]. split; [rewrite Hempty; apply poss_intersection_empty|].
  set (b := PicrossBoard_init horlist verlist).
  destruct (initial_possibilities_spec b (shape_ok_init horlist verlist)
              (hints_ok_init horlist verlist Hhor Hver)) as [(b' & _ & Hseed)|[E _]].
  - exfalso. apply (seeded_feasible _ _ Hseed).
    destruct Hin as [[Hin ->]|[Hin ->]]; [left|right];
      apply Exists_exists; exists nums; (split; [done|]); exact Hempty.
  - unfold solve, solve_within. by rewrite E.
Qed.

Lemma infeasible_hint_surfaces_as_IndexError_witness :
  get_numsposs [5] 1 = ∅ ∧
  poss_intersection (get_numsposs [5] 1) = Raise IndexError ∧
  solve (PicrossBoard_init [[1]] [[5]]) = Some (Raise IndexError).
Proof.
  apply (infeasible_hint_surfaces_as_IndexError [[1]] [[5]] [5] 1).
  - repeat constructor; (done || lia).
  - repeat constructor; (done || lia).
  - left. split; [|reflexivity]. constructor.
  - vm_compute. reflexivity.
Defined.

(** ** C4 *)

(** C4 does not hold of the code: for the empty block list the enumerator
    returns the one pattern of length zero whatever the line length,
    while the sibling case of hint 0 returns the line of zeros. The
    pattern of length zero is of no use to the caller: seeding a row of
    width 3 with it is a [ValueError] of the array assignment. *)
Theorem get_numsposs_nil_is_not_padded :
  (∀ remain_len, get_numsposs [] remain_len = {[ pat "" ]}) ∧
  get_numsposs [] 3 ≠ {[ pat "000" ]} ∧
  get_numsposs [0] 3 = {[ pat "000" ]} ∧
  initial_possibilities (PicrossBoard_init [[0]; [0]; [0]] [[]]) = Raise ValueError.
Proof.
  split; [done|]. split; [|split; [done|vm_compute; reflexivity]].
  intros H. assert (pat "" ∈ ({[ pat "000" ]} : gset pattern)) as Hin.
  { rewrite <- H. by apply elem_of_singleton. }
  by apply elem_of_singleton in Hin.
Qed.

(** ** C5 *)

(** C5. For a non-empty list of positive blocks, every pattern the
    enumerator returns has as its maximal runs of ones exactly the blocks,
    in order; it has the length of the line; it consists of zeros and ones;
    and it is the blocks laid out each after a gap of zeros, every gap but
    the first being at least one cell. *)
Theorem get_numsposs_blocks blocks remain_len p :
  blocks ≠ [] → Forall (λ n, 0 < n) blocks →
  p ∈ get_numsposs blocks remain_len →
  Z.of_nat <$> runs p = blocks ∧
  py_len p = remain_len ∧
  binary p ∧
  ∃ gaps trail,
    length gaps = length blocks ∧
    (∀ i g, gaps !! S i = Some g → (1 ≤ g)%nat) ∧
    p = layout gaps blocks ++ replicate trail "0".
Proof.
  intros Hne Hpos Hp.
  split; [by eapply get_numsposs_runs|].
  split; [|split; [by eapply get_numsposs_binary|by eapply get_numsposs_layout]].
  eapply get_numsposs_length; [|  |exact Hp].
  - split; [done|]. eapply Forall_impl; [exact Hpos|]. cbn. intros; lia.
  - intros ->. apply Forall_cons in Hpos as [? _]. lia.
Qed.

Lemma get_numsposs_blocks_witness :
  Z.of_nat <$> runs (pat "11010") = [2; 1] ∧
  py_len (pat "11010") = 5 ∧
  binary (pat "11010") ∧
  ∃ gaps trail,
    length gaps = length [2; 1] ∧
    (∀ i g, gaps !! S i = Some g → (1 ≤ g)%nat) ∧
    pat "11010" = layout gaps [2; 1] ++ replicate trail "0".
Proof.
  apply (get_numsposs_blocks [2; 1] 5 (pat "11010")).
  - done.
  - repeat constructor; lia.
  - apply (bool_decide_unpack _). vm_compute. exact I.
Defined.

(** ** C6 *)

(** C6. For a non-empty list of positive blocks with non-negative
    [deg_of_free] the enumerator returns [binom (deg_of_free + len) len]
    patterns; for the empty list it returns one; for the hint 0 it
    returns one. *)
Theorem get_numsposs_count :
  (∀ blocks remain_len,
     blocks ≠ [] → Forall (λ n, 0 < n) blocks →
     0 ≤ deg_of_free blocks remain_len →
     size (get_numsposs blocks remain_len) =
     binom (Z.to_nat (deg_of_free blocks remain_len) + length blocks)
           (length blocks)) ∧
  (∀ remain_len, size (get_numsposs [] remain_len) = 1%nat) ∧
  (∀ remain_len, size (get_numsposs [0] remain_len) = 1%nat).
Proof.
  split; [|split].
  - intros blocks L ? ? ?. by apply size_get_numsposs.
  - intros L. apply size_singleton.
  - intros L. apply size_singleton.
Qed.

Lemma get_numsposs_count_witness :
  size (get_numsposs [2; 1] 5) = binom (Z.to_nat (deg_of_free [2; 1] 5) + length [2; 1])
                                       (length [2; 1]).
Proof.
  apply (proj1 get_numsposs_count [2; 1] 5).
  - done.
  - repeat constructor; lia.
  - vm_compute. discriminate.
Defined.

(** ** C7 *)

(** C7. On a non-empty set of patterns of one length, the intersector
    returns a list of that length which holds, at each position, the
    common value where all patterns agree and [None] where two of them
    differ; on a singleton it returns the pattern itself, every cell known;
    and the answer is the same in whatever order the set is turned into a
    tuple. The set is only read: the function is its value on the set and
    the caller's set is the same before and after. *)
Theorem poss_intersection_agreement (line_poss : gset pattern) (n : nat) :
  line_poss ≠ ∅ →
  set_Forall (λ p, length p = n) line_poss →
  ∃ v, poss_intersection line_poss = Ok v ∧
       length v = n ∧
       (∀ i c, (∀ p, p ∈ line_poss → p !! i = Some c) → v !! i = Some (Some c)) ∧
       (∀ i p q, p ∈ line_poss → q ∈ line_poss → p !! i ≠ q !! i →
                 v !! i = Some None) ∧
       (∀ p, line_poss = {[ p ]} → v = Some <$> p) ∧
       (∀ l, l ≡ₚ elements line_poss → intersect_tuple l = Ok v).
Proof.
  intros Hne Hlen.
  destruct (poss_intersection_spec line_poss n Hne Hlen) as (v & Hv & Hl & Hagree & Hdiff).
  exists v. do 4 (split; [done|]). split.
  - intros p ->. rewrite poss_intersection_singleton in Hv. congruence.
  - intros l Hperm. rewrite <- Hv. symmetry.
    apply (intersect_tuple_perm _ _ n); [done| |].
    + intros E. apply Hne. apply leibniz_equiv. by apply elements_empty_inv.
    + apply Forall_forall. intros p Hp%elem_of_elements. by apply Hlen.
Qed.

Lemma poss_intersection_agreement_witness :
  ∃ v, poss_intersection {[ pat "10110"; pat "10011" ]} = Ok v ∧
       length v = 5%nat ∧
       (∀ i c, (∀ p, p ∈ ({[ pat "10110"; pat "10011" ]} : gset pattern) →
                     p !! i = Some c) → v !! i = Some (Some c)) ∧
       (∀ i p q, p ∈ ({[ pat "10110"; pat "10011" ]} : gset pattern) →
                 q ∈ ({[ pat "10110"; pat "10011" ]} : gset pattern) →
                 p !! i ≠ q !! i → v !! i = Some None) ∧
       (∀ p, ({[ pat "10110"; pat "10011" ]} : gset pattern) = {[ p ]} →
             v = Some <$> p) ∧
       (∀ l, l ≡ₚ elements ({[ pat "10110"; pat "10011" ]} : gset pattern) →
             intersect_tuple l = Ok v).
Proof.
  apply (poss_intersection_agreement {[ pat "10110"; pat "10011" ]} 5).
  - apply (bool_decide_unpack _). vm_compute. exact I.
  - apply (bool_decide_unpack _). vm_compute. exact I.
Defined.

(** The example of the docstring of [poss_intersection]. *)
Example poss_intersection_docstring :
  poss_intersection {[ pat "10110"; pat "10011" ]}
  = Ok [Some "1"; Some "0"; None; Some "1"; None].
Proof. vm_compute. reflexivity. Qed.

(** ** C8 *)

(** C8, as stated, fails on the board of the class docstring: seeding, one
    row pass and one column pass complete the grid, and after that column
    pass row 1 reads 100 while its candidate set still holds 001. The rows
    are not pruned again, so this is also the state [solve] returns. *)
Lemma row_candidate_disagrees_after_column_pass :
  initial_possibilities ex_docstring = Ok (seeded_of ex_docstring) ∧
  ruleout_rows (seeded_of ex_docstring) = Ok ex_after_rows ∧
  ruleout_cols ex_after_rows = Ok ex_after_cycle ∧
  solve ex_docstring = Some (Ok (ex_after_cycle, ReturnSelf)) ∧
  board ex_after_cycle !! 1%nat = Some [Some "1"; Some "0"; Some "0"] ∧
  verposs ex_after_cycle !! 1%nat = Some {[ pat "001"; pat "100" ]} ∧
  ¬ agrees (pat "001") [Some "1"; Some "0"; Some "0"].
Proof.
  do 6 (split; [vm_compute; reflexivity|]).
  intros H. specialize (H 0%nat "1" eq_refl). discriminate.
Qed.

(** C8, amended. Along any sequence of row and column passes, so
    throughout the loop of [solve], every candidate set is included in what
    it was before: no pattern is added and a removed pattern does not come
    back. After a row pass every pattern left in a row's set agrees with
    every known cell of that row, and after a column pass the same holds
    of the columns. Nothing is said of the sets of the other axis, which
    wait for their own next pass. *)
Theorem candidate_sets_shrink_and_pruned_axis_agrees b b' :
  board_ok b → rtc prune_pass b b' →
  poss_shrunk b b' ∧
  (∀ b'', ruleout_rows b' = Ok b'' → poss_shrunk b b'' ∧ rows_agree b'') ∧
  (∀ b'', ruleout_cols b' = Ok b'' → poss_shrunk b b'' ∧ cols_agree b'') ∧
  (∀ cycles b'' r, solve_loop cycles b' = Some (Ok (b'', r)) → poss_shrunk b b'').
Proof.
  intros Hok Hrtc.
  destruct (rtc_prune_pass_spec b b' Hok Hrtc) as [Hok' Hsh].
  split; [done|]. split; [|split].
  - intros b'' Hr. split; [|by eapply ruleout_rows_agree].
    eapply poss_shrunk_trans; [exact Hsh|].
    apply (prune_pass_spec b' b'' Hok'). by left.
  - intros b'' Hc. split; [|by eapply ruleout_cols_agree].
    eapply poss_shrunk_trans; [exact Hsh|].
    apply (prune_pass_spec b' b'' Hok'). by right.
  - intros cycles b'' r Hloop. eapply poss_shrunk_trans; [exact Hsh|].
    eapply rtc_prune_pass_spec; [done|]. by eapply solve_loop_passes.
Qed.

Lemma candidate_sets_shrink_and_pruned_axis_agrees_witness :
  poss_shrunk (seeded_of ex_docstring) ex_after_rows ∧
  (∀ b'', ruleout_rows ex_after_rows = Ok b'' →
          poss_shrunk (seeded_of ex_docstring) b'' ∧ rows_agree b'') ∧
  (∀ b'', ruleout_cols ex_after_rows = Ok b'' →
          poss_shrunk (seeded_of ex_docstring) b'' ∧ cols_agree b'') ∧
  (∀ cycles b'' r, solve_loop cycles ex_after_rows = Some (Ok (b'', r)) →
                   poss_shrunk (seeded_of ex_docstring) b'').
Proof.
  apply (candidate_sets_shrink_and_pruned_axis_agrees
           (seeded_of ex_docstring) ex_after_rows).
  - apply (bool_decide_unpack _). vm_compute. exact I.
  - apply rtc_once. left. vm_compute. reflexivity.
Defined.

(** ** C9 *)

(** C9. On every well-formed state a row pass and a column pass return a
    state with no more unknown cells than before; there are never more
    unknown cells than cells; and the loop, allowed one cycle per cell of
    the grid, ends: with the board itself exactly when no unknown cell is
    left, and with [None] only after a cycle that left the number of
    unknown cells as it was. A larger allowance gives the same answer. *)
Theorem unknown_count_decreases_and_loop_ends b :
  board_ok b →
  (∃ b1, ruleout_rows b = Ok b1 ∧ board_ok b1 ∧
         (remaining_squares b1 ≤ remaining_squares b)%nat) ∧
  (∃ b1, ruleout_cols b = Ok b1 ∧ board_ok b1 ∧
         (remaining_squares b1 ≤ remaining_squares b)%nat) ∧
  (remaining_squares b ≤ height b * width b)%nat ∧
  ∃ b' r,
    solve_loop (height b * width b) b = Some (Ok (b', r)) ∧
    (∀ cycles, (height b * width b ≤ cycles)%nat →
               solve_loop cycles b = Some (Ok (b', r))) ∧
    board_ok b' ∧
    (remaining_squares b' ≤ remaining_squares b)%nat ∧
    (r = ReturnSelf ↔ remaining_squares b' = 0%nat) ∧
    (r = ReturnNone →
     ∃ b1, cycle b1 = Ok b' ∧ remaining_squares b1 = remaining_squares b').
Proof.
  intros Hok.
  assert (remaining_squares b ≤ height b * width b)%nat as Hbound
      by apply remaining_squares_bound, Hok.
  split; [|split; [|split; [done|]]].
  - destruct (ruleout_rows_spec b Hok) as (b1 & ? & _ & ? & ?). eauto.
  - destruct (ruleout_cols_spec b Hok) as (b1 & ? & _ & ? & ?). eauto.
  - destruct (solve_loop_spec (height b * width b) b Hok Hbound) as (b' & r & Hloop & Hend).
    exists b', r. split; [done|].
    split; [intros cycles Hle; by eapply solve_loop_more|].
    destruct Hend. done.
Qed.

Lemma unknown_count_decreases_and_loop_ends_witness :
  board_ok (seeded_of ex_docstring) ∧
  ∃ b' r,
    solve_loop (height (seeded_of ex_docstring) * width (seeded_of ex_docstring))
               (seeded_of ex_docstring) = Some (Ok (b', r)) ∧
    (∀ cycles,
       (height (seeded_of ex_docstring) * width (seeded_of ex_docstring) ≤ cycles)%nat →
       solve_loop cycles (seeded_of ex_docstring) = Some (Ok (b', r))) ∧
    board_ok b' ∧
    (remaining_squares b' ≤ remaining_squares (seeded_of ex_docstring))%nat ∧
    (r = ReturnSelf ↔ remaining_squares b' = 0%nat) ∧
    (r = ReturnNone →
     ∃ b1, cycle b1 = Ok b' ∧ remaining_squares b1 = remaining_squares b').
Proof.
  assert (board_ok (seeded_of ex_docstring)) as Hok.
  { apply (bool_decide_unpack _). vm_compute. exact I. }
  split; [exact Hok|].
  apply (unknown_count_decreases_and_loop_ends (seeded_of ex_docstring) Hok).
Defined.

(** ** C10 *)

(** C10. Whenever every line has at least one candidate, seeding returns,
    and each cell of the seeded grid is the value of its row's
    intersection where that is known and the value of its column's
    intersection where the row's is [None] ([merge_cell], the [or] of
    [combine_known_nums]). Nothing compares the two values: where both
    are known and differ the row's stands, and seeding returns all the
    same. *)
Theorem seeding_prefers_row_value b :
  shape_ok b → hints_ok b → ¬ infeasible b →
  ∃ b',
    initial_possibilities b = Ok b' ∧
    ∀ y x rnums cnums,
      verlist b !! y = Some rnums → horlist b !! x = Some cnums →
      ∃ rint cint r c,
        poss_intersection (row_poss b rnums) = Ok rint ∧
        poss_intersection (col_poss b cnums) = Ok cint ∧
        rint !! x = Some r ∧ cint !! y = Some c ∧
        cell_at b' y x = Some (merge_cell r c) ∧
        (∀ a, r = Some a → cell_at b' y x = Some (Some a)) ∧
        (r = None → cell_at b' y x = Some c).
Proof.
  intros Hs Hh Hfeasible.
  destruct (initial_possibilities_spec b Hs Hh) as [(b' & Hb' & Hseed)|[_ ?]]; [|done].
  exists b'. split; [done|]. intros y x rnums cnums Hr Hc.
  destruct (seed_cells _ _ Hseed y x rnums cnums Hr Hc)
    as (rint & cint & r & c & ? & ? & ? & ? & Hcell).
  exists rint, cint, r, c. do 5 (split; [done|]).
  split; [by intros a ->|by intros ->].
Qed.

Lemma seeding_prefers_row_value_witness :
  ∃ b',
    initial_possibilities ex_disagree = Ok b' ∧
    ∀ y x rnums cnums,
      verlist ex_disagree !! y = Some rnums → horlist ex_disagree !! x = Some cnums →
      ∃ rint cint r c,
        poss_intersection (row_poss ex_disagree rnums) = Ok rint ∧
        poss_intersection (col_poss ex_disagree cnums) = Ok cint ∧
        rint !! x = Some r ∧ cint !! y = Some c ∧
        cell_at b' y x = Some (merge_cell r c) ∧
        (∀ a, r = Some a → cell_at b' y x = Some (Some a)) ∧
        (r = None → cell_at b' y x = Some c).
Proof.
  apply (seeding_prefers_row_value ex_disagree).
  - apply shape_ok_init.
  - split; [reflexivity|reflexivity|repeat constructor; (done || lia)..].
  - apply (bool_decide_unpack _). vm_compute. exact I.
Defined.

(** On [ex_disagree] the row says 0 and the column says 1 for the cell in
    row 1, column 1; seeding returns with the row's 0 there. *)
Example seeding_disagreement_resolved_for_row :
  poss_intersection (row_poss ex_disagree [0]) = Ok [Some "0"; Some "0"] ∧
  poss_intersection (col_poss ex_disagree [2]) = Ok [Some "1"; Some "1"] ∧
  cell_at (seeded_of ex_disagree) 1 1 = Some (Some "0") ∧
  initial_possibilities ex_disagree = Ok (seeded_of ex_disagree).
Proof. split_and!; vm_compute; reflexivity. Qed.

(** * Further properties of the code *)

(** ** The enumerator *)

(** X1. The enumerator returns exactly the placements of a hint: for the
    hint 0 or a hint of positive blocks, on a line of non-negative length,
    a string is enumerated if and only if it consists of zeros and ones,
    has the length of the line, and its maximal runs of ones are the
    blocks of the hint, in order. No placement is missed and nothing else
    is returned. *)
Theorem get_numsposs_exactly_the_placements nums remain_len (p : pattern) :
  hint_wf nums → 0 ≤ remain_len →
  p ∈ get_numsposs nums remain_len ↔
  binary p ∧ py_len p = remain_len ∧ Z.of_nat <$> runs p = blocks_of nums.
Proof.
  intros [->|[Hne Hpos]] HL.
  - change (get_numsposs [0] remain_len) with ({[ str_mul "0" remain_len ]} : gset pattern).
    change (blocks_of [0]) with (@nil Z).
    rewrite elem_of_singleton. unfold str_mul. split.
    + intros ->. split; [apply binary_replicate_zero|]. split.
      * unfold py_len. rewrite length_replicate. lia.
      * unfold runs. by rewrite runs_from_all_zeros.
    + intros (Hb & Hl & Hr). apply fmap_nil_inv in Hr.
      rewrite (runs_nil_zeros p Hb Hr). f_equal. unfold py_len in Hl. lia.
  - destruct (blocks_of_positive nums Hne Hpos) as [-> Hok]. split.
    + intros Hp. split; [by eapply get_numsposs_binary|]. split.
      * eapply get_numsposs_length; [exact Hok|by intros _|exact Hp].
      * by eapply get_numsposs_runs.
    + intros (Hb & Hl & Hr). by apply get_numsposs_complete.
Qed.

Lemma get_numsposs_exactly_the_placements_witness :
  pat "01011" ∈ get_numsposs [1; 2] 5 ↔
  binary (pat "01011") ∧ py_len (pat "01011") = 5 ∧
  Z.of_nat <$> runs (pat "01011") = blocks_of [1; 2].
Proof.
  apply (get_numsposs_exactly_the_placements [1; 2] 5 (pat "01011")).
  - right. split; [done|]. repeat constructor; lia.
  - lia.
Defined.

(** X2. A hint of non-negative blocks other than the hint 0 has no
    placement at all exactly when its blocks and the gaps between them
    need more cells than the line has, that is when
    [1 + remain_len - sum(nums) - len(nums)] is negative; the hint 0 always
    has one. *)
Theorem no_placement_iff_negative_freedom nums remain_len :
  hint_ok nums →
  get_numsposs nums remain_len = ∅ ↔
  nums ≠ [0] ∧ 1 + remain_len - py_sum nums - py_len nums < 0.
Proof. intros Hok. by apply get_numsposs_empty_iff. Qed.

Lemma no_placement_iff_negative_freedom_witness :
  get_numsposs [2; 2] 4 = ∅ ↔
  [2; 2] ≠ [0] ∧ 1 + 4 - py_sum [2; 2] - py_len [2; 2] < 0.
Proof.
  apply (no_placement_iff_negative_freedom [2; 2] 4).
  split; [done|]. repeat constructor; lia.
Defined.

(** ** Seeding and the answer of [solve] *)

(** X3. On a board with hints of non-negative blocks, [solve] raises
    exactly when some hint does not fit its line (a row hint against the
    width, a column hint against the height), and what it raises is then
    [IndexError]; when every hint fits, it returns, with the hints and
    dimensions of the board unchanged. *)
Theorem solve_raises_iff_some_hint_misfits b :
  shape_ok b → hints_ok b →
  (Exists (hint_misfit (width b)) (verlist b) ∨
   Exists (hint_misfit (height b)) (horlist b) →
   solve b = Some (Raise IndexError)) ∧
  (¬ (Exists (hint_misfit (width b)) (verlist b) ∨
      Exists (hint_misfit (height b)) (horlist b)) →
   ∃ b' r, solve b = Some (Ok (b', r)) ∧ same_frame b b').
Proof.
  intros Hs Hh. destruct (solve_raises_iff b Hs Hh) as [Hraise Hret]. split.
  - intros H. apply Hraise. by apply infeasible_iff.
  - intros H.
    destruct (initial_possibilities_spec b Hs Hh) as [(b0 & Hinit & Hseed)|[_ Hinf]].
    + destruct (solve_spec b b0 Hs Hh Hinit) as (_ & b' & r & Hsolve & Hend).
      exists b', r. split; [done|].
      eapply same_frame_trans; [apply Hseed|apply Hend].
    + exfalso. apply H. by apply infeasible_iff.
Qed.

Lemma solve_raises_iff_some_hint_misfits_witness :
  (Exists (hint_misfit (width ex_infeasible)) (verlist ex_infeasible) ∨
   Exists (hint_misfit (height ex_infeasible)) (horlist ex_infeasible) →
   solve ex_infeasible = Some (Raise IndexError)) ∧
  (¬ (Exists (hint_misfit (width ex_infeasible)) (verlist ex_infeasible) ∨
      Exists (hint_misfit (height ex_infeasible)) (horlist ex_infeasible)) →
   ∃ b' r, solve ex_infeasible = Some (Ok (b', r)) ∧ same_frame ex_infeasible b').
Proof.
  apply (solve_raises_iff_some_hint_misfits ex_infeasible).
  - split; [reflexivity|repeat constructor].
  - split; [reflexivity|reflexivity|repeat constructor; (done || lia)..].
Defined.

(** X4. Seeding uses nothing but the hints and the dimensions: two states
    of a board with the same hints and dimensions are seeded to the same
    state, whatever their grids and candidate sets held before, and
    [solve] gives the same answer and the same final state on both. So
    calling [solve] again on a board it has already worked on repeats the
    first answer. *)
Theorem solve_depends_on_hints_only b1 b2 :
  shape_ok b1 → shape_ok b2 → hints_ok b1 → same_frame b1 b2 →
  initial_possibilities b2 = initial_possibilities b1 ∧ solve b2 = solve b1.
Proof.
  intros Hs1 Hs2 Hh Hfr. split.
  - by apply initial_possibilities_frame.
  - by apply solve_frame.
Qed.

Lemma solve_depends_on_hints_only_witness :
  initial_possibilities (solved_of ex_docstring) = initial_possibilities ex_docstring ∧
  solve (solved_of ex_docstring) = solve ex_docstring.
Proof.
  apply (solve_depends_on_hints_only ex_docstring (solved_of ex_docstring)).
  - split; [reflexivity|repeat constructor].
  - split; [vm_compute; reflexivity|]. apply (bool_decide_unpack _). vm_compute. exact I.
  - split; [reflexivity|reflexivity|repeat constructor; (done || lia)..].
  - split; vm_compute; reflexivity.
Defined.

(** X5. [combine_known_nums] on lists of any two lengths: it raises
    [IndexError] exactly when some [None] of the first list lies at a
    position the second list does not have; otherwise it returns a list as
    long as the first one that holds, at each position, the first list's
    value when that is known and the second list's value otherwise.
    Entries of the second list beyond the first list's length are
    ignored. *)
Theorem combine_known_nums_total_behaviour (numsA numsB : list cell) :
  (uncovered numsA numsB → combine_known_nums numsA numsB = Raise IndexError) ∧
  (¬ uncovered numsA numsB →
   combine_known_nums numsA numsB = Ok (combined numsA numsB) ∧
   length (combined numsA numsB) = length numsA ∧
   ∀ i A, numsA !! i = Some A →
          combined numsA numsB !! i = Some (merge_cell A (default None (numsB !! i)))).
Proof.
  split.
  - intros (i & Hi & Hlen). apply combine_from_raise. exists i. split; [done|lia].
  - intros Hcov. split; [|split].
    + destruct (uncovered_dec numsA numsB) as [?|Hok]; [done|].
      unfold combine_known_nums. rewrite combine_from_ok; [done|].
      intros j Hj. specialize (Hok j Hj). lia.
    + unfold combined. by rewrite length_imap.
    + intros i A Hi. unfold combined. by rewrite list_lookup_imap, Hi.
Qed.

Lemma combine_known_nums_total_behaviour_witness :
  combine_known_nums [Some "1"; None; Some "0"] [None; Some "0"] =
  Ok (combined [Some "1"; None; Some "0"] [None; Some "0"]) ∧
  combine_known_nums [Some "1"; None; None] [None; Some "0"] = Raise IndexError.
Proof.
  split.
  - apply (proj2 (combine_known_nums_total_behaviour
                    [Some "1"; None; Some "0"] [None; Some "0"])).
    intros (i & Hi & Hlen). destruct i as [|[|[|i]]]; cbn in Hi, Hlen; (done || lia).
  - apply (proj1 (combine_known_nums_total_behaviour
                    [Some "1"; None; None] [None; Some "0"])).
    exists 2%nat. split; [reflexivity|simpl; lia].
Defined.

(** ** The pruning passes *)

(** X6. A pass treats every line on its own and what it does to a line is
    fixed by that line's cells and candidates before the pass alone: a
    set of exactly one candidate is left as it is, any other set keeps
    exactly the candidates that agree with every known cell of the line;
    the line is then overwritten with the candidate if exactly one is
    left and keeps its cells otherwise. This holds for [ruleout_rows] on
    the rows and for [ruleout_cols] on the columns. *)
Theorem each_line_is_pruned_on_its_own b :
  board_ok b →
  ∃ b1 b2, ruleout_rows b = Ok b1 ∧ pass_exact rows b b1 ∧
           ruleout_cols b = Ok b2 ∧ pass_exact cols b b2.
Proof.
  intros Hok. pose proof Hok as (Hs & Hr & Hc).
  destruct (ruleout_rows_spec b Hok) as (b1 & Hb1 & _).
  destruct (ruleout_cols_spec b Hok) as (b2 & Hb2 & _).
  exists b1, b2. split; [done|]. split; [|split; [done|]].
  - by apply (ruleout_pass_exact rows cols rows_laws).
  - by apply (ruleout_pass_exact cols rows cols_laws).
Qed.

Lemma each_line_is_pruned_on_its_own_witness :
  ∃ b1 b2, ruleout_rows (seeded_of ex_docstring) = Ok b1 ∧
           pass_exact rows (seeded_of ex_docstring) b1 ∧
           ruleout_cols (seeded_of ex_docstring) = Ok b2 ∧
           pass_exact cols (seeded_of ex_docstring) b2.
Proof.
  apply (each_line_is_pruned_on_its_own (seeded_of ex_docstring)).
  apply (bool_decide_unpack _). vm_compute. exact I.
Defined.

(** X7. Running a pass a second time right after the first changes
    nothing: the state a row pass returns is returned unchanged by another
    row pass, and the same for a column pass. *)
Theorem a_pass_repeated_changes_nothing b :
  board_ok b →
  ∃ b1 b2, ruleout_rows b = Ok b1 ∧ ruleout_rows b1 = Ok b1 ∧
           ruleout_cols b = Ok b2 ∧ ruleout_cols b2 = Ok b2.
Proof.
  intros Hok. pose proof Hok as (Hs & Hr & Hc).
  destruct (ruleout_rows_spec b Hok) as (b1 & Hb1 & _).
  destruct (ruleout_cols_spec b Hok) as (b2 & Hb2 & _).
  exists b1, b2. split; [done|]. split; [|split; [done|]].
  - by apply (ruleout_again rows cols rows_laws rows_cell_range rows_ext b b1).
  - by apply (ruleout_again cols rows cols_laws cols_cell_range cols_ext b b2).
Qed.

Lemma a_pass_repeated_changes_nothing_witness :
  ∃ b1 b2, ruleout_rows (seeded_of ex_docstring) = Ok b1 ∧ ruleout_rows b1 = Ok b1 ∧
           ruleout_cols (seeded_of ex_docstring) = Ok b2 ∧ ruleout_cols b2 = Ok b2.
Proof.
  apply (a_pass_repeated_changes_nothing (seeded_of ex_docstring)).
  apply (bool_decide_unpack _). vm_compute. exact I.
Defined.

(** X8. A cell that is known stays known: after any number of row and
    column passes, in any order, every cell that held a value before
    holds a value; in particular every cell known when the loop of
    [solve] starts is known in the state it ends in. *)
Theorem known_cells_stay_known b :
  board_ok b →
  (∀ b', rtc prune_pass b b' → known_kept b b') ∧
  (∀ cycles b' r, solve_loop cycles b = Some (Ok (b', r)) → known_kept b b').
Proof.
  intros Hok. split.
  - intros b'. by apply rtc_prune_pass_known_kept.
  - intros cycles b' r. by apply solve_loop_known_kept.
Qed.

Lemma known_cells_stay_known_witness :
  (∀ b', rtc prune_pass (seeded_of ex_docstring) b' →
         known_kept (seeded_of ex_docstring) b') ∧
  (∀ cycles b' r, solve_loop cycles (seeded_of ex_docstring) = Some (Ok (b', r)) →
                  known_kept (seeded_of ex_docstring) b').
Proof.
  apply (known_cells_stay_known (seeded_of ex_docstring)).
  apply (bool_decide_unpack _). vm_compute. exact I.
Defined.

(** X9. Whatever [solve] leaves on the board, on hints of non-negative
    blocks, is written with [None], 0 and 1 only: every cell of the grid
    is one of the three, every candidate of every row and column is a
    string of zeros and ones, and when [solve] returns the board every
    cell is 0 or 1. *)
Theorem solve_writes_only_zeros_and_ones b b' r :
  shape_ok b → hints_ok b → solve b = Some (Ok (b', r)) →
  cells_binary b' ∧ poss_binary (verposs b') ∧ poss_binary (horposs b') ∧
  (r = ReturnSelf →
   Forall (Forall (λ c : cell, c = Some "0" ∨ c = Some "1")) (board b')).
Proof.
  intros Hs Hh Hsolve.
  destruct (solve_alphabet b b' r Hs Hh Hsolve) as [(Hk & Hv & Hho) Hself].
  apply cells_binary_known in Hk.
  split; [done|]. split; [done|]. split; [done|].
  intros Hr. pose proof (remaining_zero_all_known b' (Hself Hr)) as Hall.
  unfold cells_binary in Hk. rewrite Forall_forall in Hk, Hall.
  apply Forall_forall. intros row Hrow.
  specialize (Hk row Hrow). specialize (Hall row Hrow).
  rewrite Forall_forall in Hk, Hall. apply Forall_forall. intros c Hc.
  destruct (Hk c Hc) as [->|?]; [|done]. by destruct (Hall None Hc).
Qed.

Lemma solve_writes_only_zeros_and_ones_witness :
  cells_binary (solved_of ex_docstring) ∧
  poss_binary (verposs (solved_of ex_docstring)) ∧
  poss_binary (horposs (solved_of ex_docstring)) ∧
  (ReturnSelf = ReturnSelf →
   Forall (Forall (λ c : cell, c = Some "0" ∨ c = Some "1"))
          (board (solved_of ex_docstring))).
Proof.
  apply (solve_writes_only_zeros_and_ones ex_docstring (solved_of ex_docstring) ReturnSelf).
  - split; [reflexivity|repeat constructor].
  - split; [reflexivity|reflexivity|repeat constructor; (done || lia)..].
  - vm_compute. reflexivity.
Defined.

(** ** Puzzles that have a solution *)

(** X10. Soundness. If a grid [g] of zeros and ones satisfies every hint
    (each of its rows and columns is a placement of the hint of that
    line), then [solve] does not raise, every cell it has determined is
    the cell of [g], the rows and columns of [g] are still among the
    candidates, and if it returns the board, the whole grid is [g]. *)
Theorem solve_never_contradicts_a_solution g b :
  shape_ok b → hints_ok b → solution g b →
  ∃ b' r,
    solve b = Some (Ok (b', r)) ∧ fits g b' ∧
    (r = ReturnSelf →
     ∀ y x, (y < height b)%nat → (x < width b)%nat →
            cell_at b' y x = Some (Some (g y x))).
Proof.
  intros Hs Hh Hsol.
  destruct (solve_sound g b Hs Hh Hsol) as (b' & r & Hsolve & _ & _ & Hfit & _).
  exists b', r. split; [done|]. split; [done|].
  intros ->. by apply (solved_cells g b b').
Qed.

Lemma solve_never_contradicts_a_solution_witness :
  ∃ b' r,
    solve ex_docstring = Some (Ok (b', r)) ∧ fits ex_docstring_grid b' ∧
    (r = ReturnSelf →
     ∀ y x, (y < height ex_docstring)%nat → (x < width ex_docstring)%nat →
            cell_at b' y x = Some (Some (ex_docstring_grid y x))).
Proof.
  apply (solve_never_contradicts_a_solution ex_docstring_grid ex_docstring).
  - split; [reflexivity|repeat constructor].
  - split; [reflexivity|reflexivity|repeat constructor; (done || lia)..].
  - split; apply (bool_decide_unpack _); vm_compute; exact I.
Defined.

(** X11. When [solve] returns the board, the puzzle has no second
    solution: any two grids that satisfy every hint are equal on every
    cell of the board. A puzzle with two different solutions is therefore
    never reported as solved. *)
Theorem solved_puzzle_has_one_solution g1 g2 b b' :
  shape_ok b → hints_ok b → solution g1 b → solution g2 b →
  solve b = Some (Ok (b', ReturnSelf)) →
  ∀ y x, (y < height b)%nat → (x < width b)%nat → g1 y x = g2 y x.
Proof.
  intros Hs Hh Hsol1 Hsol2 Hsolve y x Hy Hx.
  pose proof (solved_cells g1 b b' Hs Hh Hsol1 Hsolve y x Hy Hx) as H1.
  pose proof (solved_cells g2 b b' Hs Hh Hsol2 Hsolve y x Hy Hx) as H2.
  congruence.
Qed.

Lemma solved_puzzle_has_one_solution_witness :
  ex_docstring_grid 1 2 =
  grid_of [pat "111"; pat "100"; pat "111"; pat "011"; pat "001"; pat "010"; pat "1"] 1 2.
Proof.
  apply (solved_puzzle_has_one_solution
           ex_docstring_grid
           (grid_of [pat "111"; pat "100"; pat "111"; pat "011"; pat "001"; pat "010";
                     pat "1"])
           ex_docstring (solved_of ex_docstring)).
  - split; [reflexivity|repeat constructor].
  - split; [reflexivity|reflexivity|repeat constructor; (done || lia)..].
  - split; apply (bool_decide_unpack _); vm_compute; exact I.
  - split; apply (bool_decide_unpack _); vm_compute; exact I.
  - vm_compute. reflexivity.
  - simpl. lia.
  - simpl. lia.
Defined.

(** X12. When [solve] gives up on a puzzle that has a solution, it has
    reached a fixed point: one more cycle (a row pass, then a column pass)
    on the state it leaves returns that very state, grid and candidate
    sets alike, so no number of further cycles would determine another
    cell; and at least one cell is unknown. *)
Theorem giving_up_is_a_fixed_point g b b' :
  shape_ok b → hints_ok b → solution g b →
  solve b = Some (Ok (b', ReturnNone)) →
  cycle b' = Ok b' ∧ (0 < remaining_squares b')%nat.
Proof.
  intros Hs Hh Hsol Hsolve.
  destruct (initial_possibilities_spec b Hs Hh) as [(b0 & Hinit & Hseed)|[Hinit _]].
  2:{ unfold solve, solve_within in Hsolve. by rewrite Hinit in Hsolve. }
  unfold solve, solve_within in Hsolve. rewrite Hinit in Hsolve.
  pose proof (seeded_board_ok b b0 Hh Hseed) as Hok0.
  destruct (solve_loop_stall _ b0 b' Hok0 Hsolve) as (b1 & Hrtc & Hcyc & Hrem & Hnz).
  split; [|lia].
  apply (cycle_fixed_of_stall g b1 b'); [| |done|done].
  - by apply (rtc_prune_pass_spec b0 b1).
  - apply (rtc_prune_pass_fits g b0 b1); [done|done|]. by eapply seeded_fits.
Qed.

Lemma giving_up_is_a_fixed_point_witness :
  cycle (solved_of ex_ambiguous) = Ok (solved_of ex_ambiguous) ∧
  (0 < remaining_squares (solved_of ex_ambiguous))%nat.
Proof.
  apply (giving_up_is_a_fixed_point ex_ambiguous_grid ex_ambiguous (solved_of ex_ambiguous)).
  - split; [reflexivity|repeat constructor].
  - split; [reflexivity|reflexivity|repeat constructor; (done || lia)..].
  - split; apply (bool_decide_unpack _); vm_compute; exact I.
  - vm_compute. reflexivity.
Defined.

(** ** Rendering *)

(** X13. Printing loses nothing on the grids the solver produces: two
    boards of the same dimensions whose cells are [None], 0 or 1 have the
    same [__str__] if and only if their grids are equal. *)
Theorem str_determines_the_grid b1 b2 :
  shape_ok b1 → shape_ok b2 → height b2 = height b1 → width b2 = width b1 →
  cells_binary b1 → cells_binary b2 →
  PicrossBoard_str b1 = PicrossBoard_str b2 ↔ board b1 = board b2.
Proof.
  intros Hs1 Hs2 Eh Ew Hb1 Hb2. split.
  - by apply PicrossBoard_str_inj.
  - unfold PicrossBoard_str. by intros ->.
Qed.

Lemma str_determines_the_grid_witness :
  PicrossBoard_str (seeded_of ex_docstring) = PicrossBoard_str (solved_of ex_docstring) ↔
  board (seeded_of ex_docstring) = board (solved_of ex_docstring).
Proof.
  apply (str_determines_the_grid (seeded_of ex_docstring) (solved_of ex_docstring)).
  - apply (bool_decide_unpack _). vm_compute. exact I.
  - apply (bool_decide_unpack _). vm_compute. exact I.
  - vm_compute. reflexivity.
  - vm_compute. reflexivity.
  - apply (bool_decide_unpack _). vm_compute. exact I.
  - apply (bool_decide_unpack _). vm_compute. exact I.
Defined.

(** X14. The printed board shows an asterisk if and only if some cell is
    still unknown, that is if and only if [remaining_squares] is not
    zero. *)
Theorem asterisk_iff_unknown_left b :
  42%N ∈ PicrossBoard_str b ↔ remaining_squares b ≠ 0%nat.
Proof.
  unfold PicrossBoard_str, remaining_squares.
  rewrite elem_of_str_join.
  assert (42%N ∈ ([10%N] : ustr) ↔ False) as -> by (split; [by intros ?%list_elem_of_singleton|done]).
  assert (∀ row : list cell, 42%N ∈ str_join [32%N] (format_cell <$> row) ↔ None ∈ row) as Hrow.
  { intros row. rewrite elem_of_str_join. split.
    - intros [(s & Hs & Hc)|[Hc _]]; [|by apply list_elem_of_singleton in Hc].
      apply list_elem_of_fmap in Hs as (c & -> & Hin).
      destruct c as [a|]; [|done]. unfold format_cell in Hc.
      destruct (decide (a = "1")); by apply list_elem_of_singleton in Hc.
    - intros Hin. left. exists [42%N]. split; [|apply list_elem_of_here].
      apply list_elem_of_fmap. by exists None. }
  split.
  - intros [(s & Hs & Hc)|[[] _]].
    apply list_elem_of_fmap in Hs as (row & -> & Hin). apply Hrow in Hc.
    intros Hz. apply length_zero_iff_nil in Hz.
    assert (None ∈ filter (λ c : cell, c = None) (concat (board b))) as Hf.
    { apply list_elem_of_filter. split; [done|].
      apply list_elem_of_In, in_concat. exists row. by split; apply list_elem_of_In. }
    rewrite Hz in Hf. by apply elem_of_nil in Hf.
  - intros Hnz. left.
    destruct (filter (λ c : cell, c = None) (concat (board b))) as [|c l] eqn:Hf; [done|].
    assert (c ∈ filter (λ c : cell, c = None) (concat (board b))) as Hc
      by (rewrite Hf; apply list_elem_of_here).
    apply list_elem_of_filter in Hc as [-> Hc].
    apply list_elem_of_In, in_concat in Hc as (row & Hrow' & Hin).
    apply list_elem_of_In in Hrow', Hin.
    exists (str_join [32%N] (format_cell <$> row)). split; [|by apply Hrow].
    apply list_elem_of_fmap. by exists row.
Qed.

(** ** Construction *)

(** X15. Whatever strings [int] accepts, when the constructor returns:
    each hint is the list of the conversions of the pieces of its string
    between single spaces, so no hint is empty; the height and the width
    are the numbers of row and column hint strings; the grid has that
    shape with all [height * width] cells unknown; and when no converted
    number is negative the board is one [solve] handles. *)
Theorem constructed_board_is_fresh int (hor ver : list (list ascii)) b :
  PicrossBoard_new int hor ver = Ok b →
  Forall2 (λ s nums, comprehension int (split " " s) = Ok nums) ver (verlist b) ∧
  Forall2 (λ s nums, comprehension int (split " " s) = Ok nums) hor (horlist b) ∧
  Forall (λ nums, nums ≠ []) (verlist b) ∧
  Forall (λ nums, nums ≠ []) (horlist b) ∧
  height b = length ver ∧ width b = length hor ∧
  shape_ok b ∧ remaining_squares b = (height b * width b)%nat ∧
  (Forall (Forall (λ n, 0 ≤ n)) (verlist b) →
   Forall (Forall (λ n, 0 ≤ n)) (horlist b) → hints_ok b).
Proof.
  unfold PicrossBoard_new. intros Hnew.
  destruct (comprehension (parse_hint int) ver) as [vl|] eqn:Hver; [|done].
  destruct (comprehension (parse_hint int) hor) as [hl|] eqn:Hhor; [|done].
  cbn in Hnew. injection Hnew as <-.
  apply comprehension_ok in Hver, Hhor.
  assert (∀ l nums, Forall2 (λ s nums, parse_hint int s = Ok nums) l nums →
                    Forall (λ nums : list Z, nums ≠ []) nums) as Hne.
  { intros l nums H. induction H as [|s n l nums Hs _ IH]; constructor; [|done].
    by eapply parse_hint_nonempty. }
  pose proof (Forall2_length _ _ _ Hver) as Hlv.
  pose proof (Forall2_length _ _ _ Hhor) as Hlh.
  split; [done|]. split; [done|]. split; [by eapply Hne|]. split; [by eapply Hne|].
  cbn [height width verlist horlist PicrossBoard_init].
  split; [done|]. split; [done|]. split; [apply shape_ok_init|].
  split; [apply remaining_squares_init|].
  intros Hv Hh. apply hints_ok_init.
  - pose proof (Hne _ _ Hhor) as Hn. rewrite Forall_forall in Hn, Hh.
    apply Forall_forall. intros nums Hin. split; [by apply Hn|by apply Hh].
  - pose proof (Hne _ _ Hver) as Hn. rewrite Forall_forall in Hn, Hv.
    apply Forall_forall. intros nums Hin. split; [by apply Hn|by apply Hv].
Qed.

Lemma constructed_board_is_fresh_witness :
  Forall2 (λ s nums, comprehension ex_int (split " " s) = Ok nums)
          ex_ver_strings (verlist ex_docstring) ∧
  Forall2 (λ s nums, comprehension ex_int (split " " s) = Ok nums)
          ex_hor_strings (horlist ex_docstring) ∧
  Forall (λ nums, nums ≠ []) (verlist ex_docstring) ∧
  Forall (λ nums, nums ≠ []) (horlist ex_docstring) ∧
  height ex_docstring = length ex_ver_strings ∧
  width ex_docstring = length ex_hor_strings ∧
  shape_ok ex_docstring ∧
  remaining_squares ex_docstring = (height ex_docstring * width ex_docstring)%nat ∧
  (Forall (Forall (λ n, 0 ≤ n)) (verlist ex_docstring) →
   Forall (Forall (λ n, 0 ≤ n)) (horlist ex_docstring) → hints_ok ex_docstring).
Proof.
  apply (constructed_board_is_fresh ex_int ex_hor_strings ex_ver_strings ex_docstring).
  vm_compute. reflexivity.
Defined.
